(** * youtube-upload-api: the upload job pipeline of [src/index.js]

    A shallow embedding of the request handler [POST /upload], the
    background task [runUpload], the size probe [getContentLength], the
    session negotiation [createResumableSession], the token exchange
    [getAccessTokenFromRefresh], the relay attempt [attemptStreamUpload],
    the retry loop [streamVideoToYouTube], the poll handler [GET /job/:id]
    and the periodic registry sweep.

    JavaScript values are an inductive type; the job objects live in a heap
    and the [jobs] Map holds references into it, so that a mutation through
    the closure variable [job] is seen by a poll; asynchronous functions are
    computations in a state-and-exception monad whose log records every
    suspension on the outside world together with the store that a
    concurrent poll would observe at that moment. *)

From Stdlib Require Import ZArith String Ascii DecimalString Sorting.Sorted Permutation.
From Stdlib Require Import DecimalPos.
From stdpp Require Import base tactics option list strings sorting.

Set Warnings "-register-all".
Local Open Scope string_scope.
Local Open Scope Z_scope.
Local Open Scope list_scope.

(** ** JavaScript values *)

Module JS.

(** The values that reach this program: what [JSON.parse] and the JSON body
    parser produce, plus [undefined] and [NaN].  Numbers are the integers
    (status codes, byte counts, timestamps); an object is the list of its own
    properties, with distinct keys.

    A string is the sequence of its code units, each below 256.  That is
    every header value: Node hands a header to the program decoded as
    Latin-1, one code unit per byte, so that the header byte 160 is the
    no-break space U+00A0.  Texts with other code units, which can only
    come from the body or the environment, are not represented. *)
Inductive value : Type :=
| VUndefined
| VNull
| VBool (b : bool)
| VNum (n : Z)
| VNaN
| VStr (s : string)
| VArr (items : list value)
| VObj (props : list (string * value)).

(** ToBoolean. *)
Definition truthy (v : value) : bool :=
  match v with
  | VUndefined | VNull | VNaN => false
  | VBool b => b
  | VNum n => negb (n =? 0)
  | VStr s => negb (String.eqb s "")
  | VArr _ | VObj _ => true
  end.

(** [v == null]. *)
Definition nullish (v : value) : bool :=
  match v with
  | VUndefined | VNull => true
  | _ => false
  end.

(** [a || b]. *)
Definition or_else (a b : value) : value := if truthy a then a else b.

Fixpoint assoc (k : string) (props : list (string * value)) : value :=
  match props with
  | [] => VUndefined
  | (k', v) :: rest => if String.eqb k k' then v else assoc k rest
  end.

(** [v.k] for the property names the program reads ([id], [snippet],
    [access_token], [error], [error_description]): [None] is the TypeError
    raised on [undefined] and [null]; primitives and arrays have no such
    property. *)
Definition get_prop (v : value) (k : string) : option value :=
  match v with
  | VUndefined | VNull => None
  | VObj props => Some (assoc k props)
  | _ => Some VUndefined
  end.

(** Decimal rendering of an integer, as in a template literal. *)
Definition show (n : Z) : string := NilZero.string_of_int (Z.to_int n).

(** ToString. *)
Fixpoint to_string (v : value) : string :=
  match v with
  | VUndefined => "undefined"
  | VNull => "null"
  | VBool true => "true"
  | VBool false => "false"
  | VNum n => show n
  | VNaN => "NaN"
  | VStr s => s
  | VArr items =>
      String.concat ","
        (map (λ v, match v with VUndefined | VNull => "" | _ => to_string v end) items)
  | VObj _ => "[object Object]"
  end.

(** The no-break space U+00A0. *)
Definition nbsp : ascii := ascii_of_nat 160.

(** White space of [\s], [trim] and [parseInt]: the code units of
    WhiteSpace and LineTerminator below 256, which are U+0009 to U+000D,
    U+0020 and U+00A0. *)
Definition is_space (c : ascii) : bool :=
  let n := nat_of_ascii c in
  ((9 <=? n)%nat && (n <=? 13)%nat) || (n =? 32)%nat || (n =? 160)%nat.

Definition is_digit (c : ascii) : bool :=
  let n := nat_of_ascii c in (48 <=? n)%nat && (n <=? 57)%nat.

Definition to_lower (c : ascii) : ascii :=
  let n := nat_of_ascii c in
  if (65 <=? n)%nat && (n <=? 90)%nat then ascii_of_nat (n + 32) else c.

Fixpoint trimStart (s : string) : string :=
  match s with
  | String c rest => if is_space c then trimStart rest else s
  | EmptyString => s
  end.

Definition trim (s : string) : string :=
  String.rev (trimStart (String.rev (trimStart s))).

Fixpoint lowercase (s : string) : string :=
  match s with
  | String c rest => String (to_lower c) (lowercase rest)
  | EmptyString => EmptyString
  end.

Fixpoint digits (acc : Z) (seen : bool) (s : string) : option Z :=
  match s with
  | String c rest =>
      if is_digit c
      then digits (10 * acc + Z.of_nat (nat_of_ascii c - 48)) true rest
      else if seen then Some acc else None
  | EmptyString => if seen then Some acc else None
  end.

(** [parseInt(s, 10)]: leading white space, an optional sign, then the
    longest run of digits; [NaN] when there is none.  The result is the
    integer the digits denote, which is the code's Number as long as it is
    at most 2^53 in absolute value; beyond, the code's Number is the nearest
    double. *)
Definition parseInt (s : string) : value :=
  match trimStart s with
  | String "-" rest => from_option (λ n, VNum (- n)) VNaN (digits 0 false rest)
  | String "+" rest => from_option VNum VNaN (digits 0 false rest)
  | rest => from_option VNum VNaN (digits 0 false rest)
  end.

(** The text that follows a match of [/^Bearer\s+/i], if [s] has one. *)
Definition after_bearer (s : string) : option string :=
  if String.eqb (lowercase (substring 0 6 s)) "bearer"
  then match substring 6 (String.length s - 6) s with
       | String c rest => if is_space c then Some (trimStart rest) else None
       | EmptyString => None
       end
  else None.

End JS.
Import JS.

Example show_403 : show 403 = "403".
Proof. reflexivity. Qed.

Example parseInt_bytes : parseInt " 1048576" = VNum 1048576.
Proof. reflexivity. Qed.

Example parseInt_junk : parseInt "chunked" = VNaN.
Proof. reflexivity. Qed.

Example after_bearer_token : after_bearer "bearer   abc " = Some "abc ".
Proof. reflexivity. Qed.

Example after_bearer_none : after_bearer "Basic abc" = None.
Proof. reflexivity. Qed.

(** A no-break space separates the scheme from the token as a space does,
    and [trim] removes it. *)
Example after_bearer_nbsp :
  after_bearer ("Bearer" +:+ String nbsp "abc") = Some "abc"
  ∧ after_bearer ("Bearer " +:+ String nbsp "abc") = Some "abc"
  ∧ trim (String nbsp ("abc" +:+ String nbsp "")) = "abc".
Proof. split_and!; reflexivity. Qed.

(** ** Errors, jobs and the store *)

(** An [Error] object with the optional properties the program sets or
    reads: [statusCode] and [body] are attached by [attemptStreamUpload],
    [code] by the transport layer ([ECONNRESET], [ETIMEDOUT], ...). *)
Record js_error : Type := Error {
  message : string;
  statusCode : option Z;
  code : option string;
  body : option string
}.

Definition new_Error (msg : string) : js_error :=
  {| message := msg; statusCode := None; code := None; body := None |}.

(** What a [catch] clause or a rejection handler can receive. *)
Inductive thrown : Type :=
| TErr (e : js_error)
| TUndefined.

Inductive Status : Type := pending | downloading | uploading | completed | failed.

Global Instance Status_eq_dec : EqDecision Status.
Proof. solve_decision. Defined.

(** The value [attemptStreamUpload] resolves with. *)
Record upload_result : Type := {
  r_statusCode : Z;
  r_videoId : value;
  r_rawResponse : option string
}.

(** The object stored in [job.error]. *)
Record job_error : Type := {
  e_message : string;
  e_code : option string
}.

(** A job object.  [createdAt] and [completedAt] are ISO-8601 renderings of
    a clock reading; the model keeps the reading itself (milliseconds), which
    is what [new Date(s)] recovers in the sweep.  [completedAt] is absent,
    [result] and [error] are [null], until written. *)
Record job : Type := Job {
  j_id : string;
  j_status : Status;
  j_createdAt : Z;
  j_completedAt : option Z;
  j_videoUrl : value;
  j_videoMetadata : value;
  j_result : option upload_result;
  j_error : option job_error
}.

Global Instance job_inhabited : Inhabited job :=
  populate (Job "" pending 0 None VUndefined VUndefined None None).

Definition set_status (x : Status) (j : job) : job :=
  Job (j_id j) x (j_createdAt j) (j_completedAt j) (j_videoUrl j)
      (j_videoMetadata j) (j_result j) (j_error j).

Definition set_completedAt (t : Z) (j : job) : job :=
  Job (j_id j) (j_status j) (j_createdAt j) (Some t) (j_videoUrl j)
      (j_videoMetadata j) (j_result j) (j_error j).

Definition set_result (r : upload_result) (j : job) : job :=
  Job (j_id j) (j_status j) (j_createdAt j) (j_completedAt j) (j_videoUrl j)
      (j_videoMetadata j) (Some r) (j_error j).

Definition set_error (e : job_error) (j : job) : job :=
  Job (j_id j) (j_status j) (j_createdAt j) (j_completedAt j) (j_videoUrl j)
      (j_videoMetadata j) (j_result j) (Some e).

(** The process-wide mutable state: the job objects by address, the [jobs]
    Map from identifier to object reference in insertion order, and
    [storedRefreshToken]. *)
Record store : Type := Store {
  heap : list job;
  jobs : list (string * nat);
  storedRefreshToken : value
}.

(** *** The [jobs] Map *)

Module JobMap.

Definition t : Type := list (string * nat).

Fixpoint get (k : string) (m : t) : option nat :=
  match m with
  | [] => None
  | (k', a) :: rest => if String.eqb k k' then Some a else get k rest
  end.

(** [set] on a present key replaces the value in place; a new key goes last. *)
Fixpoint set (k : string) (a : nat) (m : t) : t :=
  match m with
  | [] => [(k, a)]
  | (k', a') :: rest =>
      if String.eqb k k' then (k, a) :: rest else (k', a') :: set k a rest
  end.

Fixpoint delete (k : string) (m : t) : t :=
  match m with
  | [] => []
  | (k', a) :: rest =>
      if String.eqb k k' then rest else (k', a) :: delete k rest
  end.

Definition size (m : t) : Z := Z.of_nat (length m).

Definition keys (m : t) : list string := m.*1.

End JobMap.

(** ** Replies of the outside world *)

(** The token endpoint's reply to [getAccessTokenFromRefresh]. *)
Inductive token_reply : Type :=
| TokenError (e : js_error)
| TokenReply (data : string).

(** The source's reply to the HEAD probe: a transport error (which covers
    the probe timeout and a [videoUrl] that [new URL] rejects), or the first
    response with its status, [content-length] and [location] headers. *)
Inductive head_reply : Type :=
| HeadError (e : js_error)
| HeadReply (status : Z) (content_length : option string) (location : option string).

(** The destination's reply to the session request. *)
Inductive session_reply : Type :=
| SessionError (e : js_error)
| SessionReply (status : Z) (location : option string) (data : string).

(** The argument object of [streamVideoToYouTube] and
    [attemptStreamUpload]. *)
Record descriptor : Type := {
  d_videoUrl : value;
  d_uploadUrl : value;
  d_oauthToken : value;
  d_contentType : value;
  d_contentLength : value
}.

(** One relay attempt seen from the network: what the GET of the source
    does, and what the PUT to the destination does once the source has
    answered and the upload request exists.  [SrcError] covers an [error]
    event on the download request (the download timeout included) and a
    [videoUrl] that [new URL] or [get] refuses, which happens inside the
    promise executor and so rejects the promise; [DstError] covers an
    [error] event on the upload request and a failed pipeline. *)
Inductive source_reply : Type :=
| SrcError (e : js_error)
| SrcResponse (status : Z).

Inductive dest_reply : Type :=
| DstError (e : js_error)
| DstResponse (status : Z) (data : string).

Record attempt_net : Type := {
  src : source_reply;
  dst : dest_reply
}.

(** ** Events *)

Inductive io : Type :=
| IoToken (clientId clientSecret refreshToken : value)
| IoHead (url : value)
| IoSession (accessToken videoMetadata contentType contentLength : value)
| IoTransfer (d : descriptor)
| IoTimer (ms : Z).

Inductive field : Type :=
| FStatus (x : Status)
| FCompletedAt
| FResult
| FError.

Inductive payload : Type :=
| PFailure (error : string) (detail : option string)
| PAccepted (jobId : string) (pollUrl : string)
| PNotFound (jobId : string)
| PJob (j : job).

Record response : Type := {
  res_status : Z;
  res_json : payload
}.

Inductive console : Type :=
| Warn (text : string)
| UploadFailed (jobId : string)
| BackgroundError (jobId : string).

(** What the program does, in order: it suspends on the outside world (the
    event keeps the store a poll would observe during the suspension),
    creates a job object, assigns a property of one, answers the caller, or
    writes to the console. *)
Inductive event : Type :=
| EvIo (op : io) (seen : store)
| EvNew (a : nat)
| EvSet (a : nat) (f : field)
| EvRespond (r : response)
| EvConsole (c : console).

Record state : Type := State {
  mem : store;
  log : list event;
  ticks : nat
}.

(** The environment of one request: the runtime's JSON parser; what the
    runtime throws, if anything, when the upload request of an attempt is
    built ([new URL(uploadUrl)] and [request(uploadUrl, options)] at lines
    486-489 throw on an upload URL that does not parse, for one); the
    process configuration; the clock readings in order; the suffix drawn
    from [Math.random]; and the replies of the three remote parties (the
    source and the destination may answer differently each time they are
    asked). *)
Record World : Type := {
  JSON_parse : string → option value;
  upload_request_throws : descriptor → option js_error;
  YOUTUBE_CLIENT_ID : option string;
  YOUTUBE_CLIENT_SECRET : option string;
  clock : nat → Z;
  random_suffix : string;
  token_endpoint : value → value → value → token_reply;
  source_head : nat → value → head_reply;
  session_endpoint : value → value → value → value → session_reply;
  relay : nat → attempt_net
}.

(** ** The monad of asynchronous functions

    A computation transforms the state and returns, throws, or aborts; an
    [await] on a remote party is a [suspend] followed by the party's reply.
    [Throw] is an exception or a rejected promise, which a [catch] clause or
    a rejection handler receives.  [Abort] is an exception thrown inside an
    I/O callback: it settles no promise and no handler of the program sees
    it, the turn of the event loop ends with it as an uncaught exception
    and nothing that was waiting on the callback runs.  The program installs
    no handler for uncaught exceptions, so the process ends there: the state
    that comes with [Abort] is the one the process had at that moment, and
    no later request or poll finds it. *)

Inductive outcome (A : Type) : Type :=
| Ok (a : A)
| Throw (t : thrown)
| Abort (e : js_error).
Arguments Ok {A} a.
Arguments Throw {A} t.
Arguments Abort {A} e.

Definition M (A : Type) : Type := state → outcome A * state.

Global Instance M_ret : MRet M := λ A a s, (Ok a, s).

Global Instance M_bind : MBind M := λ A B f m s,
  match m s with
  | (Ok a, s') => f a s'
  | (Throw t, s') => (Throw t, s')
  | (Abort e, s') => (Abort e, s')
  end.

(** The store that the requests and polls after a run find, the run having
    returned: none when it ended in an exception that nothing caught, on
    which the process ends and takes the registry and the stored refresh
    token with it. *)
Definition after_run {A : Type} (r : outcome A * state) : option store :=
  match r.1 with
  | Ok _ => Some (mem r.2)
  | _ => None
  end.

Definition throw {A : Type} (t : thrown) : M A := λ s, (Throw t, s).

(** [try { m } catch (err) { h err }]. *)
Definition try_catch {A : Type} (m : M A) (h : thrown → M A) : M A := λ s,
  match m s with
  | (Ok a, s') => (Ok a, s')
  | (Throw t, s') => h t s'
  | (Abort e, s') => (Abort e, s')
  end.

(** What an awaited promise has come to once its callbacks have run. *)
Definition settled {A : Type} (o : outcome A) : M A := λ s, (o, s).

Definition emit (e : event) : M unit := λ s,
  (Ok (), State (mem s) (log s ++ [e]) (ticks s)).

Definition suspend (op : io) : M unit := λ s,
  (Ok (), State (mem s) (log s ++ [EvIo op (mem s)]) (ticks s)).

Definition respond (status : Z) (p : payload) : M unit :=
  emit (EvRespond {| res_status := status; res_json := p |}).

(** A new object literal. *)
Definition new_object (j : job) : M nat := λ s,
  let a := length (heap (mem s)) in
  (Ok a,
   State (Store (heap (mem s) ++ [j]) (jobs (mem s)) (storedRefreshToken (mem s)))
         (log s ++ [EvNew a]) (ticks s)).

(** The store after [upd] on the object at [a]. *)
Definition update (a : nat) (upd : job → job) (m : store) : store :=
  Store (alter upd a (heap m)) (jobs m) (storedRefreshToken m).

(** [job.f = ...] on the object at [a]. *)
Definition assign (a : nat) (f : field) (upd : job → job) : M unit := λ s,
  (Ok (), State (update a upd (mem s)) (log s ++ [EvSet a f]) (ticks s)).

Definition read (a : nat) : M job := λ s, (Ok (heap (mem s) !!! a), s).

Definition jobs_set (k : string) (a : nat) : M unit := λ s,
  (Ok (),
   State (Store (heap (mem s)) (JobMap.set k a (jobs (mem s))) (storedRefreshToken (mem s)))
         (log s) (ticks s)).

Definition get_storedRefreshToken : M value := λ s,
  (Ok (storedRefreshToken (mem s)), s).

Definition is_head (e : event) : bool :=
  match e with EvIo (IoHead _) _ => true | _ => false end.

Definition is_transfer (e : event) : bool :=
  match e with EvIo (IoTransfer _) _ => true | _ => false end.

Definition count (p : event → bool) (l : list event) : nat :=
  length (List.filter p l).

(** How many probes, resp. relay attempts, have been started so far. *)
Definition probes_so_far : M nat := λ s, (Ok (count is_head (log s)), s).
Definition transfers_so_far : M nat := λ s, (Ok (count is_transfer (log s)), s).

Definition TypeError (prop : string) : thrown :=
  TErr (new_Error ("Cannot read properties of undefined (reading '" +:+ prop +:+ "')")).

(** [err.message] and [err.code] on a caught value. *)
Definition prop_message (err : thrown) : M string :=
  match err with
  | TErr e => mret (message e)
  | TUndefined => throw (TypeError "message")
  end.

Definition prop_code (err : thrown) : M (option string) :=
  match err with
  | TErr e => mret (code e)
  | TUndefined => throw (TypeError "code")
  end.

Section Program.

Context (w : World).

(** [new Date()] and [Date.now()]: the next clock reading. *)
Definition Date_now : M Z := λ s,
  (Ok (clock w (ticks s)), State (mem s) (log s) (S (ticks s))).

(** *** [getAccessTokenFromRefresh] (lines 367-407) *)

Definition getAccessTokenFromRefresh (clientId clientSecret refreshToken : value) : M value :=
  suspend (IoToken clientId clientSecret refreshToken);;
  match token_endpoint w clientId clientSecret refreshToken with
  | TokenError e => throw (TErr e)
  | TokenReply data =>
      let parse_error := TErr (new_Error ("Token response parse error: " +:+ data)) in
      match JSON_parse w data with
      | None => throw parse_error
      | Some json =>
          match get_prop json "access_token" with
          | None => throw parse_error
          | Some access_token =>
              if truthy access_token then mret access_token
              else
                let description := default VUndefined (get_prop json "error_description") in
                let error := default VUndefined (get_prop json "error") in
                throw (TErr (new_Error (to_string
                  (or_else (or_else description error) (VStr "No access_token in response")))))
          end
      end
  end.

(** *** [getContentLength] (lines 413-433) *)

Definition SizeUnavailable : string :=
  "Source URL does not provide Content-Length. Pass contentLength in the request body.".

(** How the probe's promise settles on the source's reply: the response
    callback reads [content-length] whatever the status; an [error] event
    rejects. *)
Definition length_of (r : head_reply) : outcome value :=
  match r with
  | HeadError e => Throw (TErr e)
  | HeadReply _ (Some len) _ => Ok (parseInt len)
  | HeadReply _ None _ => Throw (TErr (new_Error SizeUnavailable))
  end.

Definition getContentLength (url : value) : M value :=
  k ← probes_so_far;
  suspend (IoHead url);;
  settled (length_of (source_head w k url)).

(** *** [createResumableSession] (lines 325-361) *)

Definition createResumableSession (accessToken videoMetadata contentType contentLength : value)
  : M value :=
  suspend (IoSession accessToken videoMetadata contentType contentLength);;
  match session_endpoint w accessToken videoMetadata contentType contentLength with
  | SessionError e => throw (TErr e)
  | SessionReply status location data =>
      let location := from_option VStr VUndefined location in
      if truthy location then mret location
      else throw (TErr (new_Error (to_string
             (or_else (VStr data) (VStr ("HTTP " +:+ show status))))))
  end.

(** *** [attemptStreamUpload] (lines 465-535) *)

(** [try { videoId = JSON.parse(body).id || null } catch (_) {}], with
    [videoId] initially [null]. *)
Definition videoId_of (data : string) : value :=
  match JSON_parse w data with
  | None => VNull
  | Some json =>
      match get_prop json "id" with
      | None => VNull
      | Some id => or_else id VNull
      end
  end.

(** The PUT's response callback (lines 489-517), on the response's [end]. *)
Definition on_put_response (putStatus : Z) (data : string) : outcome upload_result :=
  if (putStatus =? 201) || (putStatus =? 200)
  then Ok {| r_statusCode := putStatus;
             r_videoId := videoId_of data;
             r_rawResponse := if (0 <? String.length data)%nat then Some data else None |}
  else if putStatus =? 308
  then Throw (TErr {| message := "Upload incomplete (308), will retry";
                      statusCode := Some 308; code := None; body := None |})
  else Throw (TErr {| message := "YouTube upload failed: HTTP " +:+ show putStatus
                                 +:+ " - " +:+ data;
                      statusCode := Some putStatus; code := None; body := Some data |}).

(** What becomes of one attempt, given what the two remote parties do.
    The source's response callback (lines 471-525) rejects on a status of
    400 or more; otherwise it builds the upload request, and what that
    throws is thrown inside the callback, past the promise: an uncaught
    exception, on which the process ends. *)
Definition settle (d : descriptor) (net : attempt_net) : outcome upload_result :=
  match src net with
  | SrcError e => Throw (TErr e)
  | SrcResponse getStatus =>
      if 400 <=? getStatus
      then Throw (TErr (new_Error ("Failed to download video: HTTP " +:+ show getStatus)))
      else
        match upload_request_throws w d with
        | Some e => Abort e
        | None =>
            match dst net with
            | DstError e => Throw (TErr e)
            | DstResponse putStatus data => on_put_response putStatus data
            end
        end
  end.

Definition attemptStreamUpload (d : descriptor) : M upload_result :=
  k ← transfers_so_far;
  suspend (IoTransfer d);;
  settled (settle d (relay w k)).

(** *** [streamVideoToYouTube] (lines 439-460) *)

Definition maxRetries : Z := 3.

Definition isRetryable (err : js_error) : bool :=
  from_option (λ c, 500 <=? c) false (statusCode err)
  || from_option (λ c, c =? 308) false (statusCode err)
  || from_option (String.eqb "ECONNRESET") false (code err)
  || from_option (String.eqb "ETIMEDOUT") false (code err).

Definition backoff (attempt : Z) : Z := Z.min (1000 * 2 ^ attempt) 10000.

(** The [for] loop from [attempt] on, with [remaining] iterations left
    before [attempt <= maxRetries] fails; [throw lastError] follows the
    loop. *)
Fixpoint attempts_from (remaining : nat) (attempt : Z) (lastError : thrown)
    (d : descriptor) : M upload_result :=
  match remaining with
  | O => throw lastError
  | S remaining' =>
      try_catch
        (attemptStreamUpload d)
        (λ err,
           match err with
           | TUndefined => throw (TypeError "statusCode")
           | TErr e =>
               if negb (isRetryable e) || (attempt =? maxRetries) then throw err
               else
                 let delay := backoff attempt in
                 emit (EvConsole (Warn ("Upload attempt " +:+ show attempt
                         +:+ " failed, retrying in " +:+ show delay +:+ "ms: "
                         +:+ message e)));;
                 suspend (IoTimer delay);;
                 attempts_from remaining' (attempt + 1) err d
           end)
  end.

Definition streamVideoToYouTube (d : descriptor) : M upload_result :=
  attempts_from (Z.to_nat maxRetries) 1 TUndefined d.

(** *** The [POST /upload] handler (lines 155-320) *)

(** The request as the handler sees it once the API-key middleware has let
    it through: the [authorization] header, and the destructured body, where
    a missing field is [undefined]. *)
Record request : Type := {
  authorization : option string;
  videoUrl : value;
  uploadUrl : value;
  oauthToken : value;
  clientId : value;
  clientSecret : value;
  refreshToken : value;
  videoMetadata : value;
  contentLength : value;
  contentType_field : value;
  sync_field : value
}.

(** The destructuring defaults [contentType = 'video/webm'], [sync = false]. *)
Definition contentType (req : request) : value :=
  match contentType_field req with VUndefined => VStr "video/webm" | v => v end.

Definition sync (req : request) : value :=
  match sync_field req with VUndefined => VBool false | v => v end.

Definition header (h : option string) : value := from_option VStr VUndefined h.

(** Lines 177-181: the body's [oauthToken], else a bearer header. *)
Definition tokenFromRequest (req : request) : value :=
  let accessToken := oauthToken req in
  match authorization req with
  | Some authHeader =>
      if negb (truthy accessToken) && truthy (VStr authHeader)
      then match after_bearer authHeader with
           | Some rest => VStr (trim rest)
           | None => accessToken
           end
      else accessToken
  | None => accessToken
  end.

(** Lines 182-191.  [None] means the handler has answered and returned. *)
Definition tokenFromBodyRefresh (req : request) (accessToken : value) : M (option value) :=
  if negb (truthy accessToken) && truthy (clientId req) && truthy (clientSecret req)
     && truthy (refreshToken req)
  then try_catch
         (t ← getAccessTokenFromRefresh (clientId req) (clientSecret req) (refreshToken req);
          mret (Some t))
         (λ err,
            m ← prop_message err;
            respond 400 (PFailure "Failed to get access token from refresh token" (Some m));;
            mret None)
  else mret (Some accessToken).

(** Lines 192-205. *)
Definition tokenFromStoredRefresh (accessToken : value) : M (option value) :=
  stored ← get_storedRefreshToken;
  if negb (truthy accessToken) && truthy stored && truthy (header (YOUTUBE_CLIENT_ID w))
     && truthy (header (YOUTUBE_CLIENT_SECRET w))
  then try_catch
         (t ← getAccessTokenFromRefresh (header (YOUTUBE_CLIENT_ID w))
                (header (YOUTUBE_CLIENT_SECRET w)) stored;
          mret (Some t))
         (λ err,
            m ← prop_message err;
            respond 401 (PFailure
              "Stored token expired or invalid. Visit /auth/youtube again to reconnect."
              (Some m));;
            mret None)
  else mret (Some accessToken).

(** Lines 176-212: the access token, or [None] once the handler has
    answered with an error. *)
Definition resolveAccessToken (req : request) : M (option value) :=
  t ← tokenFromBodyRefresh req (tokenFromRequest req);
  match t with
  | None => mret None
  | Some accessToken =>
      t ← tokenFromStoredRefresh accessToken;
      match t with
      | None => mret None
      | Some accessToken =>
          if negb (truthy accessToken)
          then respond 400 (PFailure "Missing auth" None);; mret None
          else mret (Some accessToken)
      end
  end.

(** Lines 228-256: the upload URL, supplied or negotiated, or [None] once
    the handler has answered with an error. *)
Definition resolveUploadUrl (req : request) (accessToken : value) : M (option value) :=
  let resolvedUploadUrl := uploadUrl req in
  if truthy resolvedUploadUrl then mret (Some resolvedUploadUrl)
  else if negb (truthy (videoMetadata req))
          || negb (from_option truthy false (get_prop (videoMetadata req) "snippet"))
  then respond 400 (PFailure "Missing uploadUrl and videoMetadata.snippet" None);; mret None
  else
    size ← (if nullish (contentLength req)
            then try_catch
                   (n ← getContentLength (videoUrl req); mret (Some n))
                   (λ e,
                      m ← prop_message e;
                      respond 400 (PFailure
                        "Could not get video size. Pass contentLength in body or ensure videoUrl returns Content-Length."
                        (Some m));;
                      mret None)
            else mret (Some (contentLength req)));
    match size with
    | None => mret None
    | Some sizeForSession =>
        try_catch
          (u ← createResumableSession accessToken (videoMetadata req) (contentType req)
                 sizeForSession;
           mret (Some u))
          (λ err,
             m ← prop_message err;
             respond 400 (PFailure "Failed to create YouTube upload session" (Some m));;
             mret None)
    end.

(** Lines 262-266: the supplied length, or the probe. *)
Definition resolveContentLength (req : request) : M value :=
  if nullish (contentLength req) then getContentLength (videoUrl req)
  else mret (contentLength req).

(** The object literal passed to [streamVideoToYouTube] at lines 274-280. *)
Definition descriptor_of (req : request)
    (resolvedUploadUrl accessToken resolvedContentLength : value) : descriptor :=
  {| d_videoUrl := videoUrl req;
     d_uploadUrl := resolvedUploadUrl;
     d_oauthToken := accessToken;
     d_contentType := contentType req;
     d_contentLength := resolvedContentLength |}.

(** Lines 258-290: the closure [runUpload], over the job object at [a]. *)
Definition runUpload (a : nat) (jobId : string) (req : request)
    (resolvedUploadUrl accessToken : value) : M unit :=
  assign a (FStatus downloading) (set_status downloading);;
  try_catch
    (resolvedContentLength ← resolveContentLength req;
     assign a (FStatus uploading) (set_status uploading);;
     result ← streamVideoToYouTube
                (descriptor_of req resolvedUploadUrl accessToken resolvedContentLength);
     assign a (FStatus completed) (set_status completed);;
     t ← Date_now;
     assign a FCompletedAt (set_completedAt t);;
     assign a FResult (set_result result))
    (λ err,
       assign a (FStatus failed) (set_status failed);;
       t ← Date_now;
       assign a FCompletedAt (set_completedAt t);;
       m ← prop_message err;
       c ← prop_code err;
       assign a FError (set_error {| e_message := m; e_code := c |});;
       emit (EvConsole (UploadFailed jobId))).

(** Lines 296-300: the [then] callback of the synchronous mode. *)
Definition respondWithJob (a : nat) : M unit :=
  j ← read a;
  if decide (j_status j = completed) then respond 201 (PJob j) else respond 500 (PJob j).

(** Lines 302-306: the [catch] callback of the synchronous mode. *)
Definition syncRejected (a : nat) (err : thrown) : M unit :=
  assign a (FStatus failed) (set_status failed);;
  m ← prop_message err;
  assign a FError (set_error {| e_message := m; e_code := None |});;
  j ← read a;
  respond 500 (PJob j).

(** Lines 316-318: the [catch] callback of the asynchronous mode. *)
Definition backgroundRejected (jobId : string) (err : thrown) : M unit :=
  emit (EvConsole (BackgroundError jobId)).

(** Lines 292-319. *)
Definition dispatch (a : nat) (jobId : string) (req : request)
    (resolvedUploadUrl accessToken : value) : M unit :=
  if truthy (sync req)
  then try_catch
         (runUpload a jobId req resolvedUploadUrl accessToken;; respondWithJob a)
         (syncRejected a)
  else
    respond 202 (PAccepted jobId ("/job/" +:+ jobId));;
    try_catch (runUpload a jobId req resolvedUploadUrl accessToken)
              (backgroundRejected jobId).

Definition new_jobId (now : Z) : string :=
  "job_" +:+ show now +:+ "_" +:+ random_suffix w.

Definition post_upload (req : request) : M unit :=
  if negb (truthy (videoUrl req))
  then respond 400 (PFailure "Missing required field: videoUrl" None)
  else
    t ← resolveAccessToken req;
    match t with
    | None => mret ()
    | Some accessToken =>
        now ← Date_now;
        let jobId := new_jobId now in
        createdAt ← Date_now;
        a ← new_object (Job jobId pending createdAt None (videoUrl req)
                          (or_else (videoMetadata req) VNull) None None);
        jobs_set jobId a;;
        u ← resolveUploadUrl req accessToken;
        match u with
        | None => mret ()
        | Some resolvedUploadUrl => dispatch a jobId req resolvedUploadUrl accessToken
        end
    end.

End Program.

(** *** [GET /job/:id] (lines 134-140) *)

Definition get_job (m : store) (id : string) : response :=
  match JobMap.get id (jobs m) with
  | None => {| res_status := 404; res_json := PNotFound id |}
  | Some a => {| res_status := 200; res_json := PJob (heap m !!! a) |}
  end.

(** *** The registry sweep (lines 538-544) *)

Section Sort.
Context {A : Type} (cmp : A → A → Z).

Fixpoint insert_by (x : A) (l : list A) : list A :=
  match l with
  | [] => [x]
  | y :: rest => if 0 <? cmp x y then y :: insert_by x rest else x :: l
  end.

(** [Array.prototype.sort] with a comparator: a stable sort, here by
    insertion from the right. *)
Fixpoint Array_sort (l : list A) : list A :=
  match l with
  | [] => []
  | x :: rest => insert_by x (Array_sort rest)
  end.

End Sort.

Definition retained : Z := 100.

(** [new Date(a[1].createdAt) - new Date(b[1].createdAt)]. *)
Definition byCreatedAt (h : list job) (x y : string * nat) : Z :=
  j_createdAt (h !!! x.2) - j_createdAt (h !!! y.2).

Definition sweep (m : store) : store :=
  if retained <? JobMap.size (jobs m)
  then
    let entries := Array_sort (byCreatedAt (heap m)) (jobs m) in
    let toDelete := take (length entries - Z.to_nat retained) entries in
    Store (heap m) (foldl (λ js e, JobMap.delete e.1 js) (jobs m) toDelete)
          (storedRefreshToken m)
  else m.

(** * Properties *)

(** ** Reading the log *)

Definition delay_of (e : event) : option Z :=
  match e with EvIo (IoTimer ms) _ => Some ms | _ => None end.

(** The backoff delays waited, in order. *)
Definition delays (l : list event) : list Z := omap delay_of l.

(** The number of relay attempts started. *)
Definition attempts (l : list event) : nat := count is_transfer l.

Lemma count_app (p : event → bool) (l1 l2 : list event) :
  count p (l1 ++ l2) = (count p l1 + count p l2)%nat.
Proof. unfold count. by rewrite List.filter_app, length_app. Qed.

Lemma delays_app (l1 l2 : list event) : delays (l1 ++ l2) = delays l1 ++ delays l2.
Proof. apply omap_app. Qed.

(** ** The relay attempt and the retry controller *)

Section Retry.

Context (w : World) (d : descriptor).

Local Abbreviation transfer := (IoTransfer d).

Lemma attemptStreamUpload_run (s : state) :
  attemptStreamUpload w d s =
  (settle w d (relay w (attempts (log s))),
   State (mem s) (log s ++ [EvIo transfer (mem s)]) (ticks s)).
Proof. reflexivity. Qed.

Lemma on_put_response_not_undefined (p : Z) (data : string) :
  on_put_response w p data ≠ Throw TUndefined.
Proof.
  unfold on_put_response.
  destruct ((p =? 201) || (p =? 200)); [done|].
  by destruct (p =? 308).
Qed.

Lemma settle_not_undefined (net : attempt_net) : settle w d net ≠ Throw TUndefined.
Proof.
  unfold settle. destruct (src net) as [e|g]; [done|].
  destruct (400 <=? g); [done|].
  destruct (upload_request_throws w d); [done|].
  destruct (dst net) as [e|p data]; [done|].
  apply on_put_response_not_undefined.
Qed.

(** One iteration of the loop. *)
Lemma attempts_from_step (r : nat) (k : Z) (last : thrown) (s : state) :
  attempts_from w (S r) k last d s =
  let s1 := State (mem s) (log s ++ [EvIo transfer (mem s)]) (ticks s) in
  match settle w d (relay w (attempts (log s))) with
  | Ok res => (Ok res, s1)
  | Abort e => (Abort e, s1)
  | Throw TUndefined => (Throw (TypeError "statusCode"), s1)
  | Throw (TErr e) =>
      if negb (isRetryable e) || (k =? maxRetries) then (Throw (TErr e), s1)
      else attempts_from w r (k + 1) (TErr e) d
             (State (mem s)
                ((log s ++ [EvIo transfer (mem s)])
                   ++ [EvConsole (Warn ("Upload attempt " +:+ show k
                         +:+ " failed, retrying in " +:+ show (backoff k) +:+ "ms: "
                         +:+ message e))]
                   ++ [EvIo (IoTimer (backoff k)) (mem s)])
                (ticks s))
  end.
Proof.
  cbn [attempts_from]. unfold try_catch. rewrite attemptStreamUpload_run.
  destruct (settle w d (relay w (attempts (log s)))) as [res|[e|]|e]; try reflexivity.
  destruct (negb (isRetryable e) || (k =? maxRetries)); [reflexivity|].
  unfold mbind, M_bind, emit, suspend. cbn [mem log ticks].
  by rewrite <- (app_assoc _ [_] [_]).
Qed.

End Retry.

(** ** Computations that leave the store alone *)

(** An event that writes nothing: a suspension during which the store is
    [m], an answer to the caller, or a console line. *)
Definition passive (m : store) (e : event) : Prop :=
  match e with
  | EvIo _ seen => seen = m
  | EvRespond _ | EvConsole _ => True
  | EvNew _ | EvSet _ _ => False
  end.

(** [tame ok c]: from any state, [c] keeps the store, appends to the log
    only passive events satisfying [ok], and never throws [undefined]. *)
Definition tame {A : Type} (ok : event → Prop) (c : M A) : Prop :=
  ∀ s, ∃ evs t,
    (c s).2 = State (mem s) (log s ++ evs) t ∧
    Forall (λ e, passive (mem s) e ∧ ok e) evs ∧
    (c s).1 ≠ Throw TUndefined.

Section Tame.

Context {A B : Type} (ok : event → Prop).

Lemma tame_silent (c : M A) :
  (∀ s, ∃ t, (c s).2 = State (mem s) (log s) t) →
  (∀ s, (c s).1 ≠ Throw TUndefined) →
  tame ok c.
Proof.
  intros Hs Ho s. destruct (Hs s) as [t Ht]. exists [], t.
  rewrite app_nil_r. split_and!; [done|constructor|apply Ho].
Qed.

Lemma tame_ret (a : A) : tame ok (mret a : M A).
Proof. apply tame_silent; intros s; [by exists (ticks s); destruct s|done]. Qed.

Lemma tame_throw (e : js_error) : tame ok (throw (TErr e) : M A).
Proof. apply tame_silent; intros s; [by exists (ticks s); destruct s|done]. Qed.

Lemma tame_settled (o : outcome A) : o ≠ Throw TUndefined → tame ok (settled o).
Proof. intros Ho. apply tame_silent; intros s; [by exists (ticks s); destruct s|done]. Qed.

Lemma tame_bind (c : M A) (f : A → M B) :
  tame ok c → (∀ a, tame ok (f a)) → tame ok (c ≫= f).
Proof.
  intros Hc Hf s. unfold mbind, M_bind.
  destruct (Hc s) as (evs1 & t1 & Hs1 & Hev1 & Ho1).
  destruct (c s) as [[a|e|e] s1]; cbn in *; subst s1.
  - destruct (Hf a (State (mem s) (log s ++ evs1) t1)) as (evs2 & t2 & Hs2 & Hev2 & Ho2).
    cbn in *. exists (evs1 ++ evs2), t2. rewrite app_assoc.
    split_and!; [done|by apply Forall_app|done].
  - exists evs1, t1. split_and!; [done|done|]. intros [= ->]. by apply Ho1.
  - by exists evs1, t1.
Qed.

Lemma tame_try_catch (c : M A) (h : thrown → M A) :
  tame ok c → (∀ e, tame ok (h (TErr e))) → tame ok (try_catch c h).
Proof.
  intros Hc Hh s. unfold try_catch.
  destruct (Hc s) as (evs1 & t1 & Hs1 & Hev1 & Ho1).
  destruct (c s) as [[a|[e|]|e'] s1]; cbn in *; subst s1;
    [by exists evs1, t1| |done|by exists evs1, t1].
  destruct (Hh e (State (mem s) (log s ++ evs1) t1)) as (evs2 & t2 & Hs2 & Hev2 & Ho2).
  cbn in *. exists (evs1 ++ evs2), t2. rewrite app_assoc.
  split_and!; [done|by apply Forall_app|done].
Qed.

Lemma tame_bind_ret (a : A) (f : A → M B) : tame ok (f a) → tame ok (mret a ≫= f).
Proof. done. Qed.

Lemma tame_weaken (ok' : event → Prop) (c : M A) :
  (∀ e, ok' e → ok e) → tame ok' c → tame ok c.
Proof.
  intros Hw Hc s. destruct (Hc s) as (evs & t & Hs & Hev & Ho).
  exists evs, t. split_and!; [done| |done].
  eapply Forall_impl; [exact Hev|]. intros e [? ?]. auto.
Qed.

End Tame.

Lemma tame_emit (ok : event → Prop) (e : event) :
  (∀ m, passive m e) → ok e → tame ok (emit e).
Proof.
  intros Hp Hok s. exists [e], (ticks s). split_and!; [done| |done].
  by repeat constructor.
Qed.

Lemma tame_respond (ok : event → Prop) (status : Z) (p : payload) :
  ok (EvRespond {| res_status := status; res_json := p |}) → tame ok (respond status p).
Proof. intros. by apply tame_emit. Qed.

Lemma tame_suspend (ok : event → Prop) (op : io) :
  (∀ m, ok (EvIo op m)) → tame ok (suspend op).
Proof.
  intros Hok s. exists [EvIo op (mem s)], (ticks s). split_and!; [done| |done].
  by repeat constructor.
Qed.

Lemma tame_prop_message (ok : event → Prop) (e : js_error) : tame ok (prop_message (TErr e)).
Proof. apply tame_ret. Qed.

Lemma tame_prop_code (ok : event → Prop) (e : js_error) : tame ok (prop_code (TErr e)).
Proof. apply tame_ret. Qed.

Lemma tame_probes_so_far (ok : event → Prop) : tame ok probes_so_far.
Proof. apply tame_silent; intros s; [by exists (ticks s); destruct s|done]. Qed.

Lemma tame_transfers_so_far (ok : event → Prop) : tame ok transfers_so_far.
Proof. apply tame_silent; intros s; [by exists (ticks s); destruct s|done]. Qed.

Lemma tame_get_storedRefreshToken (ok : event → Prop) : tame ok get_storedRefreshToken.
Proof. apply tame_silent; intros s; [by exists (ticks s); destruct s|done]. Qed.

Lemma tame_read (ok : event → Prop) (a : nat) : tame ok (read a).
Proof. apply tame_silent; intros s; [by exists (ticks s); destruct s|done]. Qed.

Lemma tame_Date_now (ok : event → Prop) (w : World) : tame ok (Date_now w).
Proof. apply tame_silent; intros s; [by exists (S (ticks s))|done]. Qed.

(** Solves [tame] goals over the program's own control structure; what
    is left are the conditions on the events. *)
Ltac tame_step :=
  match goal with
  | |- tame _ (mret _ ≫= _) => apply tame_bind_ret; cbn beta iota
  | |- tame _ (_ ≫= _) => apply tame_bind; [|intros ?]
  | |- tame _ (try_catch _ _) => apply tame_try_catch; [|intros ?]
  | |- tame _ (mret _) => apply tame_ret
  | |- tame _ (throw (TErr _)) => apply tame_throw
  | |- tame _ (throw (TypeError _)) => apply tame_throw
  | |- tame _ (respond _ _) => apply tame_respond
  | |- tame _ (emit _) => apply tame_emit; [by intros ?|]
  | |- tame _ (suspend _) => apply tame_suspend; intros ?
  | |- tame _ (prop_message (TErr _)) => apply tame_prop_message
  | |- tame _ (prop_code (TErr _)) => apply tame_prop_code
  | |- tame _ probes_so_far => apply tame_probes_so_far
  | |- tame _ transfers_so_far => apply tame_transfers_so_far
  | |- tame _ get_storedRefreshToken => apply tame_get_storedRefreshToken
  | |- tame _ (read _) => apply tame_read
  | |- tame _ (Date_now _) => apply tame_Date_now
  | |- tame _ (if ?b then _ else _) => destruct b eqn:?
  | |- tame _ (match ?x with _ => _ end) => destruct x eqn:?
  end.

Ltac tame_auto := repeat tame_step.

(** The event classes of the remote calls. *)
Definition token_event (e : event) : Prop :=
  match e with EvIo (IoToken _ _ _) _ => True | _ => False end.

Definition head_event (url : value) (e : event) : Prop :=
  match e with EvIo (IoHead u) _ => u = url | _ => False end.

Definition session_event (size : value) (e : event) : Prop :=
  match e with EvIo (IoSession _ _ _ n) _ => n = size | _ => False end.

Definition relay_event (size : value) (e : event) : Prop :=
  match e with
  | EvIo (IoTransfer d) _ => d_contentLength d = size
  | EvIo (IoTimer _) _ => True
  | EvConsole (Warn _) => True
  | _ => False
  end.

Section TameProgram.

Context (w : World).

Lemma tame_getAccessTokenFromRefresh (a b c : value) :
  tame token_event (getAccessTokenFromRefresh w a b c).
Proof. unfold getAccessTokenFromRefresh. tame_auto; done. Qed.

Lemma tame_getContentLength (url : value) :
  tame (head_event url) (getContentLength w url).
Proof.
  unfold getContentLength. tame_auto; try done.
  apply tame_settled. unfold length_of. by repeat case_match.
Qed.

Lemma tame_createResumableSession (tok md ct size : value) :
  tame (session_event size) (createResumableSession w tok md ct size).
Proof. unfold createResumableSession. tame_auto; done. Qed.

Lemma tame_attemptStreamUpload (d : descriptor) :
  tame (relay_event (d_contentLength d)) (attemptStreamUpload w d).
Proof.
  unfold attemptStreamUpload. tame_auto; try done.
  apply tame_settled, settle_not_undefined.
Qed.

Lemma tame_attempts_from (r : nat) (k : Z) (e : js_error) (d : descriptor) :
  tame (relay_event (d_contentLength d)) (attempts_from w r k (TErr e) d).
Proof.
  revert k e. induction r as [|r IH]; intros k e; cbn [attempts_from].
  - apply tame_throw.
  - apply tame_try_catch; [apply tame_attemptStreamUpload|].
    intros e'. tame_auto; done.
Qed.

Lemma tame_streamVideoToYouTube (d : descriptor) :
  tame (relay_event (d_contentLength d)) (streamVideoToYouTube w d).
Proof.
  unfold streamVideoToYouTube. change (Z.to_nat maxRetries) with (S 2).
  generalize 2%nat as r. intros r. cbn [attempts_from].
  apply tame_try_catch; [apply tame_attemptStreamUpload|].
  intros e'. tame_auto; first [done | apply tame_attempts_from].
Qed.

End TameProgram.

(** ** The retry controller, attempt by attempt *)

Definition op_of (e : event) : option io :=
  match e with EvIo op _ => Some op | _ => None end.

(** The suspensions of a run, in order. *)
Definition io_ops (l : list event) : list io := omap op_of l.

Definition timer_of (op : io) : option Z :=
  match op with IoTimer ms => Some ms | _ => None end.

Lemma delays_io_ops (l : list event) : delays l = omap timer_of (io_ops l).
Proof.
  unfold delays, io_ops. induction l as [|e l IH]; [done|].
  destruct e as [[]| | | |]; cbn; by rewrite ?IH.
Qed.

Lemma io_ops_app (l1 l2 : list event) : io_ops (l1 ++ l2) = io_ops l1 ++ io_ops l2.
Proof. apply omap_app. Qed.

Definition retryable_failure (o : outcome upload_result) : Prop :=
  ∃ e, o = Throw (TErr e) ∧ isRetryable e = true.

(** The upload request of an attempt over [d] can be built. *)
Definition uploadable (w : World) (d : descriptor) : Prop :=
  upload_request_throws w d = None.

(** The destination answers an attempt over [d] with [status] and [data]:
    the source has answered below 400 and the upload request was built. *)
Definition answers (w : World) (d : descriptor) (net : attempt_net)
    (status : Z) (data : string) : Prop :=
  uploadable w d
  ∧ ∃ g, src net = SrcResponse g ∧ g < 400 ∧ dst net = DstResponse status data.

Section RetryController.

Context (w : World) (d : descriptor).

Local Abbreviation stream := (streamVideoToYouTube w d).
Local Abbreviation transfer := (IoTransfer d).

(** The outcome of the [i]-th attempt of a run started in [s], [i] from 1. *)
Definition outcome_of (s : state) (i : nat) : outcome upload_result :=
  settle w d (relay w (attempts (log s) + i - 1)).

(** [n] attempts, each but the last followed by its backoff delay. *)
Definition schedule (n : nat) : list io :=
  flat_map (λ i, [transfer; IoTimer (Z.min (1000 * 2 ^ Z.of_nat i) 10000)]) (seq 1 (n - 1))
  ++ [transfer].

Lemma attempts_snoc_transfer (l : list event) (m : store) :
  attempts (l ++ [EvIo transfer m]) = S (attempts l).
Proof. unfold attempts. rewrite count_app. cbn. lia. Qed.

Lemma attempts_backoff (l : list event) (c : console) (ms : Z) (m : store) :
  attempts (l ++ [EvConsole c] ++ [EvIo (IoTimer ms) m]) = attempts l.
Proof. unfold attempts. rewrite count_app. cbn. lia. Qed.

Local Ltac which_attempt :=
  let i := fresh "i" in
  intros i ?; destruct i as [|[|[|i]]]; try lia;
  (split;
   [ intros ?; split_and!; try lia; unfold retryable_failure; eauto
   | intros (? & (? & ? & ?) & ?); try lia; congruence ]).

Lemma retry_runs (s : state) :
  ∃ (n : nat) (evs : list event),
    (stream s).2 = State (mem s) (log s ++ evs) (ticks s) ∧
    attempts evs = n ∧ (1 ≤ n ≤ 3)%nat ∧
    (∀ i : nat, (1 ≤ i)%nat →
       (i + 1 ≤ n)%nat ↔
       (i ≤ n)%nat ∧ retryable_failure (outcome_of s i) ∧ (i < 3)%nat) ∧
    (stream s).1 = outcome_of s n ∧
    io_ops evs = schedule n.
Proof.
  unfold streamVideoToYouTube. change (Z.to_nat maxRetries) with 3%nat.
  assert (H1 : outcome_of s 1 = settle w d (relay w (attempts (log s)))).
  { unfold outcome_of. f_equal. f_equal. lia. }
  assert (H2 : outcome_of s 2 = settle w d (relay w (S (attempts (log s))))).
  { unfold outcome_of. f_equal. f_equal. lia. }
  assert (H3 : outcome_of s 3 = settle w d (relay w (S (S (attempts (log s)))))).
  { unfold outcome_of. f_equal. f_equal. lia. }
  rewrite attempts_from_step. cbn zeta. rewrite <- H1.
  destruct (outcome_of s 1) as [res1|[e1|]|a1] eqn:E1;
    [| |by destruct (settle_not_undefined w d _ (eq_sym H1))|].
  1, 3: exists 1%nat, [EvIo transfer (mem s)]; cbn [fst snd]; rewrite E1;
    (split_and!; try done; try lia; which_attempt).
  destruct (isRetryable e1) eqn:R1; cbn [negb orb]; last first.
  { exists 1%nat, [EvIo transfer (mem s)]. cbn [fst snd]. rewrite E1.
    split_and!; try done; try lia; which_attempt. }
  change (1 =? maxRetries) with false. cbn iota.
  rewrite attempts_from_step. cbn zeta. cbn [log mem ticks].
  rewrite attempts_backoff, attempts_snoc_transfer, <- H2.
  destruct (outcome_of s 2) as [res2|[e2|]|a2] eqn:E2;
    [| |by destruct (settle_not_undefined w d _ (eq_sym H2))|].
  1, 3: eexists 2%nat, (_ :: _ :: _ :: [_]); cbn [fst snd]; rewrite E2, <- !app_assoc;
    (split_and!; try done; try lia; which_attempt).
  destruct (isRetryable e2) eqn:R2; cbn [negb orb]; last first.
  { eexists 2%nat, (_ :: _ :: _ :: [_]). cbn [fst snd]. rewrite E2, <- !app_assoc.
    split_and!; try done; try lia; which_attempt. }
  change (1 + 1 =? maxRetries) with false. cbn iota.
  rewrite attempts_from_step. cbn zeta. cbn [log mem ticks].
  rewrite attempts_backoff, attempts_snoc_transfer, attempts_backoff,
    attempts_snoc_transfer, <- H3.
  change (1 + 1 + 1 =? maxRetries) with true.
  destruct (outcome_of s 3) as [res3|[e3|]|a3] eqn:E3;
    [| |by destruct (settle_not_undefined w d _ (eq_sym H3))|];
    rewrite ?orb_true_r.
  all: eexists 3%nat, (_ :: _ :: _ :: _ :: _ :: _ :: [_]); cbn [fst snd];
    rewrite E3, <- !app_assoc;
    (split_and!; try done; try lia; which_attempt).
Qed.

End RetryController.

(** ** The background task, run to the end *)

Section Task.

Context (w : World) (a : nat) (jobId : string) (req : request).
Context (resolvedUploadUrl accessToken : value).

Local Abbreviation task := (runUpload w a jobId req resolvedUploadUrl accessToken).
Local Abbreviation transfer_of := (descriptor_of req resolvedUploadUrl accessToken).

Definition completed_block : list event :=
  [EvSet a (FStatus completed); EvSet a FCompletedAt; EvSet a FResult].

Definition failed_block : list event :=
  [EvSet a (FStatus failed); EvSet a FCompletedAt; EvSet a FError;
   EvConsole (UploadFailed jobId)].

Definition completed_with (t : Z) (res : upload_result) (m : store) : store :=
  update a (set_result res) (update a (set_completedAt t) (update a (set_status completed) m)).

Definition failed_with (t : Z) (e : js_error) (m : store) : store :=
  update a (set_error {| e_message := message e; e_code := code e |})
    (update a (set_completedAt t) (update a (set_status failed) m)).

Local Abbreviation size_step := (resolveContentLength w req).

(** The [catch] clause of lines 281-289, from state [s]. *)
Definition on_failure (err : thrown) (s : state) : outcome unit * state :=
  match err with
  | TErr e =>
      (Ok (), State (failed_with (clock w (ticks s)) e (mem s))
                    (log s ++ failed_block) (S (ticks s)))
  | TUndefined =>
      (Throw (TypeError "message"),
       State (update a (set_completedAt (clock w (ticks s)))
                (update a (set_status failed) (mem s)))
             (log s ++ [EvSet a (FStatus failed); EvSet a FCompletedAt]) (S (ticks s)))
  end.

Lemma runUpload_unfold (s : state) :
  task s =
  let s0 := State (update a (set_status downloading) (mem s))
                  (log s ++ [EvSet a (FStatus downloading)]) (ticks s) in
  match size_step s0 with
  | (Throw err, s1) => on_failure err s1
  | (Abort e, s1) => (Abort e, s1)
  | (Ok len, s1) =>
      let s2 := State (update a (set_status uploading) (mem s1))
                      (log s1 ++ [EvSet a (FStatus uploading)]) (ticks s1) in
      match streamVideoToYouTube w (transfer_of len) s2 with
      | (Ok res, s3) =>
          (Ok (), State (completed_with (clock w (ticks s3)) res (mem s3))
                        (log s3 ++ completed_block) (S (ticks s3)))
      | (Throw err, s3) => on_failure err s3
      | (Abort e, s3) => (Abort e, s3)
      end
  end.
Proof.
  unfold runUpload, try_catch, mbind, M_bind, assign. cbn [mem log ticks].
  destruct (size_step _) as [[len|[e|]|e] s1]; cbn [on_failure mem log ticks].
  - destruct (streamVideoToYouTube _ _ _) as [[res|[e|]|e] s3];
      unfold Date_now, emit, failed_with, completed_with, failed_block, completed_block;
      cbn; by rewrite <- ?app_assoc.
  - unfold Date_now, emit, failed_with, failed_block. cbn. by rewrite <- ?app_assoc.
  - unfold Date_now, emit. cbn. by rewrite <- ?app_assoc.
  - done.
Qed.

(** What a run of the task returns, appends to the log and makes of the
    store [m]: [p1] is the probe, if any, and [p2] the relay. *)
Inductive task_trace (m : store) : outcome unit → list event → store → Prop :=
| trace_no_size (p1 : list event) (t : Z) (e : js_error) (k : nat) :
    let m0 := update a (set_status downloading) m in
    nullish (contentLength req) = true →
    length_of (source_head w k (videoUrl req)) = Throw (TErr e) →
    Forall (λ ev, passive m0 ev ∧ head_event (videoUrl req) ev) p1 →
    task_trace m (Ok ()) ([EvSet a (FStatus downloading)] ++ p1 ++ failed_block)
               (failed_with t e m0)
| trace_completed (p1 p2 : list event) (len : value) (t : Z) (res : upload_result)
    (k : nat) :
    let m0 := update a (set_status downloading) m in
    let m1 := update a (set_status uploading) m0 in
    settle w (transfer_of len) (relay w k) = Ok res →
    Forall (λ ev, passive m0 ev ∧ head_event (videoUrl req) ev) p1 →
    (if nullish (contentLength req)
     then ∃ k, length_of (source_head w k (videoUrl req)) = Ok len
     else p1 = [] ∧ len = contentLength req) →
    Forall (λ ev, passive m1 ev ∧ relay_event len ev) p2 →
    task_trace m (Ok ())
               ([EvSet a (FStatus downloading)] ++ p1
                  ++ [EvSet a (FStatus uploading)] ++ p2 ++ completed_block)
               (completed_with t res m1)
| trace_relay_failed (p1 p2 : list event) (len : value) (t : Z) (e : js_error)
    (k : nat) :
    let m0 := update a (set_status downloading) m in
    let m1 := update a (set_status uploading) m0 in
    settle w (transfer_of len) (relay w k) = Throw (TErr e) →
    Forall (λ ev, passive m0 ev ∧ head_event (videoUrl req) ev) p1 →
    (if nullish (contentLength req)
     then ∃ k, length_of (source_head w k (videoUrl req)) = Ok len
     else p1 = [] ∧ len = contentLength req) →
    Forall (λ ev, passive m1 ev ∧ relay_event len ev) p2 →
    task_trace m (Ok ())
               ([EvSet a (FStatus downloading)] ++ p1
                  ++ [EvSet a (FStatus uploading)] ++ p2 ++ failed_block)
               (failed_with t e m1)
| trace_aborted (p1 p2 : list event) (len : value) (e : js_error) (k : nat) :
    let m0 := update a (set_status downloading) m in
    let m1 := update a (set_status uploading) m0 in
    settle w (transfer_of len) (relay w k) = Abort e →
    Forall (λ ev, passive m0 ev ∧ head_event (videoUrl req) ev) p1 →
    (if nullish (contentLength req)
     then ∃ k, length_of (source_head w k (videoUrl req)) = Ok len
     else p1 = [] ∧ len = contentLength req) →
    Forall (λ ev, passive m1 ev ∧ relay_event len ev) p2 →
    task_trace m (Abort e)
               ([EvSet a (FStatus downloading)] ++ p1
                  ++ [EvSet a (FStatus uploading)] ++ p2)
               m1.

Lemma getContentLength_run (url : value) (s : state) :
  getContentLength w url s =
  (length_of (source_head w (count is_head (log s)) url),
   State (mem s) (log s ++ [EvIo (IoHead url) (mem s)]) (ticks s)).
Proof. reflexivity. Qed.

Lemma size_step_runs (s : state) :
  ∃ p1 t,
    (size_step s).2 = State (mem s) (log s ++ p1) t ∧
    Forall (λ ev, passive (mem s) ev ∧ head_event (videoUrl req) ev) p1 ∧
    (size_step s).1 ≠ Throw TUndefined ∧
    (∀ e, (size_step s).1 ≠ Abort e) ∧
    (if nullish (contentLength req)
     then ∃ k, (size_step s).1 = length_of (source_head w k (videoUrl req))
     else p1 = [] ∧ (size_step s).1 = Ok (contentLength req)).
Proof.
  unfold resolveContentLength. destruct (nullish (contentLength req)) eqn:Hn.
  - destruct (tame_getContentLength w (videoUrl req) s) as (p1 & t & Hs & Hp & Ho).
    exists p1, t. rewrite getContentLength_run in *. cbn [fst] in *.
    split_and!; try done; [|eauto].
    unfold length_of. intros e. by repeat case_match.
  - exists [], (ticks s). cbn. rewrite app_nil_r. destruct s. split_and!; done.
Qed.

(** The task runs to its end, or until an attempt's callback throws. *)
Lemma runUpload_runs (s : state) :
  ∃ o evs m' t',
    task s = (o, State m' (log s ++ evs) t') ∧ task_trace (mem s) o evs m'.
Proof.
  rewrite runUpload_unfold. cbn zeta.
  destruct (size_step_runs (State (update a (set_status downloading) (mem s))
              (log s ++ [EvSet a (FStatus downloading)]) (ticks s)))
    as (p1 & t1 & Hs1 & Hp1 & Ho1 & Ha1 & Hsize).
  destruct (size_step _) as [[len|[e|]|e] s1]; cbn [fst snd mem log ticks] in *;
    subst s1; [| |done|by destruct (Ha1 e)].
  - cbn [mem log ticks].
    assert (Hlen : if nullish (contentLength req)
                   then ∃ k, length_of (source_head w k (videoUrl req)) = Ok len
                   else p1 = [] ∧ len = contentLength req).
    { destruct (nullish (contentLength req)).
      - destruct Hsize as [k Hk]. by exists k.
      - by destruct Hsize as [-> [= ->]]. }
    remember (State (update a (set_status uploading)
                       (update a (set_status downloading) (mem s)))
                ((log s ++ [EvSet a (FStatus downloading)]) ++ p1
                   ++ [EvSet a (FStatus uploading)]) t1) as s2 eqn:Es2.
    rewrite <- app_assoc, <- Es2.
    destruct (tame_streamVideoToYouTube w (transfer_of len) s2)
      as (p2 & t2 & Hs2 & Hp2 & Ho2).
    destruct (retry_runs w (transfer_of len) s2) as (n & _ & _ & _ & _ & _ & Hout & _).
    unfold outcome_of in Hout.
    destruct (streamVideoToYouTube _ _ _) as [[res|[e|]|e] s3];
      cbn [fst snd] in *; subst s3 s2; [| |done|];
      cbn [on_failure mem log ticks] in *; rewrite <- !app_assoc.
    + eexists _, _, _, _. split; [reflexivity|].
      by eapply trace_completed with (len := len).
    + eexists _, _, _, _. split; [reflexivity|].
      by eapply trace_relay_failed with (len := len).
    + eexists _, _, _, _. split; [reflexivity|].
      by eapply trace_aborted with (len := len).
  - cbn [on_failure mem log ticks]. rewrite <- !app_assoc.
    eexists _, _, _, _. split; [reflexivity|].
    destruct (nullish (contentLength req)) eqn:Hn; [|by destruct Hsize].
    destruct Hsize as [k Hk]. by apply trace_no_size with (k := k).
Qed.

End Task.

(** ** A whole request *)

(** An error answer. *)
Definition failure_response (e : event) : Prop :=
  match e with
  | EvRespond r =>
      400 ≤ res_status r ∧ match res_json r with PFailure _ _ => True | _ => False end
  | _ => False
  end.

Definition auth_event (e : event) : Prop := token_event e ∨ failure_response e.

Definition negotiation_event (req : request) (e : event) : Prop :=
  (nullish (contentLength req) = true ∧ head_event (videoUrl req) e)
  ∨ (∃ size, session_event size e
             ∧ (nullish (contentLength req) = false → size = contentLength req))
  ∨ failure_response e.

Section Request.

Context (w : World) (req : request).

Lemma tame_resolveAccessToken : tame auth_event (resolveAccessToken w req).
Proof.
  unfold resolveAccessToken, tokenFromBodyRefresh, tokenFromStoredRefresh.
  tame_auto;
    try (apply (tame_weaken _ token_event);
         [by left|apply tame_getAccessTokenFromRefresh]);
    by right.
Qed.

Lemma tame_resolveUploadUrl (accessToken : value) :
  tame (negotiation_event req) (resolveUploadUrl w req accessToken).
Proof.
  unfold resolveUploadUrl. destruct (nullish (contentLength req)) eqn:Hn.
  all: tame_auto;
    try (apply (tame_weaken _ (head_event (videoUrl req)));
         [by left|apply tame_getContentLength]);
    try (eapply tame_weaken; [|apply tame_createResumableSession]);
    try by (right; right).
  all: intros e He; right; left; eexists; split; [exact He|]; congruence.
Qed.

(** The store once the job object exists and the Map holds it. *)
Definition created (m : store) (jobId : string) (createdAt : Z) : store :=
  Store (heap m ++ [Job jobId pending createdAt None (videoUrl req)
                        (or_else (videoMetadata req) VNull) None None])
        (JobMap.set jobId (length (heap m)) (jobs m))
        (storedRefreshToken m).

(** The answer of the synchronous mode, from the final store. *)
Definition final_response (a : nat) (m : store) : event :=
  EvRespond {| res_status := if decide (j_status (heap m !!! a) = completed)
                             then 201 else 500;
               res_json := PJob (heap m !!! a) |}.

(** What the synchronous mode answers once the task has returned [o]:
    nothing when the task never settles. *)
Definition answer_after (o : outcome unit) (a : nat) (m : store) : list event :=
  match o with Ok _ => [final_response a m] | _ => [] end.

(** What one request appends to the log and makes of the store [m]: [p0]
    up to the credential, [p1] the negotiation, [evs] the task. *)
Inductive request_trace (m : store) : list event → store → Prop :=
| request_rejected (p0 : list event) :
    Forall (λ e, passive m e ∧ auth_event e) p0 →
    request_trace m p0 m
| request_orphaned (p0 p1 : list event) (now createdAt : Z) :
    let a := length (heap m) in
    let m1 := created m (new_jobId w now) createdAt in
    Forall (λ e, passive m e ∧ auth_event e) p0 →
    Forall (λ e, passive m1 e ∧ negotiation_event req e) p1 →
    request_trace m (p0 ++ [EvNew a] ++ p1) m1
| request_async (p0 p1 evs : list event) (now createdAt : Z) (m' : store)
    (u tok : value) (o : outcome unit) :
    let a := length (heap m) in
    let jobId := new_jobId w now in
    let m1 := created m jobId createdAt in
    Forall (λ e, passive m e ∧ auth_event e) p0 →
    Forall (λ e, passive m1 e ∧ negotiation_event req e) p1 →
    truthy (sync req) = false →
    task_trace w a jobId req u tok m1 o evs m' →
    request_trace m
      (p0 ++ [EvNew a] ++ p1
          ++ [EvRespond {| res_status := 202;
                           res_json := PAccepted jobId ("/job/" +:+ jobId) |}]
          ++ evs) m'
| request_sync (p0 p1 evs : list event) (now createdAt : Z) (m' : store)
    (u tok : value) (o : outcome unit) :
    let a := length (heap m) in
    let jobId := new_jobId w now in
    let m1 := created m jobId createdAt in
    Forall (λ e, passive m e ∧ auth_event e) p0 →
    Forall (λ e, passive m1 e ∧ negotiation_event req e) p1 →
    truthy (sync req) = true →
    task_trace w a jobId req u tok m1 o evs m' →
    request_trace m (p0 ++ [EvNew a] ++ p1 ++ evs ++ answer_after o a m') m'.

Lemma task_trace_settles (a : nat) (jobId : string) (u tok : value) (m : store)
    (o : outcome unit) (evs : list event) (m' : store) :
  task_trace w a jobId req u tok m o evs m' → o = Ok () ∨ ∃ e, o = Abort e.
Proof. intros []; eauto. Qed.

Lemma dispatch_runs (a : nat) (jobId : string) (u tok : value) (s : state) :
  ∃ o evs m' t',
    task_trace w a jobId req u tok (mem s) o evs m' ∧
    dispatch w a jobId req u tok s =
    (o,
     State m'
       (if truthy (sync req)
        then log s ++ evs ++ answer_after o a m'
        else log s ++ [EvRespond {| res_status := 202;
                                    res_json := PAccepted jobId ("/job/" +:+ jobId) |}]
                   ++ evs)
       t').
Proof.
  unfold dispatch. destruct (truthy (sync req)).
  - destruct (runUpload_runs w a jobId req u tok s) as (o & evs & m' & t' & Hrun & Htr).
    exists o, evs, m', t'. split; [done|].
    unfold try_catch, mbind, M_bind. rewrite Hrun.
    destruct (task_trace_settles _ _ _ _ _ _ _ _ Htr) as [->|[e ->]];
      [|cbn [answer_after]; by rewrite app_nil_r].
    unfold respondWithJob, mbind, M_bind, read, respond, emit, answer_after, final_response.
    cbn [mem log ticks]. destruct (decide _); cbn [mem log ticks]; by rewrite <- app_assoc.
  - unfold mbind, M_bind, respond, emit, try_catch. cbn [mem log ticks].
    destruct (runUpload_runs w a jobId req u tok
                (State (mem s)
                   (log s ++ [EvRespond {| res_status := 202;
                        res_json := PAccepted jobId ("/job/" +:+ jobId) |}]) (ticks s)))
      as (o & evs & m' & t' & Hrun & Htr).
    exists o, evs, m', t'. split; [done|]. rewrite Hrun. cbn [log].
    destruct (task_trace_settles _ _ _ _ _ _ _ _ Htr) as [->|[e ->]];
      by rewrite <- app_assoc.
Qed.

Lemma post_upload_runs (s : state) :
  ∃ o evs m' t',
    post_upload w req s = (o, State m' (log s ++ evs) t') ∧
    request_trace (mem s) evs m'.
Proof.
  unfold post_upload. destruct (negb (truthy (videoUrl req))).
  { eexists _, [_], _, _. split; [reflexivity|].
    apply request_rejected. constructor; [|constructor].
    split; [done|]. right. cbn. split; [lia|done]. }
  unfold mbind at 1. unfold M_bind at 1.
  destruct (tame_resolveAccessToken s) as (p0 & t0 & Hs0 & Hp0 & _).
  destruct (resolveAccessToken w req s) as [[[tok|]|e|e] s0]; cbn [fst snd] in *; subst s0.
  2-4: eexists _, p0, _, _; split; [reflexivity|]; by apply request_rejected.
  unfold mbind, M_bind, Date_now, new_object, jobs_set.
  cbn [mem log ticks heap jobs storedRefreshToken].
  set (jobId := new_jobId w (clock w t0)).
  set (m1 := Store _ _ _).
  destruct (tame_resolveUploadUrl tok (State m1 ((log s ++ p0) ++ [EvNew (length (heap (mem s)))]) (S (S t0))))
    as (p1 & t1 & Hs1 & Hp1 & _).
  cbn [mem log ticks] in *.
  destruct (resolveUploadUrl w req tok _) as [[[u|]|e|e] s1]; cbn [fst snd] in *; subst s1.
  2-4: eexists _, (p0 ++ [EvNew _] ++ p1), _, _; split;
       [by rewrite <- !app_assoc|];
       by apply (request_orphaned _ _ _ (clock w t0) (clock w (S t0))).
  destruct (dispatch_runs (length (heap (mem s))) jobId u tok
              (State m1 (((log s ++ p0) ++ [EvNew (length (heap (mem s)))]) ++ p1) t1))
    as (o & evs & m' & t' & Htr & ->).
  cbn [mem log ticks] in *.
  destruct (truthy (sync req)) eqn:Hsync.
  - eexists _, (p0 ++ [EvNew _] ++ p1 ++ evs ++ answer_after o _ m'), _, _. split;
      [by rewrite <- !app_assoc|].
    by apply (request_sync _ _ _ _ (clock w t0) (clock w (S t0)) _ u tok).
  - eexists _, (p0 ++ [EvNew _] ++ p1 ++ [_] ++ evs), _, _. split;
      [by rewrite <- !app_assoc|].
    by apply (request_async _ _ _ _ (clock w t0) (clock w (S t0)) _ u tok o).
Qed.

End Request.

(** ** The life of a job, read off the log *)

(** The status an event gives the object at [a]: the object literal sets
    [pending]. *)
Definition status_written (a : nat) (e : event) : option Status :=
  match e with
  | EvNew b => if decide (b = a) then Some pending else None
  | EvSet b (FStatus x) => if decide (b = a) then Some x else None
  | _ => None
  end.

(** The statuses the object at [a] takes, in order. *)
Definition status_history (a : nat) (l : list event) : list Status :=
  omap (status_written a) l.

Definition view_of (e : event) : option store :=
  match e with EvIo _ seen => Some seen | _ => None end.

(** The stores a poll can observe while the request is suspended. *)
Definition views (l : list event) : list store := omap view_of l.

Definition same_field (f g : field) : bool :=
  match f, g with
  | FStatus x, FStatus y => bool_decide (x = y)
  | FCompletedAt, FCompletedAt | FResult, FResult | FError, FError => true
  | _, _ => false
  end.

Definition is_write (a : nat) (f : field) (e : event) : bool :=
  match e with
  | EvSet b g => bool_decide (b = a) && same_field f g
  | _ => false
  end.

(** How many times [job.f] is assigned on the object at [a]. *)
Definition writes (a : nat) (f : field) (l : list event) : nat := count (is_write a f) l.

Definition terminal (x : Status) : bool :=
  match x with completed | failed => true | _ => false end.

(** The transition graph of section 4.6. *)
Inductive transition : Status → Status → Prop :=
| to_downloading : transition pending downloading
| to_uploading : transition downloading uploading
| to_completed : transition uploading completed
| to_failed (x : Status) : terminal x = false → transition x failed.

Global Instance transition_dec (x y : Status) : Decision (transition x y).
Proof.
  destruct x, y;
    first [ left; by constructor | right; intros H; inversion H; done ].
Defined.

(** Every step of a history is a transition. *)
Fixpoint forward (h : list Status) : Prop :=
  match h with
  | x :: (y :: _) as rest => transition x y ∧ forward rest
  | _ => True
  end.

Global Instance forward_dec (h : list Status) : Decision (forward h).
Proof.
  induction h as [|x [|y h] IH]; cbn [forward]; [left; done|left; done|].
  apply and_dec; [apply _|exact IH].
Defined.

Lemma status_history_app (a : nat) (l1 l2 : list event) :
  status_history a (l1 ++ l2) = status_history a l1 ++ status_history a l2.
Proof. apply omap_app. Qed.

Lemma views_app (l1 l2 : list event) : views (l1 ++ l2) = views l1 ++ views l2.
Proof. apply omap_app. Qed.

Lemma writes_app (a : nat) (f : field) (l1 l2 : list event) :
  writes a f (l1 ++ l2) = (writes a f l1 + writes a f l2)%nat.
Proof. apply count_app. Qed.

Section Passive.

Context (m : store) (ok : event → Prop).

Lemma passive_status_history (p : list event) (a : nat) :
  Forall (λ e, passive m e ∧ ok e) p → status_history a p = [].
Proof.
  intros Hp. induction Hp as [|e l [He _] _ IH]; [done|].
  destruct e; cbn in He; try done; exact IH.
Qed.

Lemma passive_writes (p : list event) (a : nat) (f : field) :
  Forall (λ e, passive m e ∧ ok e) p → writes a f p = 0%nat.
Proof.
  intros Hp. induction Hp as [|e l [He _] _ IH]; [done|].
  destruct e; cbn in He; try done; exact IH.
Qed.

Lemma passive_views (p : list event) :
  Forall (λ e, passive m e ∧ ok e) p → Forall (λ v, v = m) (views p).
Proof.
  intros Hp. induction Hp as [|e l [He _] _ IH]; [constructor|].
  destruct e; cbn in He; try done; try exact IH. by constructor.
Qed.

End Passive.

Lemma status_history_set (a : nat) (x : Status) (l : list event) :
  status_history a (EvSet a (FStatus x) :: l) = x :: status_history a l.
Proof. unfold status_history. cbn. by rewrite decide_True. Qed.

Lemma status_history_new (a : nat) (l : list event) :
  status_history a (EvNew a :: l) = pending :: status_history a l.
Proof. unfold status_history. cbn. by rewrite decide_True. Qed.

Lemma writes_set (a : nat) (f g : field) (l : list event) :
  writes a f (EvSet a g :: l) = ((if same_field f g then 1 else 0) + writes a f l)%nat.
Proof.
  unfold writes, count. cbn. rewrite bool_decide_eq_true_2 by done.
  by destruct (same_field f g).
Qed.

Lemma update_lookup (a : nat) (f : job → job) (m : store) :
  heap (update a f m) !! a = f <$> heap m !! a.
Proof. apply list_lookup_alter_eq. Qed.

Ltac in_list := repeat first [apply list_elem_of_here | apply list_elem_of_further].

(** No suspension shows a terminal record at [a]. *)
Definition unfinished (a : nat) (v : store) : Prop :=
  ∀ r, heap v !! a = Some r → terminal (j_status r) = false.

Section Lifecycle.

Context (w : World) (req : request).

Lemma task_history (a : nat) (jobId : string) (u tok : value) (m : store)
    (o : outcome unit) (evs : list event) (m' : store) :
  task_trace w a jobId req u tok m o evs m' →
  status_history a evs ∈ [[downloading; failed]; [downloading; uploading; completed];
                          [downloading; uploading; failed]; [downloading; uploading]]
  ∧ Forall (unfinished a) (views evs)
  ∧ (∀ r, heap m' !! a = Some r → last (status_history a evs) = Some (j_status r))
  ∧ (writes a FCompletedAt evs ≤ 1)%nat
  ∧ (writes a FResult evs + writes a FError evs ≤ 1)%nat.
Proof.
  intros [p1 t e k m0 Hn He Hp1|p1 p2 len t res k m0 m1 Hres Hp1 Hlen Hp2
         |p1 p2 len t e k m0 m1 Hres Hp1 Hlen Hp2|p1 p2 len e k m0 m1 Hres Hp1 Hlen Hp2].
  all: unfold failed_block, completed_block.
  all: repeat rewrite ?status_history_app, ?views_app, ?writes_app.
  all: rewrite ?(passive_status_history _ _ _ _ Hp1), ?(passive_status_history _ _ _ _ Hp2),
         ?(passive_writes _ _ _ _ _ Hp1), ?(passive_writes _ _ _ _ _ Hp2).
  all: rewrite ?status_history_set, ?writes_set. all: cbn [app same_field].
  all: split_and!; try done; try in_list; try (cbn; lia).
  all: try (repeat (apply Forall_app; split);
            first [ by (cbn; constructor)
                  | (eapply Forall_impl; [eapply passive_views; eassumption|]);
                    intros v -> r; subst m0; try subst m1; rewrite !update_lookup;
                    destruct (heap m !! a); cbn; [by intros [= <-]|done] ]).
  all: intros r; unfold failed_with, completed_with; subst m0; try subst m1;
       rewrite !update_lookup; destruct (heap m !! a); cbn; [by intros [= <-]|done].
Qed.

Definition lifecycles : list (list Status) :=
  [[]; [pending]; [pending; downloading; failed];
   [pending; downloading; uploading; completed];
   [pending; downloading; uploading; failed];
   [pending; downloading; uploading]].

Lemma request_history (m : store) (evs : list event) (m' : store) :
  request_trace w req m evs m' →
  let a := length (heap m) in
  status_history a evs ∈ lifecycles
  ∧ Forall (unfinished a) (views evs)
  ∧ (∀ r, heap m' !! a = Some r → last (status_history a evs) = Some (j_status r))
  ∧ (writes a FCompletedAt evs ≤ 1)%nat
  ∧ (writes a FResult evs + writes a FError evs ≤ 1)%nat.
Proof.
  assert (Hfresh : ∀ ok p, Forall (λ e, passive m e ∧ ok e) p →
                           Forall (unfinished (length (heap m))) (views p)).
  { intros ok p Hp. eapply Forall_impl; [by eapply passive_views|].
    intros v -> r. by rewrite lookup_ge_None_2. }
  assert (Hpending : ∀ jobId createdAt ok p,
            Forall (λ e, passive (created req m jobId createdAt) e ∧ ok e) p →
            Forall (unfinished (length (heap m))) (views p)).
  { intros jobId createdAt ok p Hp. eapply Forall_impl; [by eapply passive_views|].
    intros v -> r. unfold created. cbn [heap]. rewrite list_lookup_middle by done.
    by intros [= <-]. }
  intros [p0 Hp0|p0 p1 now createdAt a m1 Hp0 Hp1
         |p0 p1 evs' now createdAt mf u tok o a jobId m1 Hp0 Hp1 Hsync Htask
         |p0 p1 evs' now createdAt mf u tok o a jobId m1 Hp0 Hp1 Hsync Htask]; cbn zeta;
    try subst a.
  - rewrite (passive_status_history _ _ _ _ Hp0), (passive_writes _ _ _ _ _ Hp0),
      (passive_writes _ _ _ _ _ Hp0), (passive_writes _ _ _ _ _ Hp0).
    split_and!; [in_list|by eapply Hfresh| |lia|lia].
    intros r. by rewrite lookup_ge_None_2.
  - repeat rewrite ?status_history_app, ?views_app, ?writes_app.
    rewrite (passive_status_history _ _ _ _ Hp0), (passive_status_history _ _ _ _ Hp1),
      !(passive_writes _ _ _ _ _ Hp0), !(passive_writes _ _ _ _ _ Hp1).
    rewrite status_history_new. cbn [app].
    split_and!; [in_list| |..]; try (cbn; lia).
    + rewrite !Forall_app. split_and!; [by eapply Hfresh|constructor|by eapply Hpending].
    + intros r. subst m1. unfold created. cbn [heap].
      rewrite list_lookup_middle by done. by intros [= <-].
  - destruct (task_history _ _ _ _ _ _ _ _ Htask) as (Hh & Hv & Hl & Hc & Hre).
    repeat rewrite ?status_history_app, ?views_app, ?writes_app.
    rewrite (passive_status_history _ _ _ _ Hp0), (passive_status_history _ _ _ _ Hp1),
      !(passive_writes _ _ _ _ _ Hp0), !(passive_writes _ _ _ _ _ Hp1).
    rewrite status_history_new. cbn [app].
    split_and!.
    + rewrite !elem_of_cons, elem_of_nil in Hh.
      destruct Hh as [->|[->|[->|[->|[]]]]]; in_list.
    + rewrite !Forall_app.
      split_and!; [by eapply Hfresh|constructor|by eapply Hpending|constructor|done].
    + intros r Hr. specialize (Hl r Hr). cbn.
      destruct (status_history _ evs') as [|x h]; [done|]. by rewrite last_cons_cons, Hl.
    + cbn. lia.
    + cbn. lia.
  - destruct (task_history _ _ _ _ _ _ _ _ Htask) as (Hh & Hv & Hl & Hc & Hre).
    assert (Hans : status_history (length (heap m)) (answer_after o (length (heap m)) mf) = []
                   ∧ views (answer_after o (length (heap m)) mf) = []
                   ∧ ∀ f, writes (length (heap m)) f
                            (answer_after o (length (heap m)) mf) = 0%nat).
    { by destruct o. }
    destruct Hans as (Hans1 & Hans2 & Hans3).
    repeat rewrite ?status_history_app, ?views_app, ?writes_app.
    rewrite (passive_status_history _ _ _ _ Hp0), (passive_status_history _ _ _ _ Hp1),
      !(passive_writes _ _ _ _ _ Hp0), !(passive_writes _ _ _ _ _ Hp1).
    rewrite status_history_new, Hans1, Hans2, !Hans3. cbn [app]. rewrite app_nil_r.
    split_and!.
    + rewrite !elem_of_cons, elem_of_nil in Hh.
      destruct Hh as [->|[->|[->|[->|[]]]]]; in_list.
    + rewrite !Forall_app.
      split_and!; [by eapply Hfresh|constructor|by eapply Hpending|done|constructor].
    + intros r Hr. specialize (Hl r Hr). cbn.
      destruct (status_history _ evs') as [|x h]; [done|]. by rewrite last_cons_cons, Hl.
    + cbn. lia.
    + cbn. lia.
Qed.

End Lifecycle.

(** * The claims *)

(** C4. For every created job the status only moves forward along
    pending, downloading, uploading, completed, with failed reachable from
    any non-terminal status; completed is reached only from uploading; no
    status is revisited; and once the job is terminal its record is never
    mutated again: whatever a poll could observe from then on is the same
    record.  Stated for the job object a request creates (at the first free
    address), over the whole run of the request and its task. *)
Theorem job_lifecycle (w : World) (req : request) (m : store) (t : nat) :
  let s' := (post_upload w req (State m [] t)).2 in
  let a := length (heap m) in
  let h := status_history a (log s') in
  let observed := views (log s') ++ [mem s'] in
  (∀ x, head h = Some x → x = pending) ∧
  forward h ∧
  NoDup h ∧
  (∀ i, h !! S i = Some completed → h !! i = Some uploading) ∧
  (∀ i x, h !! i = Some x → terminal x = true → length h = S i) ∧
  (∀ r, heap (mem s') !! a = Some r → last h = Some (j_status r)) ∧
  (∀ i j v1 v2 r,
     (i ≤ j)%nat → observed !! i = Some v1 → observed !! j = Some v2 →
     heap v1 !! a = Some r → terminal (j_status r) = true →
     heap v2 !! a = Some r).
Proof.
  destruct (post_upload_runs w req (State m [] t)) as (o & evs & m' & t' & Hrun & Htr).
  rewrite Hrun. cbn [snd log mem app] in *.
  destruct (request_history w req m evs m' Htr) as (Hh & Hv & Hl & _).
  split_and!.
  1-5: unfold lifecycles in Hh; rewrite !elem_of_cons, elem_of_nil in Hh;
       destruct Hh as [->|[->|[->|[->|[->|[->|[]]]]]]].
  1-6: by intros x [= <-].
  1-6: compute_done.
  1-6: compute_done.
  1-6: by intros [|[|[|[|[|i]]]]].
  1-6: by intros [|[|[|[|[|i]]]]] x; intros [= <-].
  - done.
  - intros i j v1 v2 r Hij H1 H2 Hr Hterm.
    assert (Hlast : ∀ k v, (views evs ++ [m']) !! k = Some v →
                           (length (views evs) ≤ k)%nat → v = m').
    { intros k v Hk Hge. rewrite lookup_app_r in Hk by done.
      apply list_lookup_singleton_Some in Hk. by destruct Hk. }
    destruct (decide (i < length (views evs))%nat) as [Hlt|Hge].
    + rewrite lookup_app_l in H1 by done.
      pose proof (Forall_lookup_1 _ _ _ _ Hv H1 r Hr). congruence.
    + rewrite (Hlast j v2 H2) by lia. rewrite (Hlast i v1 H1) in Hr by lia. done.
Qed.

(** What the task makes of the record [j] at [a] when it settles:
    completed with the result of an attempt, or failed with the message and
    code of the error the probe or an attempt raised. *)
Definition raised (w : World) (req : request) (u tok : value) (e : js_error) : Prop :=
  (∃ k, length_of (source_head w k (videoUrl req)) = Throw (TErr e))
  ∨ (∃ len k, settle w (descriptor_of req u tok len) (relay w k) = Throw (TErr e)).

Definition recorded (w : World) (req : request) (u tok : value) (j r : job) : Prop :=
  (j_status r = completed ∧ j_error r = j_error j
   ∧ ∃ res len k, settle w (descriptor_of req u tok len) (relay w k) = Ok res
                  ∧ j_result r = Some res)
  ∨ (j_status r = failed ∧ j_result r = j_result j
     ∧ ∃ e, raised w req u tok e
            ∧ j_error r = Some {| e_message := message e; e_code := code e |}).

(** What the task leaves of the record [j] when an attempt's callback
    throws: the status of the last assignment and nothing else. *)
Definition stranded (j r : job) : Prop :=
  j_status r = uploading ∧ j_completedAt r = j_completedAt j
  ∧ j_result r = j_result j ∧ j_error r = j_error j.

Lemma task_outcome (w : World) (req : request) (a : nat) (jobId : string)
    (u tok : value) (m : store) (o : outcome unit) (evs : list event) (m' : store)
    (j : job) :
  task_trace w a jobId req u tok m o evs m' →
  heap m !! a = Some j →
  ∃ r, heap m' !! a = Some r
       ∧ match o with
         | Ok _ => recorded w req u tok j r
         | _ => stranded j r
         end.
Proof.
  intros [p1 t e k m0 Hn He Hp1|p1 p2 len t res k m0 m1 Hres Hp1 Hlen Hp2
         |p1 p2 len t e k m0 m1 Hres Hp1 Hlen Hp2|p1 p2 len e k m0 m1 Hres Hp1 Hlen Hp2] Hj.
  all: unfold failed_with, completed_with; subst m0; try subst m1.
  all: rewrite !update_lookup, Hj; cbn; eexists; split; [reflexivity|].
  - right. split_and!; try done. exists e. split; [left; eauto|done].
  - left. split_and!; try done. eauto.
  - right. split_and!; try done. exists e. split; [right; eauto|done].
  - done.
Qed.

(** The console line of the asynchronous mode's rejection handler. *)
Definition background_error (e : event) : Prop :=
  match e with EvConsole (BackgroundError _) => True | _ => False end.

Lemma task_no_background (w : World) (req : request) (a : nat) (jobId : string)
    (u tok : value) (m : store) (o : outcome unit) (evs : list event) (m' : store) :
  task_trace w a jobId req u tok m o evs m' → Forall (λ e, ¬ background_error e) evs.
Proof.
  intros [p1 t e k m0 Hn He Hp1|p1 p2 len t res k m0 m1 Hres Hp1 Hlen Hp2
         |p1 p2 len t e k m0 m1 Hres Hp1 Hlen Hp2|p1 p2 len e k m0 m1 Hres Hp1 Hlen Hp2].
  all: repeat (apply Forall_app; split).
  all: try (eapply Forall_impl; [eassumption|]; cbn;
            intros [[]| | | |[]] [_ H]; cbn in *; tauto).
  all: repeat constructor; cbn; tauto.
Qed.

Lemma request_no_background (w : World) (req : request) (m : store)
    (evs : list event) (m' : store) :
  request_trace w req m evs m' → Forall (λ e, ¬ background_error e) evs.
Proof.
  assert (Hauth : ∀ m p, Forall (λ e, passive m e ∧ auth_event e) p →
                         Forall (λ e, ¬ background_error e) p).
  { intros m0 p Hp. eapply Forall_impl; [exact Hp|]. cbn.
    intros [[]| | | |[]] [_ [H|H]]; cbn in *; tauto. }
  assert (Hneg : ∀ m p, Forall (λ e, passive m e ∧ negotiation_event req e) p →
                        Forall (λ e, ¬ background_error e) p).
  { intros m0 p Hp. eapply Forall_impl; [exact Hp|]. cbn.
    intros [[]| | | |[]] [_ [[_ H]|[(n & H & _)|H]]]; cbn in *; tauto. }
  intros [p0 Hp0|p0 p1 now createdAt a m1 Hp0 Hp1
         |p0 p1 evs' now createdAt mf u tok o a jobId m1 Hp0 Hp1 Hsync Htask
         |p0 p1 evs' now createdAt mf u tok o a jobId m1 Hp0 Hp1 Hsync Htask].
  all: repeat (apply Forall_app; split); eauto using task_no_background.
  all: try (destruct o; cbn [answer_after]).
  all: repeat constructor; cbn; tauto.
Qed.

(** The part of C10 the code keeps.  The task never rejects: what the
    probe rejects with, and what an attempt rejects with, is caught and
    recorded as the job's failed status and error; so the rejection handlers
    of both modes are dead code (any other handler in their place gives the
    same run), no background-error line is ever logged, and over a whole
    request completedAt, result and error are each assigned at most once. *)
Lemma runUpload_rejects_nothing (w : World) (req : request) (a : nat)
    (jobId : string) (u tok : value) (s : state) :
  let task := runUpload w a jobId req u tok in
  (∀ err, (task s).1 ≠ Throw err) ∧
  (∀ j, heap (mem s) !! a = Some j →
        ∃ r, heap (mem (task s).2) !! a = Some r
             ∧ match (task s).1 with
               | Ok _ => recorded w req u tok j r
               | _ => stranded j r
               end) ∧
  (∀ h : thrown → M unit,
     try_catch (task;; respondWithJob a) h s = (task;; respondWithJob a) s ∧
     try_catch task h s = task s) ∧
  (∀ m t,
     let s' := (post_upload w req (State m [] t)).2 in
     let b := length (heap m) in
     (writes b FCompletedAt (log s') ≤ 1 ∧ writes b FResult (log s') ≤ 1
      ∧ writes b FError (log s') ≤ 1)%nat
     ∧ Forall (λ e, ¬ background_error e) (log s')).
Proof.
  cbn zeta.
  destruct (runUpload_runs w a jobId req u tok s) as (o & evs & m' & t' & Hrun & Htr).
  pose proof (task_trace_settles _ _ _ _ _ _ _ _ _ _ Htr) as Ho.
  split_and!.
  - rewrite Hrun. cbn [fst]. by destruct Ho as [->|[e ->]].
  - intros j Hj. rewrite Hrun. cbn [fst snd mem]. by eapply task_outcome.
  - intros h. unfold try_catch, mbind, M_bind. rewrite Hrun.
    destruct Ho as [->|[e ->]]; [|done].
    split; [|done].
    unfold respondWithJob, mbind, M_bind, read, respond, emit. cbn [mem log ticks].
    by destruct (decide _).
  - intros m t.
    destruct (post_upload_runs w req (State m [] t)) as (o' & l & mf & tf & Hpost & Hreq).
    rewrite Hpost. cbn [snd log app].
    destruct (request_history w req m l mf Hreq) as (_ & _ & _ & Hc & Hre).
    split; [lia|]. by eapply request_no_background.
Qed.

(** C10, on the code.  An exception raised during the transfer is not
    always caught: [new URL(uploadUrl)] and [request(uploadUrl, ...)] run in
    the response callback of the download (lines 486-489), outside the
    promise executor and outside any [try], so what they throw reaches
    neither [reject] nor the [catch] of [runUpload].  With a content length
    supplied, a source that answers below 400 and an upload request that
    cannot be built, the task neither resolves nor rejects: it stops at the
    first attempt, the record stays [uploading] with no completedAt, result
    or error, no handler in either mode sees the exception, and the
    synchronous mode never answers the caller. *)
Theorem runUpload_callback_exception_escapes (w : World) (req : request) (a : nat)
    (jobId : string) (u tok : value) (s : state) (j : job) (e : js_error) (g : Z) :
  nullish (contentLength req) = false →
  upload_request_throws w (descriptor_of req u tok (contentLength req)) = Some e →
  src (relay w (attempts (log s))) = SrcResponse g → g < 400 →
  heap (mem s) !! a = Some j →
  let task := runUpload w a jobId req u tok in
  let d := descriptor_of req u tok (contentLength req) in
  let m1 := update a (set_status uploading) (update a (set_status downloading) (mem s)) in
  task s = (Abort e,
            State m1
                  (log s ++ [EvSet a (FStatus downloading); EvSet a (FStatus uploading);
                             EvIo (IoTransfer d) m1])
                  (ticks s)) ∧
  (∃ r, heap m1 !! a = Some r ∧ stranded j r) ∧
  (∀ h : thrown → M unit,
     try_catch (task;; respondWithJob a) h s = task s ∧ try_catch task h s = task s).
Proof.
  intros Hsize Hthrows Hsrc Hg Hj. cbn zeta.
  assert (Hrun : runUpload w a jobId req u tok s =
                 (Abort e,
                  State (update a (set_status uploading)
                           (update a (set_status downloading) (mem s)))
                    (log s ++ [EvSet a (FStatus downloading); EvSet a (FStatus uploading);
                               EvIo (IoTransfer (descriptor_of req u tok (contentLength req)))
                                 (update a (set_status uploading)
                                    (update a (set_status downloading) (mem s)))])
                    (ticks s))).
  { rewrite runUpload_unfold. cbn zeta.
    unfold resolveContentLength. rewrite Hsize.
    unfold mret, M_ret. cbn [mem log ticks].
    unfold streamVideoToYouTube. change (Z.to_nat maxRetries) with 3%nat.
    rewrite attempts_from_step. cbn zeta. cbn [mem log ticks].
    assert (Hk : attempts ((log s ++ [EvSet a (FStatus downloading)])
                             ++ [EvSet a (FStatus uploading)]) = attempts (log s)).
    { unfold attempts. rewrite !count_app. cbn. lia. }
    rewrite Hk. unfold settle. rewrite Hsrc, Hthrows.
    destruct (400 <=? g) eqn:?; [lia|].
    by rewrite <- !app_assoc. }
  split_and!.
  - exact Hrun.
  - rewrite !update_lookup, Hj. cbn. eexists. split; [reflexivity|done].
  - intros h. unfold try_catch, mbind, M_bind. by rewrite Hrun.
Qed.

(** The classification of lines 449, in the words of section 4.4. *)
Lemma isRetryable_spec (e : js_error) :
  isRetryable e = true ↔
  (∃ c, statusCode e = Some c ∧ (500 ≤ c ∨ c = 308))
  ∨ code e = Some "ECONNRESET" ∨ code e = Some "ETIMEDOUT".
Proof.
  destruct e as [msg sc cd bd]. unfold isRetryable. cbn [statusCode code].
  rewrite !orb_true_iff. split.
  - intros [[[H|H]|H]|H].
    + destruct sc as [c|]; [|done]. cbn in H. left. exists c. split; [done|]. left. lia.
    + destruct sc as [c|]; [|done]. cbn in H. left. exists c. split; [done|]. right. lia.
    + destruct cd as [k|]; [|done]. unfold from_option in H.
      apply String.eqb_eq in H as <-. auto.
    + destruct cd as [k|]; [|done]. unfold from_option in H.
      apply String.eqb_eq in H as <-. auto.
  - intros [(c & -> & [H| ->])|[-> | ->]]; cbn.
    + left. left. left. lia.
    + left. left. by right.
    + left. by right.
    + by right.
Qed.

(** A destination status other than 200, 201 and 308 rejects with that
    status and the response body attached. *)
Lemma settle_answers_failure (w : World) (d : descriptor) (net : attempt_net)
    (p : Z) (data : string) :
  answers w d net p data → p ≠ 200 → p ≠ 201 → p ≠ 308 →
  settle w d net = Throw (TErr {| message := "YouTube upload failed: HTTP " +:+ show p
                                           +:+ " - " +:+ data;
                                statusCode := Some p; code := None;
                                body := Some data |}).
Proof.
  intros (Hup & g & Hsrc & Hg & Hdst) H200 H201 H308.
  unfold settle, on_put_response. rewrite Hsrc, Hup, Hdst.
  destruct (400 <=? g) eqn:?; [lia|].
  destruct (p =? 201) eqn:?; [lia|]. destruct (p =? 200) eqn:?; [lia|].
  destruct (p =? 308) eqn:?; [lia|]. done.
Qed.

Lemma settle_answers_success (w : World) (d : descriptor) (net : attempt_net)
    (p : Z) (data : string) :
  answers w d net p data → p = 200 ∨ p = 201 →
  settle w d net = Ok {| r_statusCode := p; r_videoId := videoId_of w data;
                       r_rawResponse :=
                         if (0 <? String.length data)%nat then Some data else None |}.
Proof.
  intros (Hup & g & Hsrc & Hg & Hdst) Hp.
  unfold settle, on_put_response. rewrite Hsrc, Hup, Hdst.
  destruct (400 <=? g) eqn:?; [lia|].
  by destruct Hp as [-> | ->].
Qed.

(** C1. Over every behaviour of the two remote parties: attempt [i + 1] is
    made exactly when attempt [i] was made, failed with a retryable failure
    (status at least 500, status 308, ECONNRESET or ETIMEDOUT) and [i] is
    below 3; the controller returns what its last attempt returned, so on a
    fatal failure or after the third attempt the most recent failure goes to
    the caller, and nothing is waited for after the last attempt; a fatal
    first failure, a 403 in particular, gives one attempt and no delay. *)
Theorem retry_controller (w : World) (d : descriptor) (s : state) :
  let stream := streamVideoToYouTube w d in
  ∃ (n : nat) (evs : list event),
    (stream s).2 = State (mem s) (log s ++ evs) (ticks s) ∧
    attempts evs = n ∧ (1 ≤ n ≤ 3)%nat ∧
    (∀ i : nat, (1 ≤ i)%nat →
       (i + 1 ≤ n)%nat ↔
       (i ≤ n)%nat ∧ retryable_failure (outcome_of w d s i) ∧ (i < 3)%nat) ∧
    (∀ e, isRetryable e = true ↔
          (∃ c, statusCode e = Some c ∧ (500 ≤ c ∨ c = 308))
          ∨ code e = Some "ECONNRESET" ∨ code e = Some "ETIMEDOUT") ∧
    (stream s).1 = outcome_of w d s n ∧
    length (delays evs) = (n - 1)%nat ∧
    last (io_ops evs) = Some (IoTransfer d) ∧
    (∀ e, outcome_of w d s 1 = Throw (TErr e) → isRetryable e = false →
          n = 1%nat ∧ delays evs = [] ∧ (stream s).1 = Throw (TErr e)) ∧
    (∀ data, answers w d (relay w (attempts (log s))) 403 data →
          n = 1%nat ∧ delays evs = []
          ∧ ∃ e, (stream s).1 = Throw (TErr e) ∧ statusCode e = Some 403).
Proof.
  cbn zeta.
  destruct (retry_runs w d s) as (n & evs & Hst & Hatt & Hn & Hiff & Hout & Hops).
  assert (Hfatal : ∀ e, outcome_of w d s 1 = Throw (TErr e) → isRetryable e = false →
                        n = 1%nat).
  { intros e He Hr. destruct (decide (2 ≤ n)%nat) as [H2|]; [|lia].
    apply (Hiff 1%nat) in H2 as (_ & (e' & He' & Hr') & _); [|lia]. congruence. }
  assert (Hdelays : n = 1%nat → delays evs = []).
  { intros ->. by rewrite delays_io_ops, Hops. }
  exists n, evs. split_and!; try done; try lia.
  - apply isRetryable_spec.
  - rewrite delays_io_ops, Hops.
    assert (n = 1 ∨ n = 2 ∨ n = 3)%nat as [->|[->| ->]] by lia; done.
  - rewrite Hops. unfold schedule. apply last_snoc.
  - intros e He Hr. pose proof (Hfatal e He Hr) as ->.
    split_and!; [done|by apply Hdelays|by rewrite Hout].
  - intros data Hans.
    pose proof (settle_answers_failure w d _ _ _ Hans) as Hset.
    assert (H1 : outcome_of w d s 1 = settle w d (relay w (attempts (log s)))).
    { unfold outcome_of. do 2 f_equal. lia. }
    rewrite <- H1 in Hset. specialize (Hset ltac:(lia) ltac:(lia) ltac:(lia)).
    pose proof (Hfatal _ Hset eq_refl) as ->.
    split_and!; [done|by apply Hdelays|]. rewrite Hout, Hset. eauto.
Qed.

Lemma attempts_app (l1 l2 : list event) :
  attempts (l1 ++ l2) = (attempts l1 + attempts l2)%nat.
Proof. apply count_app. Qed.

(** A 5xx answer of the destination is a retryable failure of the attempt. *)
Lemma settle_answers_5xx (w : World) (d : descriptor) (net : attempt_net)
    (p : Z) (data : string) :
  answers w d net p data → 500 ≤ p → retryable_failure (settle w d net).
Proof.
  intros Hans Hp. rewrite (settle_answers_failure w d net p data Hans) by lia.
  eexists. split; [done|]. apply isRetryable_spec. left. eexists. split; [done|]. by left.
Qed.

(** C3. After a retryable failure of attempt [i] with attempts remaining,
    the controller waits min(1000 * 2^i, 10000) ms before attempt [i + 1]:
    the suspensions of a run are its attempts, each but the last followed by
    that delay.  Hence, when the destination answers 503 twice and then 200
    (or 201), the job completes after exactly 3 attempts and two delays,
    2000 ms then 4000 ms, the second greater than the first and neither
    above the 10000 ms ceiling. *)
Theorem backoff_schedule (w : World) (req : request) (a : nat) (jobId : string)
    (u tok : value) (s : state) :
  (∀ d,
     ∃ (n : nat) (evs : list event),
       (streamVideoToYouTube w d s).2 = State (mem s) (log s ++ evs) (ticks s) ∧
       attempts evs = n ∧
       io_ops evs =
         flat_map (λ i, [IoTransfer d; IoTimer (Z.min (1000 * 2 ^ Z.of_nat i) 10000)])
                  (seq 1 (n - 1))
         ++ [IoTransfer d] ∧
       Forall (λ ms, ms ≤ 10000) (delays evs)) ∧
  (∀ j d1 d2 d3 ok,
     let d := descriptor_of req u tok (contentLength req) in
     heap (mem s) !! a = Some j →
     nullish (contentLength req) = false →
     answers w d (relay w (attempts (log s))) 503 d1 →
     answers w d (relay w (attempts (log s) + 1)) 503 d2 →
     answers w d (relay w (attempts (log s) + 2)) ok d3 →
     ok = 200 ∨ ok = 201 →
     ∃ evs r,
       log (runUpload w a jobId req u tok s).2 = log s ++ evs ∧
       attempts evs = 3%nat ∧
       delays evs = [2000; 4000] ∧ 2000 < 4000 ∧ 4000 ≤ 10000 ∧
       heap (mem (runUpload w a jobId req u tok s).2) !! a = Some r ∧
       j_status r = completed).
Proof.
  split.
  - intros d.
    destruct (retry_runs w d s) as (n & evs & Hst & Hatt & Hn & _ & _ & Hops).
    exists n, evs. split_and!; try done.
    rewrite delays_io_ops, Hops.
    assert (n = 1 ∨ n = 2 ∨ n = 3)%nat as [->|[->| ->]] by lia;
      cbn; repeat constructor; lia.
  - intros j d1 d2 d3 ok d Hj Hsize H1 H2 H3 Hok.
    rewrite runUpload_unfold. cbn zeta.
    unfold resolveContentLength. rewrite Hsize.
    unfold mret, M_ret. cbn [mem log ticks].
    remember (State (update a (set_status uploading)
                       (update a (set_status downloading) (mem s)))
                ((log s ++ [EvSet a (FStatus downloading)])
                   ++ [EvSet a (FStatus uploading)]) (ticks s)) as s2 eqn:Es2.
    destruct (retry_runs w d s2) as (n & evs & Hst & Hatt & Hn & Hiff & Hout & Hops).
    assert (Hk : attempts (log s2) = attempts (log s)).
    { subst s2. cbn [log]. rewrite !attempts_app. cbn. lia. }
    assert (O1 : retryable_failure (outcome_of w d s2 1)).
    { unfold outcome_of. rewrite Hk.
      replace (attempts (log s) + 1 - 1)%nat with (attempts (log s)) by lia.
      by eapply settle_answers_5xx. }
    assert (O2 : retryable_failure (outcome_of w d s2 2)).
    { unfold outcome_of. rewrite Hk.
      replace (attempts (log s) + 2 - 1)%nat with (attempts (log s) + 1)%nat by lia.
      by eapply settle_answers_5xx. }
    assert (n = 3%nat) as ->.
    { assert (2 ≤ n)%nat by (apply (Hiff 1%nat); [lia|split_and!; [lia|done|lia]]).
      assert (3 ≤ n)%nat by (apply (Hiff 2%nat); [lia|split_and!; [lia|done|lia]]).
      lia. }
    unfold outcome_of in Hout. rewrite Hk in Hout.
    replace (attempts (log s) + 3 - 1)%nat with (attempts (log s) + 2)%nat in Hout by lia.
    rewrite (settle_answers_success w d _ ok d3 H3 Hok) in Hout.
    fold d. destruct (streamVideoToYouTube w d s2) as [o s3]. cbn [fst snd] in *.
    subst o s3 s2. cbn [mem log ticks].
    exists ([EvSet a (FStatus downloading)] ++ [EvSet a (FStatus uploading)] ++ evs
              ++ completed_block a).
    eexists.
    split_and!; [by rewrite <- !app_assoc| | |lia|lia| |].
    + rewrite !attempts_app, Hatt. cbn. lia.
    + rewrite !delays_app, (delays_io_ops evs), Hops. done.
    + cbn [snd mem]. unfold completed_with. rewrite !update_lookup, Hj. reflexivity.
    + done.
Qed.

(** ** Sample worlds *)

Module Sample.

Definition quote : string := String (ascii_of_nat 34) EmptyString.

(** The response body [{"id":"..."}]. *)
Definition body_with_id (id : string) : string :=
  "{" +:+ quote +:+ "id" +:+ quote +:+ ":" +:+ quote +:+ id +:+ quote +:+ "}".

Definition video : string := "dQw4w9WgXcQ".

(** [JSON.parse] on the bodies used below; every other text is taken as
    malformed. *)
Definition parse (data : string) : option value :=
  if String.eqb data (body_with_id video) then Some (VObj [("id", VStr video)])
  else if String.eqb data (body_with_id "") then Some (VObj [("id", VStr "")])
  else None.

Definition source : value := VStr "https://cdn.example/clip.webm".
Definition session : value := VStr "https://upload.example/session/1".

(** What [new URL] throws on a text that is no URL. *)
Definition invalid_url : js_error :=
  {| message := "Invalid URL"; statusCode := None; code := Some "ERR_INVALID_URL";
     body := None |}.

(** The upload request on the upload URLs of the sample runs: it is built
    for the two session URLs, and [new URL] throws on the text [not a url]
    as on every value that is no URL.  It is no URL parser: the sample
    runs use no other upload URL, and it refuses them all. *)
Definition request_error (d : descriptor) : option js_error :=
  match d_uploadUrl d with
  | VStr u =>
      if String.eqb u "https://upload.example/session/1"
         || String.eqb u "https://upload.example/session/2"
      then None else Some invalid_url
  | _ => Some invalid_url
  end.

(** A destination that answers the attempts with the given statuses in
    order, then 200 with the video id; the source always answers 200. *)
Definition destination (statuses : list Z) (k : nat) : attempt_net :=
  {| src := SrcResponse 200;
     dst := match statuses !! k with
            | Some p => DstResponse p "busy"
            | None => DstResponse 200 (body_with_id video)
            end |}.

(** A world around a source probe and a destination. *)
Definition world (head : nat → value → head_reply) (relay : nat → attempt_net) : World :=
  {| JSON_parse := parse;
     upload_request_throws := request_error;
     YOUTUBE_CLIENT_ID := None;
     YOUTUBE_CLIENT_SECRET := None;
     clock := λ n, 1709123456789 + Z.of_nat n;
     random_suffix := "k3x9q2a";
     token_endpoint := λ _ _ _, TokenError (new_Error "unreachable");
     source_head := head;
     session_endpoint := λ _ _ _ _, SessionReply 200 (Some "https://upload.example/session/2") "";
     relay := relay |}.

Definition sized (n : string) : nat → value → head_reply :=
  λ _ _, HeadReply 200 (Some n) None.

Definition unsized : nat → value → head_reply :=
  λ _ _, HeadReply 200 None None.

(** A request that brings its own token and upload URL. *)
Definition direct (length : value) (sync : value) : request :=
  {| authorization := None;
     videoUrl := source;
     uploadUrl := session;
     oauthToken := VStr "ya29.body";
     clientId := VUndefined;
     clientSecret := VUndefined;
     refreshToken := VUndefined;
     videoMetadata := VUndefined;
     contentLength := length;
     contentType_field := VUndefined;
     sync_field := sync |}.

(** The transfer of such a request. *)
Definition transfer (length : value) : descriptor :=
  descriptor_of (direct length VUndefined) session (VStr "ya29.body") length.

(** The same request with an upload URL that is no URL. *)
Definition misdirected (length : value) (sync : value) : request :=
  {| authorization := None;
     videoUrl := source;
     uploadUrl := VStr "not a url";
     oauthToken := VStr "ya29.body";
     clientId := VUndefined;
     clientSecret := VUndefined;
     refreshToken := VUndefined;
     videoMetadata := VUndefined;
     contentLength := length;
     contentType_field := VUndefined;
     sync_field := sync |}.

Definition empty : store := Store [] [] VNull.

Definition start : state := State empty [] 0.

End Sample.

(** ** The relay attempt *)

(** C5 as the specification states it for a 200 or 201: the identifier is
    the parsed body's id field whenever the body is a JSON object that has
    one. *)
Definition videoId_is_the_id_field (w : World) (d : descriptor) (net : attempt_net) : Prop :=
  ∀ p data props id res,
    answers w d net p data → p = 200 ∨ p = 201 →
    JSON_parse w data = Some (VObj props) → ("id", id) ∈ props →
    settle w d net = Ok res →
    r_videoId res = id.

(** C5, amended.  For one attempt whose destination answers (the source
    has answered below 400 and the upload request was built): a 200 or 201
    of the destination resolves, the identifier being the parsed body's
    id when the body parses and that id is truthy, and null when the body
    does not parse, is null, has no id or a falsy one; a 308 rejects with a
    retryable failure; any other status outside 200 to 299 rejects with a
    failure carrying the status and the body.  A source status of 400 or
    more rejects. *)
Theorem relay_attempt_outcome (w : World) (d : descriptor) (net : attempt_net) :
  (∀ p data, answers w d net p data → p = 200 ∨ p = 201 →
     ∃ res, settle w d net = Ok res ∧ r_statusCode res = p ∧
       (∀ json id, JSON_parse w data = Some json → get_prop json "id" = Some id →
                   truthy id = true → r_videoId res = id) ∧
       (∀ json id, JSON_parse w data = Some json → get_prop json "id" = Some id →
                   truthy id = false → r_videoId res = VNull) ∧
       (∀ json, JSON_parse w data = Some json → get_prop json "id" = None →
                r_videoId res = VNull) ∧
       (JSON_parse w data = None → r_videoId res = VNull)) ∧
  (∀ data, answers w d net 308 data →
     ∃ e, settle w d net = Throw (TErr e) ∧ statusCode e = Some 308
          ∧ isRetryable e = true) ∧
  (∀ p data, answers w d net p data → p < 200 ∨ 300 ≤ p → p ≠ 308 →
     ∃ e, settle w d net = Throw (TErr e) ∧ statusCode e = Some p
          ∧ body e = Some data) ∧
  (∀ g, src net = SrcResponse g → 400 ≤ g →
     ∃ e, settle w d net = Throw (TErr e)).
Proof.
  split_and!.
  - intros p data Hans Hp. rewrite (settle_answers_success w d net p data Hans Hp).
    eexists. split; [reflexivity|]. cbn [r_statusCode r_videoId]. unfold videoId_of.
    split_and!; [done|..].
    + intros json id -> -> Ht. unfold or_else. by rewrite Ht.
    + intros json id -> -> Ht. unfold or_else. by rewrite Ht.
    + by intros json -> ->.
    + by intros ->.
  - intros data (Hup & g & Hsrc & Hg & Hdst).
    unfold settle, on_put_response. rewrite Hsrc, Hup, Hdst.
    destruct (400 <=? g) eqn:?; [lia|]. cbn. eauto.
  - intros p data Hans Hp H308.
    rewrite (settle_answers_failure w d net p data Hans) by lia. eauto.
  - intros g Hsrc Hg. unfold settle. rewrite Hsrc.
    destruct (400 <=? g) eqn:?; [eauto|lia].
Qed.

(** The destination answers 200 with the body [{"id":""}]. *)
Definition empty_id_net : attempt_net :=
  {| src := SrcResponse 200; dst := DstResponse 200 (Sample.body_with_id "") |}.

(** C5 as stated fails on a falsy id: the body parses and has the id field
    [""], yet the attempt resolves with the identifier [null]. *)
Lemma videoId_empty_id_counterexample :
  ¬ videoId_is_the_id_field (Sample.world Sample.unsized (λ _, empty_id_net))
      (Sample.transfer (VNum 1048576)) empty_id_net.
Proof.
  intros H.
  specialize (H 200 (Sample.body_with_id "") [("id", VStr "")] (VStr "")
                {| r_statusCode := 200; r_videoId := VNull;
                   r_rawResponse := Some (Sample.body_with_id "") |}).
  assert (VNull = VStr "") as Habs; [|discriminate Habs].
  apply H.
  - split; [reflexivity|]. exists 200. split_and!; [done|lia|done].
  - by left.
  - reflexivity.
  - apply list_elem_of_here.
  - reflexivity.
Qed.

(** The amended statement on the sample destination: a 200 with the body
    [{"id":"dQw4w9WgXcQ"}] resolves with that identifier. *)
Lemma relay_attempt_outcome_witness :
  let w := Sample.world Sample.unsized (Sample.destination []) in
  let d := Sample.transfer (VNum 1048576) in
  answers w d (Sample.destination [] 0) 200 (Sample.body_with_id Sample.video) ∧
  ∃ res, settle w d (Sample.destination [] 0) = Ok res
         ∧ r_videoId res = VStr Sample.video.
Proof.
  cbn zeta.
  assert (Hans : answers (Sample.world Sample.unsized (Sample.destination []))
                   (Sample.transfer (VNum 1048576))
                   (Sample.destination [] 0) 200 (Sample.body_with_id Sample.video)).
  { split; [reflexivity|]. exists 200. split_and!; [reflexivity|lia|reflexivity]. }
  split; [exact Hans|].
  destruct (relay_attempt_outcome (Sample.world Sample.unsized (Sample.destination []))
              (Sample.transfer (VNum 1048576))
              (Sample.destination [] 0)) as (Hok & _).
  destruct (Hok 200 (Sample.body_with_id Sample.video) Hans (or_introl eq_refl))
    as (res & Hres & _ & Hid & _).
  exists res. split; [exact Hres|].
  apply (Hid (VObj [("id", VStr Sample.video)])); reflexivity.
Defined.

(** ** Size resolution *)



Section Sizes.

Context (w : World) (req : request).







End Sizes.


(** ** Requests that fail before an identifier is issued *)

Lemma JobMap_get_set (k : string) (a : nat) (m : JobMap.t) :
  JobMap.get k (JobMap.set k a m) = Some a.
Proof.
  induction m as [|[k' a'] m IH]; cbn.
  - by rewrite String.eqb_refl.
  - destruct (String.eqb k k') eqn:E; cbn; rewrite ?String.eqb_refl, ?E; done.
Qed.

(** A request with a source and a token, but neither an upload URL nor
    metadata to negotiate one. *)
Definition unnegotiable : request :=
  {| authorization := None;
     videoUrl := Sample.source;
     uploadUrl := VUndefined;
     oauthToken := VStr "ya29.body";
     clientId := VUndefined;
     clientSecret := VUndefined;
     refreshToken := VUndefined;
     videoMetadata := VUndefined;
     contentLength := VUndefined;
     contentType_field := VUndefined;
     sync_field := VUndefined |}.

(** C2, on the code.  The handler stores the job before it resolves the
    upload URL (line 226 precedes lines 229-256): the request below is
    answered with the 400 of line 232 and no identifier, yet afterwards the
    registry holds a pending job that a poll of the unissued identifier
    returns.  In any world, from any store. *)
Theorem failed_negotiation_leaves_job (w : World) (m : store) (t : nat) :
  let s' := (post_upload w unnegotiable (State m [] t)).2 in
  let jobId := new_jobId w (clock w t) in
  log s' = [EvNew (length (heap m));
            EvRespond {| res_status := 400;
                         res_json := PFailure "Missing uploadUrl and videoMetadata.snippet"
                                              None |}] ∧
  get_job (mem s') jobId =
    {| res_status := 200;
       res_json := PJob (Job jobId pending (clock w (S t)) None Sample.source VNull
                             None None) |} ∧
  length (heap (mem s')) = S (length (heap m)).
Proof.
  cbn zeta.
  assert (Hmem : mem (post_upload w unnegotiable (State m [] t)).2
                 = created unnegotiable m (new_jobId w (clock w t)) (clock w (S t)))
    by reflexivity.
  rewrite Hmem. unfold created, get_job. cbn [heap jobs].
  split_and!.
  - reflexivity.
  - rewrite JobMap_get_set, lookup_total_app_r by done. by rewrite Nat.sub_diag.
  - rewrite length_app. cbn. lia.
Qed.

(** The part of C2 the code keeps: without a source location, or without a
    usable credential, the store is left as it was. *)
Lemma rejected_before_creation (w : World) (req : request) (s : state) :
  truthy (videoUrl req) = false ∨ (resolveAccessToken w req s).1 = Ok None →
  mem (post_upload w req s).2 = mem s.
Proof.
  unfold post_upload. destruct (truthy (videoUrl req)); cbn [negb].
  - intros [?|Hnone]; [done|].
    unfold mbind at 1. unfold M_bind at 1.
    destruct (tame_resolveAccessToken w req s) as (p0 & t0 & Hs0 & _).
    destruct (resolveAccessToken w req s) as [o s0]. cbn [fst snd] in *. by subst.
  - done.
Qed.

(** ** Credential precedence *)

(** A request carrying a bearer header and a body token. *)
Definition both_credentials : request :=
  {| authorization := Some "Bearer ya29.header";
     videoUrl := Sample.source;
     uploadUrl := Sample.session;
     oauthToken := VStr "ya29.body";
     clientId := VUndefined;
     clientSecret := VUndefined;
     refreshToken := VUndefined;
     videoMetadata := VUndefined;
     contentLength := VNum 1048576;
     contentType_field := VUndefined;
     sync_field := VUndefined |}.

(** C6, on the code.  Line 177 starts from the body's oauthToken and line
    179 consults the Authorization header only when that is missing, against
    the order announced in the comment of line 176: with both present the
    body token is used, in any world and from any state. *)
Theorem body_token_shadows_header (w : World) (s : state) :
  tokenFromRequest both_credentials = VStr "ya29.body" ∧
  resolveAccessToken w both_credentials s = (Ok (Some (VStr "ya29.body")), s).
Proof. split; [reflexivity|]. by destruct s as [[] ? ?]. Qed.

(** The order the code implements for the first two sources. *)
Lemma tokenFromRequest_order (req : request) :
  (truthy (oauthToken req) = true → tokenFromRequest req = oauthToken req) ∧
  (truthy (oauthToken req) = false →
   ∀ h rest, authorization req = Some h → after_bearer h = Some rest →
             tokenFromRequest req = VStr (trim rest)).
Proof.
  unfold tokenFromRequest. split.
  - intros Ht. rewrite Ht. by destruct (authorization req).
  - intros Ht h rest Hh Hrest. rewrite Ht, Hh, Hrest. cbn [negb andb].
    destruct (truthy (VStr h)) eqn:E; [done|].
    destruct h; [done|]. done.
Qed.

(** ** The probe and redirects *)

Definition moved_to : string := "https://origin.example/clip.webm".

(** A source that redirects the known URL, with or without a length on the
    redirect itself, and serves 1048576 bytes at the final location. *)
Definition redirecting (length_on_redirect : option string) (k : nat) (url : value)
  : head_reply :=
  match url with
  | VStr u =>
      if String.eqb u moved_to then HeadReply 200 (Some "1048576") None
      else HeadReply 302 length_on_redirect (Some moved_to)
  | _ => HeadError (new_Error "Invalid URL")
  end.

(** C8, on the code.  The probe reads [content-length] from the first
    response whatever its status (lines 418-425) and never requests the
    [location] it is given: on a bare 3xx it fails with the size-unavailable
    error, and on a 3xx that carries a length it returns the redirect's own
    length, not the 1048576 advertised at the final location; one probe is
    issued either way. *)
Theorem probe_ignores_redirect :
  getContentLength (Sample.world (redirecting None) (Sample.destination []))
    Sample.source Sample.start
  = (Throw (TErr (new_Error SizeUnavailable)),
     State Sample.empty [EvIo (IoHead Sample.source) Sample.empty] 0) ∧
  getContentLength (Sample.world (redirecting (Some "0")) (Sample.destination []))
    Sample.source Sample.start
  = (Ok (VNum 0), State Sample.empty [EvIo (IoHead Sample.source) Sample.empty] 0) ∧
  length_of (redirecting None 1 (VStr moved_to)) = Ok (VNum 1048576).
Proof. split_and!; reflexivity. Qed.

(** ** The registry sweep *)

Section Sweep.

Context (h : list job).

(** The creation time of a Map entry. *)
Definition created_at (e : string * nat) : Z := j_createdAt (h !!! e.2).

Definition not_newer (x y : string * nat) : Prop := created_at x ≤ created_at y.

Lemma insert_by_Permutation (x : string * nat) (l : list (string * nat)) :
  insert_by (byCreatedAt h) x l ≡ₚ x :: l.
Proof.
  induction l as [|y l IH]; cbn; [done|].
  destruct (0 <? byCreatedAt h x y); [|done].
  by rewrite IH, Permutation_swap.
Qed.

Lemma Array_sort_Permutation (l : list (string * nat)) :
  Array_sort (byCreatedAt h) l ≡ₚ l.
Proof.
  induction l as [|x l IH]; cbn; [done|]. by rewrite insert_by_Permutation, IH.
Qed.

Lemma insert_by_sorted (x : string * nat) (l : list (string * nat)) :
  StronglySorted not_newer l → StronglySorted not_newer (insert_by (byCreatedAt h) x l).
Proof.
  induction 1 as [|y l Hl IH Hy]; cbn; [by repeat constructor|].
  destruct (0 <? byCreatedAt h x y) eqn:E.
  - constructor; [done|]. rewrite insert_by_Permutation. constructor; [|done].
    unfold not_newer, byCreatedAt, created_at in *. lia.
  - assert (Hxy : not_newer x y).
    { unfold not_newer, byCreatedAt, created_at in *. lia. }
    constructor; [by constructor|]. constructor; [done|].
    eapply Forall_impl; [exact Hy|]. unfold not_newer in *. intros z Hz. lia.
Qed.

Lemma Array_sort_sorted (l : list (string * nat)) :
  StronglySorted not_newer (Array_sort (byCreatedAt h) l).
Proof.
  induction l as [|x l IH]; cbn; [constructor|]. by apply insert_by_sorted.
Qed.

End Sweep.

Lemma filter_all {A : Type} (P : A → Prop) `{∀ x, Decision (P x)} (l : list A) :
  Forall P l → filter P l = l.
Proof.
  induction 1 as [|x l Hx Hl IH]; [done|]. rewrite filter_cons_True by done. by f_equal.
Qed.

Lemma filter_none {A : Type} (P : A → Prop) `{∀ x, Decision (P x)} (l : list A) :
  Forall (λ x, ¬ P x) l → filter P l = [].
Proof.
  induction 1 as [|x l Hx Hl IH]; [done|]. by rewrite filter_cons_False.
Qed.

(** On a Map, whose keys are distinct, [delete] removes every entry of the
    key. *)
Lemma JobMap_delete_filter (k : string) (m : list (string * nat)) :
  NoDup m.*1 → JobMap.delete k m = filter (λ e, e.1 ≠ k) m.
Proof.
  induction m as [|[k' a] m IH]; [done|]. cbn [fmap list_fmap fst].
  intros [Hk' Hm]%NoDup_cons. cbn [JobMap.delete].
  destruct (String.eqb k k') eqn:E.
  - apply String.eqb_eq in E as ->.
    rewrite filter_cons_False by (cbn; auto).
    symmetry. apply filter_all, Forall_forall. intros e He Heq.
    apply Hk'. rewrite <- Heq. by apply list_elem_of_fmap_2.
  - apply String.eqb_neq in E.
    rewrite filter_cons_True by (cbn; auto). f_equal. by apply IH.
Qed.

Lemma JobMap_delete_all (del m : list (string * nat)) :
  NoDup m.*1 →
  foldl (λ js e, JobMap.delete e.1 js) m del = filter (λ e, e.1 ∉ del.*1) m.
Proof.
  revert m. induction del as [|d del IH]; intros m Hm; cbn [foldl].
  - symmetry. apply filter_all, Forall_forall. intros e _. cbn. apply not_elem_of_nil.
  - rewrite IH, JobMap_delete_filter by
      (try rewrite JobMap_delete_filter by done;
       try (eapply sublist_NoDup; [exact Hm|]; apply fmap_sublist, sublist_filter);
       done).
    rewrite list_filter_filter. apply list_filter_iff. intros e. cbn.
    rewrite not_elem_of_cons. tauto.
Qed.

Lemma sweep_small (m : store) : (length (jobs m) ≤ 100)%nat → sweep m = m.
Proof.
  intros Hle. unfold sweep, JobMap.size, retained.
  destruct (100 <? Z.of_nat (length (jobs m))) eqn:E; [lia|done].
Qed.

(** C9. On a registry of more than 100 jobs the sweep leaves exactly 100
    entries, in their order and untouched, and removes the oldest by creation
    time: no removed job was created after a retained one.  (The Map's keys
    are distinct.) *)
Theorem sweep_keeps_newest (m : store) :
  NoDup (JobMap.keys (jobs m)) →
  (100 < length (jobs m))%nat →
  heap (sweep m) = heap m ∧
  length (jobs (sweep m)) = 100%nat ∧
  jobs (sweep m) `sublist_of` jobs m ∧
  (∀ kept gone,
     kept ∈ jobs (sweep m) → gone ∈ jobs m → gone ∉ jobs (sweep m) →
     created_at (heap m) gone ≤ created_at (heap m) kept).
Proof.
  intros Hkeys Hlen. unfold sweep, JobMap.size, retained, JobMap.keys in *.
  destruct (100 <? Z.of_nat (length (jobs m))) eqn:E; [|lia]. cbn [heap jobs].
  change (Z.to_nat 100) with 100%nat.
  set (sorted := Array_sort (byCreatedAt (heap m)) (jobs m)).
  set (d := (length sorted - 100)%nat).
  assert (Hperm : sorted ≡ₚ jobs m) by apply Array_sort_Permutation.
  assert (Hsorted : StronglySorted (not_newer (heap m)) (take d sorted ++ drop d sorted)).
  { rewrite take_drop. apply Array_sort_sorted. }
  assert (Hsl : length sorted = length (jobs m)) by by rewrite Hperm.
  assert (Hnodup : NoDup ((take d sorted).*1 ++ (drop d sorted).*1)).
  { rewrite <- fmap_app, take_drop, Hperm. exact Hkeys. }
  apply NoDup_app in Hnodup as (_ & Hdisj & _).
  rewrite JobMap_delete_all by done.
  set (P := λ e : string * nat, e.1 ∉ (take d sorted).*1).
  assert (Hkeep : filter P (jobs m) ≡ₚ drop d sorted).
  { rewrite <- Hperm. rewrite <- (take_drop d sorted) at 1. rewrite filter_app.
    rewrite (filter_none P (take d sorted)), (filter_all P (drop d sorted)); [done|..].
    - apply Forall_forall. intros e He Hin. eapply Hdisj; [exact Hin|].
      by apply list_elem_of_fmap_2.
    - apply Forall_forall. intros e He Hne. apply Hne. by apply list_elem_of_fmap_2. }
  split_and!.
  - done.
  - rewrite Hkeep, length_drop. lia.
  - apply sublist_filter.
  - intros kept gone Hkept Hgone Hout.
    rewrite Hkeep in Hkept.
    assert (gone ∈ take d sorted) as Hdel.
    { rewrite <- Hperm, <- (take_drop d sorted), elem_of_app in Hgone.
      destruct Hgone as [?|Hin]; [done|]. destruct Hout. by rewrite Hkeep. }
    by eapply (StronglySorted_app_1_elem_of _ _ _ _ _ Hsorted).
Qed.

(** * The claims on sample runs *)

Module Runs.

Import Sample.

Definition megabyte : value := VNum 1048576.

(** The job of a direct request, as the handler creates it. *)
Definition fresh : job :=
  Job "job_1709123456789_k3x9q2a" pending 1709123456790 None source VNull None None.

(** A store holding that job alone. *)
Definition one_job : store := Store [fresh] [("job_1709123456789_k3x9q2a", 0%nat)] VNull.

(** A synchronous request against a destination that answers 200 at once
    is answered 201 with the completed record and the destination's id. *)
Example sync_completes :
  log (post_upload (world unsized (destination [])) (direct megabyte (VBool true)) start).2
  = [EvNew 0;
     EvSet 0 (FStatus downloading);
     EvSet 0 (FStatus uploading);
     EvIo (IoTransfer (transfer megabyte))
       (Store [set_status uploading fresh] [("job_1709123456789_k3x9q2a", 0%nat)] VNull);
     EvSet 0 (FStatus completed); EvSet 0 FCompletedAt; EvSet 0 FResult;
     EvRespond
       {| res_status := 201;
          res_json :=
            PJob (Job "job_1709123456789_k3x9q2a" completed 1709123456790
                      (Some 1709123456791) source VNull
                      (Some {| r_statusCode := 200; r_videoId := VStr video;
                               r_rawResponse := Some (body_with_id video) |})
                      None) |}].
Proof. vm_compute. reflexivity. Qed.

(** An asynchronous request is acknowledged before anything else happens. *)
Example async_acknowledges_first :
  take 2 (log (post_upload (world unsized (destination [503; 503]))
                 (direct megabyte VUndefined) start).2)
  = [EvNew 0;
     EvRespond {| res_status := 202;
                  res_json := PAccepted "job_1709123456789_k3x9q2a"
                                        "/job/job_1709123456789_k3x9q2a" |}].
Proof. vm_compute. reflexivity. Qed.

(** A 403 fails the job after one attempt. *)
Example forbidden_fails :
  status_history 0
    (log (post_upload (world unsized (destination [403])) (direct megabyte VUndefined)
            start).2)
  = [pending; downloading; uploading; failed]
  ∧ attempts (log (post_upload (world unsized (destination [403]))
                     (direct megabyte VUndefined) start).2) = 1%nat.
Proof. split; vm_compute; reflexivity. Qed.

(** A synchronous request whose upload URL is no URL is never answered:
    the run stops in the callback of the first attempt, with the job left
    [uploading]. *)
Example sync_never_answers :
  post_upload (world unsized (destination [])) (misdirected megabyte (VBool true)) start
  = (Abort invalid_url,
     State (Store [set_status uploading fresh] [("job_1709123456789_k3x9q2a", 0%nat)] VNull)
       [EvNew 0;
        EvSet 0 (FStatus downloading);
        EvSet 0 (FStatus uploading);
        EvIo (IoTransfer (descriptor_of (misdirected megabyte (VBool true))
                            (VStr "not a url") (VStr "ya29.body") megabyte))
          (Store [set_status uploading fresh] [("job_1709123456789_k3x9q2a", 0%nat)] VNull)]
       2).
Proof. vm_compute. reflexivity. Qed.

End Runs.

Lemma retry_controller_witness :
  let w := Sample.world Sample.unsized (Sample.destination [403]) in
  let d := Sample.transfer Runs.megabyte in
  answers w d (Sample.destination [403] 0) 403 "busy" ∧
  ∃ (n : nat) (evs : list event),
    (streamVideoToYouTube w d Sample.start).2 = State Sample.empty evs 0
    ∧ n = 1%nat ∧ delays evs = [].
Proof.
  cbn zeta.
  assert (Hans : answers (Sample.world Sample.unsized (Sample.destination [403]))
                   (Sample.transfer Runs.megabyte) (Sample.destination [403] 0) 403 "busy").
  { split; [reflexivity|]. exists 200. split_and!; [reflexivity|lia|reflexivity]. }
  split; [exact Hans|].
  destruct (retry_controller (Sample.world Sample.unsized (Sample.destination [403]))
              (Sample.transfer Runs.megabyte) Sample.start)
    as (n & evs & Hst & _ & _ & _ & _ & _ & _ & _ & _ & H403).
  destruct (H403 "busy" Hans) as (Hn & Hd & _).
  exists n, evs. split_and!; [exact Hst|exact Hn|exact Hd].
Defined.

Lemma backoff_schedule_witness :
  let w := Sample.world Sample.unsized (Sample.destination [503; 503]) in
  let d := Sample.transfer Runs.megabyte in
  heap Runs.one_job !! 0%nat = Some Runs.fresh ∧
  nullish Runs.megabyte = false ∧
  answers w d (Sample.destination [503; 503] 0) 503 "busy" ∧
  answers w d (Sample.destination [503; 503] 1) 503 "busy" ∧
  answers w d (Sample.destination [503; 503] 2) 200 (Sample.body_with_id Sample.video) ∧
  ∃ evs r,
    log (runUpload (Sample.world Sample.unsized (Sample.destination [503; 503])) 0
           "job_1709123456789_k3x9q2a" (Sample.direct Runs.megabyte VUndefined)
           Sample.session (VStr "ya29.body") (State Runs.one_job [] 2)).2
    = evs ∧
    attempts evs = 3%nat ∧ delays evs = [2000; 4000] ∧
    heap (mem (runUpload (Sample.world Sample.unsized (Sample.destination [503; 503])) 0
                 "job_1709123456789_k3x9q2a" (Sample.direct Runs.megabyte VUndefined)
                 Sample.session (VStr "ya29.body") (State Runs.one_job [] 2)).2)
      !! 0%nat = Some r ∧
    j_status r = completed.
Proof.
  cbn zeta.
  set (w := Sample.world Sample.unsized (Sample.destination [503; 503])).
  set (d := Sample.transfer Runs.megabyte).
  assert (H1 : answers w d (Sample.destination [503; 503] 0) 503 "busy").
  { split; [reflexivity|]. exists 200. split_and!; [reflexivity|lia|reflexivity]. }
  assert (H2 : answers w d (Sample.destination [503; 503] 1) 503 "busy").
  { split; [reflexivity|]. exists 200. split_and!; [reflexivity|lia|reflexivity]. }
  assert (H3 : answers w d (Sample.destination [503; 503] 2) 200
                 (Sample.body_with_id Sample.video)).
  { split; [reflexivity|]. exists 200. split_and!; [reflexivity|lia|reflexivity]. }
  split_and!; [reflexivity|reflexivity|exact H1|exact H2|exact H3|].
  destruct (backoff_schedule (Sample.world Sample.unsized (Sample.destination [503; 503]))
              (Sample.direct Runs.megabyte VUndefined) 0 "job_1709123456789_k3x9q2a"
              Sample.session (VStr "ya29.body") (State Runs.one_job [] 2)) as [_ Hjob].
  destruct (Hjob Runs.fresh "busy" "busy" (Sample.body_with_id Sample.video) 200
              eq_refl eq_refl H1 H2 H3 (or_introl eq_refl))
    as (evs & r & Hlog & Hatt & Hdel & _ & _ & Hr & Hst).
  exists evs, r. split_and!; [exact Hlog|exact Hatt|exact Hdel|exact Hr|exact Hst].
Defined.

Lemma job_lifecycle_witness :
  ∃ r,
    heap (mem (post_upload (Sample.world Sample.unsized (Sample.destination []))
                 (Sample.direct Runs.megabyte (VBool true)) Sample.start).2)
      !! 0%nat = Some r
    ∧ j_status r = completed
    ∧ last (status_history 0
              (log (post_upload (Sample.world Sample.unsized (Sample.destination []))
                      (Sample.direct Runs.megabyte (VBool true)) Sample.start).2))
      = Some (j_status r).
Proof.
  eexists. split; [vm_compute; reflexivity|]. split; [reflexivity|].
  destruct (job_lifecycle (Sample.world Sample.unsized (Sample.destination []))
              (Sample.direct Runs.megabyte (VBool true)) Sample.empty 0)
    as (_ & _ & _ & _ & _ & Hlast & _).
  apply Hlast. vm_compute. reflexivity.
Defined.


Lemma runUpload_callback_exception_escapes_witness :
  let w := Sample.world Sample.unsized (Sample.destination []) in
  let req := Sample.misdirected Runs.megabyte VUndefined in
  let u := VStr "not a url" in
  let tok := VStr "ya29.body" in
  nullish (contentLength req) = false
  ∧ upload_request_throws w (descriptor_of req u tok (contentLength req))
    = Some Sample.invalid_url
  ∧ src (relay w 0) = SrcResponse 200
  ∧ heap Runs.one_job !! 0%nat = Some Runs.fresh
  ∧ (runUpload w 0 "job_1709123456789_k3x9q2a" req u tok (State Runs.one_job [] 2)).1
    = Abort Sample.invalid_url
  ∧ ∃ r, heap (mem (runUpload w 0 "job_1709123456789_k3x9q2a" req u tok
                      (State Runs.one_job [] 2)).2) !! 0%nat = Some r
         ∧ stranded Runs.fresh r.
Proof.
  cbn zeta.
  destruct (runUpload_callback_exception_escapes
              (Sample.world Sample.unsized (Sample.destination []))
              (Sample.misdirected Runs.megabyte VUndefined) 0 "job_1709123456789_k3x9q2a"
              (VStr "not a url") (VStr "ya29.body") (State Runs.one_job [] 2)
              Runs.fresh Sample.invalid_url 200
              eq_refl eq_refl eq_refl ltac:(lia) eq_refl)
    as (Hrun & Hrec & _).
  split_and!; [reflexivity|reflexivity|reflexivity|reflexivity| |].
  - by rewrite Hrun.
  - rewrite Hrun. exact Hrec.
Defined.

(** A registry of 101 jobs whose creation times do not follow the insertion
    order. *)
Definition crowd : store :=
  Store (map (λ i, Job ("job_" +:+ show (Z.of_nat i)) completed
                       (1709123456789 + Z.of_nat ((i * 37 + 5) mod 101))
                       None Sample.source VNull None None)
             (seq 0 101))
        (map (λ i, ("job_" +:+ show (Z.of_nat i), i)) (seq 0 101))
        VNull.

(** The sweep removes the one job created first, the 50th inserted. *)
Example sweep_crowd :
  filter (λ e, e ∉ jobs (sweep crowd)) (jobs crowd) = [("job_49", 49%nat)].
Proof. vm_compute. reflexivity. Qed.

Lemma sweep_keeps_newest_witness :
  NoDup (JobMap.keys (jobs crowd))
  ∧ (100 < length (jobs crowd))%nat
  ∧ length (jobs (sweep crowd)) = 100%nat.
Proof.
  assert (Hkeys : NoDup (JobMap.keys (jobs crowd))).
  { apply (bool_decide_unpack _). vm_compute. exact I. }
  assert (Hlen : (100 < length (jobs crowd))%nat).
  { vm_compute. lia. }
  split_and!; [exact Hkeys|exact Hlen|].
  destruct (sweep_keeps_newest crowd Hkeys Hlen) as (_ & Hsize & _). exact Hsize.
Defined.

(** * Further properties *)

(** ** The size header *)

(** A text at which a run of digits ends. *)
Definition no_digit_ahead (s : string) : Prop :=
  match s with
  | EmptyString => True
  | String c _ => is_digit c = false
  end.

Lemma digits_stop (acc : Z) (rest : string) :
  no_digit_ahead rest → digits acc true rest = Some acc.
Proof. destruct rest as [|c rest]; [done|]. cbn. by intros ->. Qed.

Lemma append_cons (c : ascii) (s rest : string) :
  String c s +:+ rest = String c (s +:+ rest).
Proof. reflexivity. Qed.

Lemma append_empty_r (s : string) : s +:+ "" = s.
Proof. induction s as [|c s IH]; [done|]. by rewrite append_cons, IH. Qed.

Local Ltac digit_step :=
  cbn [NilEmpty.string_of_uint Pos.of_uint_acc Pos.of_uint]; rewrite append_cons;
  cbn [digits]; change (is_digit _) with true; cbn iota.

Lemma digits_of_uint_acc (u : Decimal.uint) (p : positive) (rest : string) :
  no_digit_ahead rest →
  digits (Z.pos p) true (NilEmpty.string_of_uint u +:+ rest)
  = Some (Z.pos (Pos.of_uint_acc u p)).
Proof.
  intros Hrest. revert p.
  induction u as [|u IH|u IH|u IH|u IH|u IH|u IH|u IH|u IH|u IH|u IH]; intros p;
    [by apply digits_stop|..];
    digit_step; rewrite <- IH; f_equal;
    try match goal with
        | |- context [Z.of_nat ?n] =>
            let v := eval vm_compute in (Z.of_nat n) in change (Z.of_nat n) with v
        end; lia.
Qed.

Lemma digits_of_uint (u : Decimal.uint) (seen : bool) (rest : string) :
  no_digit_ahead rest →
  digits 0 seen (NilEmpty.string_of_uint u +:+ rest) =
  if match u with Decimal.Nil => seen | _ => true end
  then Some (Z.of_N (Pos.of_uint u)) else None.
Proof.
  intros Hrest. revert seen.
  induction u as [|u IH|u IH|u IH|u IH|u IH|u IH|u IH|u IH|u IH|u IH]; intros seen.
  - destruct seen; [by apply digits_stop|].
    destruct rest as [|c rest]; [done|]. change (is_digit c = false) in Hrest.
    change (digits 0 false (String c rest) = None). cbn [digits]. by rewrite Hrest.
  - digit_step. rewrite IH. by destruct u.
  - digit_step. by apply digits_of_uint_acc.
  - digit_step. by apply digits_of_uint_acc.
  - digit_step. by apply digits_of_uint_acc.
  - digit_step. by apply digits_of_uint_acc.
  - digit_step. by apply digits_of_uint_acc.
  - digit_step. by apply digits_of_uint_acc.
  - digit_step. by apply digits_of_uint_acc.
  - digit_step. by apply digits_of_uint_acc.
  - digit_step. by apply digits_of_uint_acc.
Qed.

(** [parseInt] reads back what the decimal rendering of an integer wrote,
    and stops at the first character that is no digit. *)
Lemma parseInt_show (n : Z) (rest : string) :
  no_digit_ahead rest → parseInt (show n +:+ rest) = VNum n.
Proof.
  intros Hrest. unfold show.
  destruct n as [|p|p]; cbn [Z.to_int NilZero.string_of_int].
  - unfold parseInt. cbn [NilZero.string_of_uint NilEmpty.string_of_uint].
    rewrite append_cons. cbn [trimStart].
    change (is_space _) with false. cbn iota.
    change (String "0" ("" +:+ rest))
      with (NilEmpty.string_of_uint (Decimal.D0 Decimal.Nil) +:+ rest).
    by rewrite digits_of_uint.
  - pose proof (Unsigned.to_uint_nonnil p) as Hnil.
    pose proof (digits_of_uint (Pos.to_uint p) false rest Hrest) as Hd.
    rewrite Unsigned.of_to in Hd.
    unfold NilZero.string_of_uint.
    destruct (Pos.to_uint p); [done|..]; unfold parseInt;
      cbn [NilEmpty.string_of_uint] in *; rewrite append_cons in *;
      cbn [trimStart]; change (is_space _) with false; cbn iota; by rewrite Hd.
  - pose proof (Unsigned.to_uint_nonnil p) as Hnil.
    pose proof (digits_of_uint (Pos.to_uint p) false rest Hrest) as Hd.
    rewrite Unsigned.of_to in Hd.
    unfold parseInt. rewrite append_cons. cbn [trimStart].
    change (is_space _) with false. cbn iota.
    unfold NilZero.string_of_uint.
    destruct (Pos.to_uint p); [done|..]; by rewrite Hd.
Qed.

(** X1.  The probe recovers the size a source announces: for a response of
    any status whose Content-Length is the decimal rendering of an integer
    [n] from 0 to 2^53, the probe resolves with exactly [n], after one HEAD
    request and without touching the store. *)
Theorem probe_reads_announced_length (w : World) (url : value) (s : state)
    (n status : Z) (location : option string) :
  0 ≤ n ≤ 2 ^ 53 →
  source_head w (count is_head (log s)) url = HeadReply status (Some (show n)) location →
  getContentLength w url s
  = (Ok (VNum n), State (mem s) (log s ++ [EvIo (IoHead url) (mem s)]) (ticks s)).
Proof.
  intros Hn Hreply. rewrite getContentLength_run, Hreply. cbn [length_of].
  by rewrite <- (append_empty_r (show n)), parseInt_show.
Qed.

Lemma probe_reads_announced_length_witness :
  0 ≤ 1048576 ≤ 2 ^ 53 ∧
  getContentLength (Sample.world (Sample.sized "1048576") (Sample.destination []))
    Sample.source Sample.start
  = (Ok (VNum 1048576),
     State Sample.empty [EvIo (IoHead Sample.source) Sample.empty] 0).
Proof.
  split; [lia|].
  apply (probe_reads_announced_length
           (Sample.world (Sample.sized "1048576") (Sample.destination []))
           Sample.source Sample.start 1048576 200 None); [lia|reflexivity].
Defined.

(** ** What a request does to the outside world *)

Definition is_response (e : event) : bool :=
  match e with EvRespond _ => true | _ => false end.

(** How many times the caller has been answered. *)
Definition responses (l : list event) : nat := count is_response l.

Lemma responses_app (l1 l2 : list event) :
  responses (l1 ++ l2) = (responses l1 + responses l2)%nat.
Proof. apply count_app. Qed.

(** Counting the calls of a kind. *)
Definition tally (p : io → bool) (ops : list io) : nat := length (List.filter p ops).

Definition is_exchange (op : io) : bool :=
  match op with IoToken _ _ _ => true | _ => false end.

Definition is_probe (op : io) : bool :=
  match op with IoHead _ => true | _ => false end.

Definition is_negotiation (op : io) : bool :=
  match op with IoSession _ _ _ _ => true | _ => false end.

Definition is_attempt (op : io) : bool :=
  match op with IoTransfer _ => true | _ => false end.

Definition is_wait (op : io) : bool :=
  match op with IoTimer _ => true | _ => false end.

Lemma tally_app (p : io → bool) (l1 l2 : list io) :
  tally p (l1 ++ l2) = (tally p l1 + tally p l2)%nat.
Proof. unfold tally. by rewrite List.filter_app, length_app. Qed.

Lemma count_is_head (l : list event) : count is_head l = tally is_probe (io_ops l).
Proof.
  unfold count, tally, io_ops. induction l as [|e l IH]; [done|].
  destruct e as [[]| | | |]; cbn; by rewrite ?IH.
Qed.

Section Footprint.

Context (w : World) (req : request).

Local Ltac run_all :=
  unfold prop_message, get_storedRefreshToken, probes_so_far, settled, respond;
  unfold mbind, M_bind, mret, M_ret, try_catch, throw, suspend, emit;
  cbn [mem log ticks fst snd].

Lemma getAccessTokenFromRefresh_run (a b c : value) (s : state) :
  ∃ o, getAccessTokenFromRefresh w a b c s
       = (o, State (mem s) (log s ++ [EvIo (IoToken a b c) (mem s)]) (ticks s))
       ∧ (∀ e, o ≠ Abort e) ∧ o ≠ Throw TUndefined
       ∧ (∀ tok, o = Ok tok → truthy tok = true).
Proof.
  unfold getAccessTokenFromRefresh. run_all.
  repeat case_match; eexists; (split; [reflexivity|]); split_and!; try done;
    by intros tok [= <-].
Qed.

(** The one exchange with the token endpoint a request can make, from the
    store [m]: for the body's refresh credentials when the request carries
    no token, else for the stored refresh token. *)
Definition token_exchange (m : store) : option io :=
  let accessToken := tokenFromRequest req in
  if negb (truthy accessToken) && truthy (clientId req) && truthy (clientSecret req)
     && truthy (refreshToken req)
  then Some (IoToken (clientId req) (clientSecret req) (refreshToken req))
  else if negb (truthy accessToken) && truthy (storedRefreshToken m)
          && truthy (header (YOUTUBE_CLIENT_ID w))
          && truthy (header (YOUTUBE_CLIENT_SECRET w))
  then Some (IoToken (header (YOUTUBE_CLIENT_ID w)) (header (YOUTUBE_CLIENT_SECRET w))
               (storedRefreshToken m))
  else None.

(** The credential step: it ends with a truthy token and no answer given,
    or with the one answer that ends the request; it never throws, reads no
    clock, leaves the store alone and asks the token endpoint at most once. *)
Lemma resolveAccessToken_run (s : state) :
  ∃ o evs,
    resolveAccessToken w req s = (Ok o, State (mem s) (log s ++ evs) (ticks s))
    ∧ io_ops evs = option_list (token_exchange (mem s))
    ∧ responses evs = (if o is Some _ then 0 else 1)%nat
    ∧ (∀ tok, o = Some tok →
         truthy tok = true
         ∧ (token_exchange (mem s) = None → tok = tokenFromRequest req)).
Proof.
  unfold resolveAccessToken, tokenFromBodyRefresh, tokenFromStoredRefresh, token_exchange.
  cbn zeta.
  destruct (negb (truthy (tokenFromRequest req)) && truthy (clientId req)
            && truthy (clientSecret req) && truthy (refreshToken req)) eqn:Hbody.
  { destruct (getAccessTokenFromRefresh_run (clientId req) (clientSecret req)
                (refreshToken req) s) as (o & Hrun & Ha & Hu & Ht).
    run_all. rewrite Hrun. destruct o as [t|[e|]|e]; [| |done|by destruct (Ha e)].
    - pose proof (Ht t eq_refl) as Htrue.
      do 2 (rewrite ?Htrue; cbn [negb andb mem log ticks]).
      eexists (Some t), [_]. split_and!; try done.
      intros tok [= <-]. split; [by apply Ht|done].
    - cbn [mem log ticks]. eexists None, [_; _]. rewrite <- app_assoc.
      split_and!; done. }
  run_all.
  destruct (negb (truthy (tokenFromRequest req)) && truthy (storedRefreshToken (mem s))
            && truthy (header (YOUTUBE_CLIENT_ID w))
            && truthy (header (YOUTUBE_CLIENT_SECRET w))) eqn:Hstored.
  { destruct (getAccessTokenFromRefresh_run (header (YOUTUBE_CLIENT_ID w))
                (header (YOUTUBE_CLIENT_SECRET w)) (storedRefreshToken (mem s)) s)
      as (o & Hrun & Ha & Hu & Ht).
    rewrite Hrun. destruct o as [t|[e|]|e]; [| |done|by destruct (Ha e)].
    - pose proof (Ht t eq_refl) as Htrue.
      do 2 (rewrite ?Htrue; cbn [negb andb mem log ticks]).
      eexists (Some t), [_]. split_and!; try done.
      intros tok [= <-]. split; [by apply Ht|done].
    - cbn [mem log ticks]. eexists None, [_; _]. rewrite <- app_assoc.
      split_and!; done. }
  destruct (truthy (tokenFromRequest req)) eqn:Htok; cbn [negb].
  - eexists (Some _), []. rewrite app_nil_r. destruct s. split_and!; try done.
    by intros tok [= <-].
  - eexists None, [_]. split_and!; done.
Qed.

Lemma createResumableSession_run (tok md ct size : value) (s : state) :
  ∃ o, createResumableSession w tok md ct size s
       = (o, State (mem s) (log s ++ [EvIo (IoSession tok md ct size) (mem s)]) (ticks s))
       ∧ (∀ e, o ≠ Abort e) ∧ o ≠ Throw TUndefined
       ∧ (∀ u, o = Ok u →
            truthy u = true
            ∧ ∃ status location data,
                session_endpoint w tok md ct size
                = SessionReply status (Some location) data
                ∧ u = VStr location).
Proof.
  unfold createResumableSession. run_all.
  destruct (session_endpoint w tok md ct size) as [e|status [location|] data];
    cbn [from_option].
  - eexists. split; [reflexivity|]. split_and!; done.
  - destruct (truthy (VStr location)) eqn:Hloc.
    + eexists. split; [reflexivity|]. split_and!; try done.
      intros u [= <-]. split; [done|]. by eexists _, _, _.
    + eexists. split; [reflexivity|]. split_and!; done.
  - eexists. split; [reflexivity|]. split_and!; done.
Qed.

Lemma length_of_settles (r : head_reply) :
  (∃ n, length_of r = Ok n) ∨ (∃ e, length_of r = Throw (TErr e)).
Proof. destruct r as [e|st [len|] loc]; cbn; eauto. Qed.

(** What the negotiation of the upload URL asks of the outside world, [k]
    probes having been made before: nothing when the request brings the
    URL or lacks the metadata; else a probe when it brings no length, and
    the session request when a length is at hand. *)
Definition negotiation (tok : value) (k : nat) : list io :=
  if truthy (uploadUrl req) then []
  else if negb (truthy (videoMetadata req))
          || negb (from_option truthy false (get_prop (videoMetadata req) "snippet"))
  then []
  else if nullish (contentLength req)
  then match length_of (source_head w k (videoUrl req)) with
       | Ok size =>
           [IoHead (videoUrl req);
            IoSession tok (videoMetadata req) (contentType req) size]
       | _ => [IoHead (videoUrl req)]
       end
  else [IoSession tok (videoMetadata req) (contentType req) (contentLength req)].

(** The size the session is asked for, [k] probes having been made before. *)
Definition session_size (k : nat) : option value :=
  if nullish (contentLength req)
  then match length_of (source_head w k (videoUrl req)) with
       | Ok size => Some size
       | _ => None
       end
  else Some (contentLength req).

(** [u] is the upload URL of a request that brings none: the Location of
    the session negotiated for the token [tok]. *)
Definition negotiated (tok : value) (k : nat) (u : value) : Prop :=
  ∃ size status location data,
    session_size k = Some size
    ∧ negotiation tok k
      = (if nullish (contentLength req) then [IoHead (videoUrl req)] else [])
        ++ [IoSession tok (videoMetadata req) (contentType req) size]
    ∧ session_endpoint w tok (videoMetadata req) (contentType req) size
      = SessionReply status (Some location) data
    ∧ u = VStr location.

(** The negotiation step: it ends with a truthy upload URL, the request's
    own when it brings one, or with the one answer that ends the request. *)
Lemma resolveUploadUrl_run (tok : value) (s : state) :
  ∃ o evs,
    resolveUploadUrl w req tok s = (Ok o, State (mem s) (log s ++ evs) (ticks s))
    ∧ io_ops evs = negotiation tok (count is_head (log s))
    ∧ responses evs = (if o is Some _ then 0 else 1)%nat
    ∧ (∀ u, o = Some u →
         truthy u = true
         ∧ if truthy (uploadUrl req) then u = uploadUrl req
           else negotiated tok (count is_head (log s)) u).
Proof.
  unfold negotiated, session_size, resolveUploadUrl, negotiation. cbn zeta.
  destruct (truthy (uploadUrl req)) eqn:Hu.
  { eexists (Some _), []. rewrite app_nil_r. destruct s. split_and!; try done.
    by intros u [= <-]. }
  destruct (negb (truthy (videoMetadata req))
            || negb (from_option truthy false (get_prop (videoMetadata req) "snippet"))).
  { run_all. eexists None, [_]. split_and!; done. }
  destruct (nullish (contentLength req)).
  - unfold getContentLength. run_all.
    destruct (length_of_settles (source_head w (count is_head (log s)) (videoUrl req)))
      as [[n Hn]|[e Hn]]; rewrite Hn.
    + destruct (createResumableSession_run tok (videoMetadata req) (contentType req) n
                  (State (mem s) (log s ++ [EvIo (IoHead (videoUrl req)) (mem s)]) (ticks s)))
        as (o & Hrun & Ha & Hun & Ht).
      rewrite Hrun. cbn [mem log ticks].
      destruct o as [u|[e|]|e]; [| |done|by destruct (Ha e)];
        cbn [mem log ticks]; rewrite <- !app_assoc.
      * eexists (Some u), [_; _]. split_and!; try done.
        intros u' [= <-]. destruct (Ht u eq_refl) as (Htruthy & st & loc & data & Hs & ->).
        split; [done|]. by eexists n, st, loc, data.
      * eexists None, [_; _; _]. split_and!; done.
    + cbn [mem log ticks]. eexists None, [_; _]. rewrite <- app_assoc. split_and!; done.
  - run_all.
    destruct (createResumableSession_run tok (videoMetadata req) (contentType req)
                (contentLength req) s) as (o & Hrun & Ha & Hun & Ht).
    rewrite Hrun. cbn [mem log ticks].
    destruct o as [u|[e|]|e]; [| |done|by destruct (Ha e)]; cbn [mem log ticks].
    + eexists (Some u), [_]. split_and!; try done.
      intros u' [= <-]. destruct (Ht u eq_refl) as (Htruthy & st & loc & data & Hs & ->).
      split; [done|]. by eexists (contentLength req), st, loc, data.
    + eexists None, [_; _]. rewrite <- app_assoc. split_and!; done.
Qed.

(** What the task asks of the outside world, [k] probes having been made
    before: a probe when the request brings no length, then, a length being
    at hand, [n] attempts with the backoff delays between them. *)
Definition transfer_ops (u tok : value) (k n : nat) : list io :=
  if nullish (contentLength req)
  then match length_of (source_head w k (videoUrl req)) with
       | Ok size => IoHead (videoUrl req) :: schedule (descriptor_of req u tok size) n
       | _ => [IoHead (videoUrl req)]
       end
  else schedule (descriptor_of req u tok (contentLength req)) n.

Lemma streamVideoToYouTube_io (d : descriptor) (s : state) :
  ∃ n, (1 ≤ n ≤ 3)%nat
       ∧ io_ops (log (streamVideoToYouTube w d s).2) = io_ops (log s) ++ schedule d n
       ∧ (streamVideoToYouTube w d s).1 ≠ Throw TUndefined.
Proof.
  destruct (retry_runs w d s) as (n & evs & Hst & _ & Hn & _ & Hout & Hops).
  exists n. rewrite Hst. cbn [log]. rewrite io_ops_app, Hops. split_and!; try done; try lia.
  rewrite Hout. apply settle_not_undefined.
Qed.

Lemma runUpload_io (a : nat) (jobId : string) (u tok : value) (s : state) :
  ∃ n, (1 ≤ n ≤ 3)%nat
       ∧ io_ops (log (runUpload w a jobId req u tok s).2)
         = io_ops (log s) ++ transfer_ops u tok (count is_head (log s)) n.
Proof.
  assert (Hstream : ∀ len s2 ops,
            io_ops (log s2) = io_ops (log s) ++ ops →
            ∃ n, (1 ≤ n ≤ 3)%nat
                 ∧ io_ops (log (let (o, s3) := streamVideoToYouTube w
                                     (descriptor_of req u tok len) s2 in
                                match o with
                                | Ok res =>
                                    (Ok (),
                                     State (completed_with a (clock w (ticks s3)) res (mem s3))
                                           (log s3 ++ completed_block a) (S (ticks s3)))
                                | Throw err => on_failure w a jobId err s3
                                | Abort e => (Abort e, s3)
                                end).2)
                   = io_ops (log s) ++ ops ++ schedule (descriptor_of req u tok len) n).
  { intros len s2 ops Hs2.
    destruct (streamVideoToYouTube_io (descriptor_of req u tok len) s2) as (n & Hn & Hio & Hu).
    exists n. split; [done|].
    destruct (streamVideoToYouTube w (descriptor_of req u tok len) s2) as [[res|[e|]|e] s3];
      cbn [fst snd on_failure log] in *; [| |done|];
      rewrite ?io_ops_app, Hio, Hs2; cbn; by rewrite ?app_nil_r, <- ?app_assoc. }
  rewrite runUpload_unfold. cbn zeta. unfold resolveContentLength, transfer_ops.
  destruct (nullish (contentLength req)).
  - rewrite getContentLength_run. cbn [mem log ticks].
    assert (count is_head (log s ++ [EvSet a (FStatus downloading)])
            = count is_head (log s)) as -> by (rewrite count_app; cbn; lia).
    destruct (length_of_settles (source_head w (count is_head (log s)) (videoUrl req)))
      as [[len Hlen]|[e Hlen]]; rewrite Hlen.
    + apply (Hstream len _ [IoHead (videoUrl req)]). cbn [log].
      rewrite !io_ops_app. cbn. by rewrite ?app_nil_r, <- ?app_assoc.
    + exists 1%nat. split; [lia|]. cbn [on_failure log snd].
      rewrite !io_ops_app. cbn. by rewrite ?app_nil_r, <- ?app_assoc.
  - unfold mret, M_ret.
    destruct (Hstream (contentLength req)
                (State (update a (set_status uploading)
                          (update a (set_status downloading) (mem s)))
                       ((log s ++ [EvSet a (FStatus downloading)])
                          ++ [EvSet a (FStatus uploading)]) (ticks s)) [])
      as (n & Hn & Hio).
    { cbn [log]. rewrite !io_ops_app. cbn. by rewrite ?app_nil_r, <- ?app_assoc. }
    exists n. split; [done|]. exact Hio.
Qed.

Lemma dispatch_io (a : nat) (jobId : string) (u tok : value) (s : state) :
  ∃ n, (1 ≤ n ≤ 3)%nat
       ∧ io_ops (log (dispatch w a jobId req u tok s).2)
         = io_ops (log s) ++ transfer_ops u tok (count is_head (log s)) n.
Proof.
  unfold dispatch. destruct (truthy (sync req)).
  - destruct (runUpload_io a jobId u tok s) as (n & Hn & Hio).
    destruct (runUpload_runs w a jobId req u tok s) as (o & evs & m' & t' & Hrun & Htr).
    exists n. split; [done|]. rewrite <- Hio.
    unfold try_catch, mbind, M_bind. rewrite Hrun.
    destruct (task_trace_settles _ _ _ _ _ _ _ _ _ _ Htr) as [->|[e ->]]; [|done].
    unfold respondWithJob, mbind, M_bind, read, respond, emit. cbn [mem log ticks].
    destruct (decide _); cbn [snd log]; rewrite io_ops_app; cbn; by rewrite app_nil_r.
  - unfold mbind, M_bind, respond, emit, try_catch. cbn [mem log ticks].
    match goal with
    | |- context [runUpload w a jobId req u tok ?s1] =>
        destruct (runUpload_io a jobId u tok s1) as (n & Hn & Hio);
        destruct (runUpload_runs w a jobId req u tok s1)
          as (o & evs & m' & t' & Hrun & Htr)
    end.
    exists n. split; [done|]. cbn [log] in Hio.
    rewrite count_app, io_ops_app in Hio. cbn in Hio.
    rewrite Nat.add_0_r, app_nil_r in Hio. rewrite <- Hio, Hrun.
    by destruct (task_trace_settles _ _ _ _ _ _ _ _ _ _ Htr) as [->|[e ->]].
Qed.

(** Everything a request asks of the outside world, in order: the token
    exchange, if any; then, a token being at hand, the negotiation; then, an
    upload URL being at hand, the task. *)
Inductive request_io (m : store) : list io → Prop :=
| io_rejected :
    request_io m []
| io_unauthenticated :
    request_io m (option_list (token_exchange m))
| io_unnegotiated (tok : value) :
    truthy tok = true →
    (token_exchange m = None → tok = tokenFromRequest req) →
    request_io m (option_list (token_exchange m) ++ negotiation tok 0)
| io_dispatched (tok u : value) (n : nat) :
    truthy (videoUrl req) = true →
    truthy tok = true →
    (token_exchange m = None → tok = tokenFromRequest req) →
    truthy u = true →
    (if truthy (uploadUrl req) then u = uploadUrl req else negotiated tok 0 u) →
    (1 ≤ n ≤ 3)%nat →
    request_io m (option_list (token_exchange m) ++ negotiation tok 0
                    ++ transfer_ops u tok (tally is_probe (negotiation tok 0)) n).

Lemma tally_token_exchange (m : store) :
  tally is_probe (option_list (token_exchange m)) = 0%nat.
Proof. unfold token_exchange. cbn zeta. by repeat case_match. Qed.

Lemma post_upload_io (m : store) (t : nat) :
  request_io m (io_ops (log (post_upload w req (State m [] t)).2)).
Proof.
  unfold post_upload. destruct (truthy (videoUrl req)) eqn:Hv; cbn [negb];
    [|apply io_rejected].
  unfold mbind at 1. unfold M_bind at 1.
  destruct (resolveAccessToken_run (State m [] t)) as (o0 & evs0 & Hrun0 & Hio0 & _ & Htok).
  rewrite Hrun0. cbn [mem log ticks app] in *.
  destruct o0 as [tok|];
    [|unfold mret, M_ret; cbn [snd log]; rewrite Hio0; apply io_unauthenticated].
  destruct (Htok tok eq_refl) as [Htruthy Hsame].
  unfold mbind, M_bind, Date_now, new_object, jobs_set.
  cbn [mem log ticks heap jobs storedRefreshToken].
  match goal with
  | |- context [resolveUploadUrl w req tok ?s1] =>
      destruct (resolveUploadUrl_run tok s1) as (o1 & evs1 & Hrun1 & Hio1 & _ & Hu)
  end.
  rewrite Hrun1. cbn [mem log ticks] in *.
  match type of Hio1 with
  | context [count is_head ?l] =>
      assert (Hk : count is_head l = 0%nat)
        by (rewrite count_app, count_is_head, Hio0, tally_token_exchange; done);
      rewrite Hk in Hio1
  end.
  destruct o1 as [u|].
  - destruct (Hu u eq_refl) as [Hutruthy Hown]. rewrite Hk in Hown.
    match goal with
    | |- context [dispatch w ?a ?jobId req u tok ?s2] =>
        destruct (dispatch_io a jobId u tok s2) as (n & Hn & Hio)
    end.
    rewrite Hio. cbn [log].
    rewrite count_app, count_app, !count_is_head, !io_ops_app, Hio0, Hio1,
      tally_token_exchange.
    cbn. rewrite app_nil_r, <- app_assoc. by apply io_dispatched.
  - unfold mret, M_ret. cbn [snd log]. rewrite !io_ops_app, Hio0, Hio1. cbn.
    rewrite app_nil_r. by apply io_unnegotiated.
Qed.

Lemma passive_responses (m : store) (ok : event → Prop) (p : list event) :
  (∀ e, ok e → is_response e = false) →
  Forall (λ e, passive m e ∧ ok e) p → responses p = 0%nat.
Proof.
  intros Hok Hp. induction Hp as [|e l [_ He] _ IH]; [done|].
  unfold responses, count in *. cbn. by rewrite (Hok e He).
Qed.

Lemma task_no_response (a : nat) (jobId : string) (u tok : value) (m : store)
    (o : outcome unit) (evs : list event) (m' : store) :
  task_trace w a jobId req u tok m o evs m' → responses evs = 0%nat.
Proof.
  assert (Hhead : ∀ e, head_event (videoUrl req) e → is_response e = false).
  { by intros [[]| | | |]. }
  assert (Hrelay : ∀ len e, relay_event len e → is_response e = false).
  { by intros len [[]| | | |]. }
  intros [p1 t e k m0 Hn He Hp1|p1 p2 len t res k m0 m1 Hres Hp1 Hlen Hp2
         |p1 p2 len t e k m0 m1 Hres Hp1 Hlen Hp2|p1 p2 len e k m0 m1 Hres Hp1 Hlen Hp2].
  all: rewrite ?responses_app, ?(passive_responses _ _ _ Hhead Hp1),
         ?(passive_responses _ _ _ (Hrelay len) Hp2); reflexivity.
Qed.

(** What the request logs from [s] on is answered exactly once, unless the
    run stops in a callback, when the synchronous mode has not answered. *)
Lemma post_upload_run (s : state) :
  ∃ o s',
    post_upload w req s = (o, s') ∧
    ((o = Ok () ∧ responses (log s') = S (responses (log s)))
     ∨ (∃ e, o = Abort e
             ∧ responses (log s')
               = (responses (log s) + if truthy (sync req) then 0 else 1)%nat)).
Proof.
  unfold post_upload. destruct (negb (truthy (videoUrl req))).
  { eexists _, _. split; [reflexivity|]. left. run_all. rewrite responses_app. cbn.
    split; [done|lia]. }
  unfold mbind at 1. unfold M_bind at 1.
  destruct (resolveAccessToken_run s) as (o0 & evs0 & Hrun0 & _ & Hr0 & _).
  rewrite Hrun0.
  destruct o0 as [tok|]; last first.
  { eexists _, _. split; [reflexivity|]. left. cbn [log]. rewrite responses_app, Hr0.
    split; [done|lia]. }
  unfold mbind, M_bind, Date_now, new_object, jobs_set.
  cbn [mem log ticks heap jobs storedRefreshToken].
  match goal with
  | |- context [resolveUploadUrl w req tok ?s1] =>
      destruct (resolveUploadUrl_run tok s1) as (o1 & evs1 & Hrun1 & _ & Hr1 & _)
  end.
  rewrite Hrun1. cbn [mem log ticks].
  destruct o1 as [u|]; last first.
  { eexists _, _. split; [reflexivity|]. left. cbn [log].
    rewrite !responses_app, Hr0, Hr1. cbn. split; [done|lia]. }
  match goal with
  | |- context [dispatch w ?a ?jobId req u tok ?s2] =>
      destruct (dispatch_runs w req a jobId u tok s2) as (o & evs & m' & t' & Htr & ->)
  end.
  pose proof (task_no_response _ _ _ _ _ _ _ _ Htr) as Hnone.
  eexists _, _. split; [reflexivity|]. cbn [log].
  destruct (task_trace_settles _ _ _ _ _ _ _ _ _ _ Htr) as [->|[e ->]];
    [left|right; exists e]; (split; [done|]);
    destruct (truthy (sync req)); rewrite ?responses_app, Hnone, Hr0, Hr1; cbn; lia.
Qed.

Lemma tally_schedule (d : descriptor) (n : nat) :
  (1 ≤ n ≤ 3)%nat →
  tally is_exchange (schedule d n) = 0%nat ∧ tally is_probe (schedule d n) = 0%nat
  ∧ tally is_negotiation (schedule d n) = 0%nat
  ∧ tally is_attempt (schedule d n) = n ∧ tally is_wait (schedule d n) = (n - 1)%nat.
Proof.
  intros Hn. assert (n = 1 ∨ n = 2 ∨ n = 3)%nat as [->|[->| ->]] by lia; done.
Qed.

Lemma in_schedule (d : descriptor) (n : nat) (op : io) :
  op ∈ schedule d n →
  op = IoTransfer d ∨ ∃ i, op = IoTimer (Z.min (1000 * 2 ^ Z.of_nat i) 10000).
Proof.
  unfold schedule. rewrite elem_of_app, list_elem_of_singleton.
  intros [Hin| ->]; [|by left].
  induction (seq 1 (n - 1)) as [|i l IH]; [by apply elem_of_nil in Hin|].
  cbn in Hin. rewrite !elem_of_cons in Hin.
  destruct Hin as [-> |[-> |Hin]]; [by left|right; by exists i|by apply IH].
Qed.

Lemma tally_negotiation (tok : value) (k : nat) :
  tally is_exchange (negotiation tok k) = 0%nat
  ∧ (tally is_probe (negotiation tok k) ≤ 1)%nat
  ∧ (tally is_negotiation (negotiation tok k) ≤ 1)%nat
  ∧ tally is_attempt (negotiation tok k) = 0%nat
  ∧ tally is_wait (negotiation tok k) = 0%nat.
Proof. unfold negotiation. repeat case_match; cbn; lia. Qed.

Lemma tally_transfer_ops (u tok : value) (k n : nat) :
  (1 ≤ n ≤ 3)%nat →
  tally is_exchange (transfer_ops u tok k n) = 0%nat
  ∧ (tally is_probe (transfer_ops u tok k n) ≤ 1)%nat
  ∧ tally is_negotiation (transfer_ops u tok k n) = 0%nat
  ∧ (tally is_attempt (transfer_ops u tok k n) ≤ 3)%nat
  ∧ (tally is_wait (transfer_ops u tok k n) ≤ 2)%nat.
Proof.
  intros Hn. unfold transfer_ops.
  repeat case_match;
    try match goal with
        | |- context [schedule ?d n] =>
            destruct (tally_schedule d n Hn) as (H1 & H2 & H3 & H4 & H5)
        end;
    rewrite ?(tally_app _ [_] (schedule _ _));
    change (IoHead ?v :: schedule ?d n) with ([IoHead v] ++ schedule d n);
    rewrite ?tally_app, ?H1, ?H2, ?H3, ?H4, ?H5; cbn; lia.
Qed.

Lemma tally_exchange (m : store) :
  (tally is_exchange (option_list (token_exchange m)) ≤ 1)%nat
  ∧ tally is_probe (option_list (token_exchange m)) = 0%nat
  ∧ tally is_negotiation (option_list (token_exchange m)) = 0%nat
  ∧ tally is_attempt (option_list (token_exchange m)) = 0%nat
  ∧ tally is_wait (option_list (token_exchange m)) = 0%nat.
Proof. unfold token_exchange. cbn zeta. repeat case_match; cbn; lia. Qed.

Lemma tally_none (p : io → bool) (ops : list io) (op : io) :
  tally p ops = 0%nat → p op = true → op ∉ ops.
Proof.
  unfold tally. intros Hnone Hp Hin.
  assert (op ∈ List.filter p ops) as Hf.
  { apply list_elem_of_In, filter_In. split; [by apply list_elem_of_In|done]. }
  destruct (List.filter p ops); [by apply elem_of_nil in Hf|done].
Qed.

(** The descriptor of every attempt of the task. *)
Lemma in_transfer_ops (u tok : value) (k n : nat) (d : descriptor) :
  IoTransfer d ∈ transfer_ops u tok k n →
  ∃ size, d = descriptor_of req u tok size
          ∧ session_size k = Some size
          ∧ transfer_ops u tok k n
            = (if nullish (contentLength req) then [IoHead (videoUrl req)] else [])
              ++ schedule d n.
Proof.
  unfold transfer_ops, session_size. intros Hin.
  destruct (nullish (contentLength req)).
  - destruct (length_of (source_head w k (videoUrl req))) as [size| |].
    + apply elem_of_cons in Hin as [Hin|Hin]; [done|].
      apply in_schedule in Hin as [[= ->]|[i Hi]]; [|done]. by exists size.
    + apply elem_of_cons in Hin as [Hin|Hin]; [done|by apply elem_of_nil in Hin].
    + apply elem_of_cons in Hin as [Hin|Hin]; [done|by apply elem_of_nil in Hin].
  - apply in_schedule in Hin as [[= ->]|[i Hi]]; [|done]. by exists (contentLength req).
Qed.

(** A request that reaches an attempt: its calls, and what the attempt
    carries. *)
Lemma request_attempt (m : store) (t : nat) (d : descriptor) :
  IoTransfer d ∈ io_ops (log (post_upload w req (State m [] t)).2) →
  ∃ tok u size n,
    truthy (videoUrl req) = true ∧ truthy tok = true ∧ truthy u = true
    ∧ (token_exchange m = None → tok = tokenFromRequest req)
    ∧ (if truthy (uploadUrl req) then u = uploadUrl req else negotiated tok 0 u)
    ∧ (1 ≤ n ≤ 3)%nat
    ∧ d = descriptor_of req u tok size
    ∧ session_size (tally is_probe (negotiation tok 0)) = Some size
    ∧ io_ops (log (post_upload w req (State m [] t)).2)
      = option_list (token_exchange m) ++ negotiation tok 0
        ++ (if nullish (contentLength req) then [IoHead (videoUrl req)] else [])
        ++ schedule d n.
Proof.
  intros Hin.
  destruct (post_upload_io m t) as [| |tok Htok Hsame|tok u n Hv Htok Hsame Hu Hown Hn].
  - by apply elem_of_nil in Hin.
  - destruct (tally_exchange m) as (_ & _ & _ & Hnone & _).
    by destruct (tally_none _ _ (IoTransfer d) Hnone eq_refl).
  - destruct (tally_exchange m) as (_ & _ & _ & Hnone & _).
    destruct (tally_negotiation tok 0) as (_ & _ & _ & Hnone' & _).
    apply elem_of_app in Hin as [Hin|Hin].
    + by destruct (tally_none _ _ (IoTransfer d) Hnone eq_refl).
    + by destruct (tally_none _ _ (IoTransfer d) Hnone' eq_refl).
  - destruct (tally_exchange m) as (_ & _ & _ & Hnone & _).
    destruct (tally_negotiation tok 0) as (_ & _ & _ & Hnone' & _).
    apply elem_of_app in Hin as [Hin|Hin];
      [by destruct (tally_none _ _ (IoTransfer d) Hnone eq_refl)|].
    apply elem_of_app in Hin as [Hin|Hin];
      [by destruct (tally_none _ _ (IoTransfer d) Hnone' eq_refl)|].
    destruct (in_transfer_ops _ _ _ _ _ Hin) as (size & -> & Hsize & Hops).
    exists tok, u, size, n. rewrite Hops. split_and!; try done; lia.
Qed.

End Footprint.

(** X2.  A request makes at most one exchange with the token endpoint
    (lines 182-205), at most two probes of the source (lines 240 and 265),
    at most one session negotiation (line 249), at most three attempts and
    at most two waits (lines 443-456): nine calls at the most. *)
Theorem request_calls_are_bounded (w : World) (req : request) (m : store) (t : nat) :
  let ops := io_ops (log (post_upload w req (State m [] t)).2) in
  (tally is_exchange ops ≤ 1 ∧ tally is_probe ops ≤ 2 ∧ tally is_negotiation ops ≤ 1
   ∧ tally is_attempt ops ≤ 3 ∧ tally is_wait ops ≤ 2 ∧ length ops ≤ 9)%nat.
Proof.
  cbn zeta.
  assert (Hall : ∀ ops : list io,
            length ops = (tally is_exchange ops + tally is_probe ops
                          + tally is_negotiation ops + tally is_attempt ops
                          + tally is_wait ops)%nat).
  { unfold tally. induction ops as [|[] ops IH]; cbn in *; lia. }
  rewrite Hall.
  pose proof (tally_exchange w req m) as (E1 & E2 & E3 & E4 & E5).
  destruct (post_upload_io w req m t) as [| |tok Htok Hsame|tok u n Hv Htok Hsame Hu Hown Hn].
  - cbn. lia.
  - lia.
  - pose proof (tally_negotiation w req tok 0) as (N1 & N2 & N3 & N4 & N5).
    rewrite !tally_app. lia.
  - pose proof (tally_negotiation w req tok 0) as (N1 & N2 & N3 & N4 & N5).
    pose proof (tally_transfer_ops w req u tok (tally is_probe (negotiation w req tok 0)) n Hn)
      as (T1 & T2 & T3 & T4 & T5).
    rewrite !tally_app. lia.
Qed.

(** X3.  The handler answers every request exactly once and never throws; the one
    request left without an answer is a synchronous one whose task stops in
    a callback of an attempt. *)
Theorem post_upload_answers_once (w : World) (req : request) (s : state) :
  match (post_upload w req s).1 with
  | Ok _ => responses (log (post_upload w req s).2) = S (responses (log s))
  | Abort _ =>
      responses (log (post_upload w req s).2)
      = (responses (log s) + if truthy (sync req) then 0 else 1)%nat
  | Throw _ => False
  end.
Proof.
  destruct (post_upload_run w req s) as (o & s' & -> & [[-> H]|(e & -> & H)]); done.
Qed.

(** X4.  A request that brings neither an upload URL nor a length, and reaches
    an attempt, has probed the source twice: the session was negotiated for
    the size the first probe read (line 240), every attempt sends the size
    the second probe read (line 265), to the Location the session
    answered. *)
Theorem negotiated_transfer_probes_twice (w : World) (req : request) (m : store)
    (t : nat) (d : descriptor) :
  truthy (uploadUrl req) = false →
  nullish (contentLength req) = true →
  IoTransfer d ∈ io_ops (log (post_upload w req (State m [] t)).2) →
  ∃ tok status location data size1 size2 n,
    length_of (source_head w 0 (videoUrl req)) = Ok size1
    ∧ length_of (source_head w 1 (videoUrl req)) = Ok size2
    ∧ session_endpoint w tok (videoMetadata req) (contentType req) size1
      = SessionReply status (Some location) data
    ∧ d = descriptor_of req (VStr location) tok size2
    ∧ io_ops (log (post_upload w req (State m [] t)).2)
      = option_list (token_exchange w req m)
        ++ [IoHead (videoUrl req);
            IoSession tok (videoMetadata req) (contentType req) size1;
            IoHead (videoUrl req)]
        ++ schedule d n.
Proof.
  intros Hu Hnull Hin.
  destruct (request_attempt w req m t d Hin)
    as (tok & u & size2 & n & _ & _ & _ & _ & Hown & _ & -> & Hsize & ->).
  rewrite Hu in Hown.
  destruct Hown as (size1 & st & location & data & Hfirst & Hneg & Hsession & ->).
  rewrite Hneg, Hnull in *. cbn in Hsize.
  unfold session_size in *. rewrite Hnull in *.
  exists tok, st, location, data, size1, size2, n. split_and!.
  - by destruct (length_of (source_head w 0 (videoUrl req))) as [?| |]; simplify_eq.
  - by destruct (length_of (source_head w 1 (videoUrl req))) as [?| |]; simplify_eq.
  - done.
  - done.
  - by rewrite <- !app_assoc.
Qed.

(** X5.  A request that brings its upload URL negotiates no session, whatever
    metadata it carries, probes the source at most once, and sends every
    attempt to that URL. *)
Theorem supplied_upload_url_is_used (w : World) (req : request) (m : store) (t : nat) :
  truthy (uploadUrl req) = true →
  let ops := io_ops (log (post_upload w req (State m [] t)).2) in
  tally is_negotiation ops = 0%nat
  ∧ (tally is_probe ops ≤ 1)%nat
  ∧ ∀ d, IoTransfer d ∈ ops → d_uploadUrl d = uploadUrl req.
Proof.
  intros Hu. cbn zeta.
  assert (Hneg : ∀ tok, negotiation w req tok 0 = []).
  { intros tok. unfold negotiation. by rewrite Hu. }
  assert (Hcount : tally is_negotiation
                     (io_ops (log (post_upload w req (State m [] t)).2)) = 0%nat
                   ∧ (tally is_probe
                        (io_ops (log (post_upload w req (State m [] t)).2)) ≤ 1)%nat).
  { pose proof (tally_exchange w req m) as (E1 & E2 & E3 & E4 & E5).
    destruct (post_upload_io w req m t) as [| |tok Htok Hsame|tok u n Hv Htok Hsame Hu' Hown Hn];
      rewrite ?Hneg, ?app_nil_r, ?app_nil_l, ?tally_app.
    - cbn. lia.
    - lia.
    - lia.
    - change (tally is_probe []) with 0%nat.
      pose proof (tally_transfer_ops w req u tok 0 n Hn) as (T1 & T2 & T3 & T4 & T5). lia. }
  split_and!; [apply Hcount|apply Hcount|].
  - intros d Hin.
    destruct (request_attempt w req m t d Hin)
      as (tok & u & size & n & _ & _ & _ & _ & Hown & _ & -> & _).
    rewrite Hu in Hown. by subst u.
Qed.

(** X6.  The attempts of a request all carry the same descriptor: a retry sends
    the whole file again to the same upload URL with the same token and
    length; and no attempt is made without a truthy source URL, token and
    upload URL. *)
Theorem attempts_repeat_one_transfer (w : World) (req : request) (m : store) (t : nat)
    (d1 d2 : descriptor) :
  let ops := io_ops (log (post_upload w req (State m [] t)).2) in
  IoTransfer d1 ∈ ops → IoTransfer d2 ∈ ops →
  d1 = d2
  ∧ d_videoUrl d1 = videoUrl req ∧ d_contentType d1 = contentType req
  ∧ truthy (d_videoUrl d1) = true ∧ truthy (d_oauthToken d1) = true
  ∧ truthy (d_uploadUrl d1) = true.
Proof.
  cbn zeta. intros H1 H2.
  destruct (request_attempt w req m t d1 H1)
    as (tok & u & size & n & Hv & Htok & Hu & _ & _ & Hn & -> & _ & Hops).
  split_and!; try done.
  rewrite Hops in H2.
  pose proof (tally_exchange w req m) as (_ & _ & _ & E4 & _).
  pose proof (tally_negotiation w req tok 0) as (_ & _ & _ & N4 & _).
  apply elem_of_app in H2 as [H2|H2];
    [by destruct (tally_none _ _ (IoTransfer d2) E4 eq_refl)|].
  apply elem_of_app in H2 as [H2|H2];
    [by destruct (tally_none _ _ (IoTransfer d2) N4 eq_refl)|].
  apply elem_of_app in H2 as [H2|H2].
  - destruct (nullish (contentLength req)); [|by apply elem_of_nil in H2].
    apply list_elem_of_singleton in H2. done.
  - apply in_schedule in H2 as [[= ->]|[i Hi]]; done.
Qed.

(** ** The record of a job *)

(** No completion time, result or error yet. *)
Definition blank (j : job) : Prop :=
  j_completedAt j = None ∧ j_result j = None ∧ j_error j = None.

(** A record a caller can make sense of: completed with a completion time
    and a result and no error; failed with a completion time and an error
    and no result; otherwise none of the three. *)
Definition well_formed (r : job) : Prop :=
  match j_status r with
  | completed => is_Some (j_completedAt r) ∧ is_Some (j_result r) ∧ j_error r = None
  | failed => is_Some (j_completedAt r) ∧ j_result r = None ∧ is_Some (j_error r)
  | _ => blank r
  end.

(** The fields written once, by the object literal of lines 216-224. *)
Definition same_identity (j r : job) : Prop :=
  j_id r = j_id j ∧ j_createdAt r = j_createdAt j ∧ j_videoUrl r = j_videoUrl j
  ∧ j_videoMetadata r = j_videoMetadata j.

Lemma update_lookup_ne (a b : nat) (f : job → job) (m : store) :
  a ≠ b → heap (update a f m) !! b = heap m !! b.
Proof. apply list_lookup_alter_ne. Qed.

Section Records.

Context (w : World) (req : request).

(** The task writes to its own object only, and a poll sees it well formed
    at every suspension and at the end. *)
Lemma task_records (a : nat) (jobId : string) (u tok : value) (m : store)
    (o : outcome unit) (evs : list event) (m' : store) (j : job) :
  task_trace w a jobId req u tok m o evs m' →
  heap m !! a = Some j → blank j →
  Forall (λ v, ∃ r, heap v !! a = Some r ∧ well_formed r ∧ same_identity j r)
         (views evs ++ [m'])
  ∧ jobs m' = jobs m ∧ storedRefreshToken m' = storedRefreshToken m
  ∧ (∀ b, b ≠ a → heap m' !! b = heap m !! b).
Proof.
  intros Htr Hj (Hc & Hr & He).
  assert (Hseen : ∀ v ok p,
            (∃ r, heap v !! a = Some r ∧ well_formed r ∧ same_identity j r) →
            Forall (λ e, passive v e ∧ ok e) p →
            Forall (λ v, ∃ r, heap v !! a = Some r ∧ well_formed r ∧ same_identity j r)
                   (views p)).
  { intros v ok p Hv Hp. eapply Forall_impl; [by eapply passive_views|]. by intros ? ->. }
  destruct Htr as [p1 t e k m0 Hn Hlen Hp1|p1 p2 len t res k m0 m1 Hres Hp1 Hlen Hp2
         |p1 p2 len t e k m0 m1 Hres Hp1 Hlen Hp2|p1 p2 len e k m0 m1 Hres Hp1 Hlen Hp2].
  all: unfold failed_block, completed_block, failed_with, completed_with;
    subst m0; try subst m1.
  all: split_and!; [| done | done |
         by intros b Hb; rewrite ?update_lookup_ne by done ].
  all: repeat rewrite ?views_app.
  all: repeat (apply Forall_app; split); try by (cbn; constructor).
  all: try (eapply Hseen; [|eassumption]).
  all: try match goal with |- Forall _ [_] => apply Forall_singleton end.
  all: rewrite !update_lookup, Hj; cbn; eexists; (split; [reflexivity|]);
       unfold well_formed, blank, same_identity; cbn; by rewrite ?Hc, ?Hr, ?He.
Qed.

Lemma responses_none (l : list event) (r : response) :
  responses l = 0%nat → EvRespond r ∉ l.
Proof.
  unfold responses, count. intros Hnone Hin.
  assert (EvRespond r ∈ List.filter is_response l) as Hf.
  { apply list_elem_of_In, filter_In. split; [by apply list_elem_of_In|done]. }
  destruct (List.filter is_response l); [by apply elem_of_nil in Hf|done].
Qed.

(** Before the job is dispatched the handler answers with errors only. *)
Lemma auth_answers (m : store) (p : list event) (r : response) :
  Forall (λ e, passive m e ∧ auth_event e) p → EvRespond r ∈ p →
  400 ≤ res_status r ∧ ∃ e d, res_json r = PFailure e d.
Proof.
  intros Hp Hin. rewrite Forall_forall in Hp. destruct (Hp _ Hin) as [_ [H|H]]; [done|].
  cbn in H. destruct H as [? H]. split; [done|]. destruct (res_json r); eauto; done.
Qed.

Lemma negotiation_answers (m : store) (p : list event) (r : response) :
  Forall (λ e, passive m e ∧ negotiation_event req e) p → EvRespond r ∈ p →
  400 ≤ res_status r ∧ ∃ e d, res_json r = PFailure e d.
Proof.
  intros Hp Hin. rewrite Forall_forall in Hp.
  destruct (Hp _ Hin) as [_ [[_ H]|[(n & H & _)|H]]]; [done|done|].
  cbn in H. destruct H as [? H]. split; [done|]. destruct (res_json r); eauto; done.
Qed.

(** The record the handler creates. *)
Definition fresh_job (jobId : string) (createdAt : Z) : job :=
  Job jobId pending createdAt None (videoUrl req) (or_else (videoMetadata req) VNull)
      None None.

Lemma created_lookup (m : store) (jobId : string) (createdAt : Z) :
  heap (created req m jobId createdAt) !! length (heap m)
  = Some (fresh_job jobId createdAt).
Proof. unfold created. cbn [heap]. by rewrite list_lookup_middle. Qed.

Lemma created_lookup_lt (m : store) (jobId : string) (createdAt : Z) (b : nat) :
  (b < length (heap m))%nat →
  heap (created req m jobId createdAt) !! b = heap m !! b.
Proof. intros Hb. unfold created. cbn [heap]. by rewrite lookup_app_l. Qed.

(** What a request leaves of the store [m]: nothing changed; or the fresh
    job stored under its identifier; or that job as the task left it. *)
Lemma request_store (m : store) (evs : list event) (m' : store) :
  request_trace w req m evs m' →
  let a := length (heap m) in
  storedRefreshToken m' = storedRefreshToken m
  ∧ (∀ b, (b < a)%nat → heap m' !! b = heap m !! b)
  ∧ (jobs m' = jobs m ∧ heap m' = heap m
     ∨ ∃ jobId createdAt r,
         jobs m' = JobMap.set jobId a (jobs m)
         ∧ heap m' !! a = Some r
         ∧ well_formed r ∧ same_identity (fresh_job jobId createdAt) r)
  ∧ Forall (λ v, ∀ r, heap v !! a = Some r →
                      well_formed r ∧ ∃ jobId createdAt,
                        same_identity (fresh_job jobId createdAt) r)
           (views evs ++ [m']).
Proof.
  assert (Hold : ∀ ok p, Forall (λ e, passive m e ∧ ok e) p →
            Forall (λ v, ∀ r, heap v !! length (heap m) = Some r →
                              well_formed r ∧ ∃ jobId createdAt,
                                same_identity (fresh_job jobId createdAt) r)
                   (views p)).
  { intros ok p Hp. eapply Forall_impl; [by eapply passive_views|].
    intros v -> r. by rewrite lookup_ge_None_2. }
  assert (Hfresh : ∀ jobId createdAt r,
            heap (created req m jobId createdAt) !! length (heap m) = Some r →
            well_formed r ∧ ∃ jobId createdAt, same_identity (fresh_job jobId createdAt) r).
  { intros jobId createdAt r. rewrite created_lookup. intros [= <-].
    split; [done|]. by exists jobId, createdAt. }
  assert (Hnew : ∀ jobId createdAt ok p,
            Forall (λ e, passive (created req m jobId createdAt) e ∧ ok e) p →
            Forall (λ v, ∀ r, heap v !! length (heap m) = Some r →
                              well_formed r ∧ ∃ jobId createdAt,
                                same_identity (fresh_job jobId createdAt) r)
                   (views p)).
  { intros jobId createdAt ok p Hp. eapply Forall_impl; [by eapply passive_views|].
    intros v ->. apply Hfresh. }
  assert (Htask : ∀ jobId createdAt u tok o evs' m',
            task_trace w (length (heap m)) jobId req u tok
              (created req m jobId createdAt) o evs' m' →
            Forall (λ v, ∀ r, heap v !! length (heap m) = Some r →
                              well_formed r ∧ ∃ jobId createdAt,
                                same_identity (fresh_job jobId createdAt) r)
                   (views evs' ++ [m'])
            ∧ storedRefreshToken m' = storedRefreshToken m
            ∧ (∀ b, (b < length (heap m))%nat → heap m' !! b = heap m !! b)
            ∧ ∃ r, jobs m' = JobMap.set jobId (length (heap m)) (jobs m)
                   ∧ heap m' !! length (heap m) = Some r
                   ∧ well_formed r ∧ same_identity (fresh_job jobId createdAt) r).
  { intros jobId createdAt u tok o evs' m'' Htr.
    destruct (task_records _ _ _ _ _ _ _ _ _ Htr (created_lookup m jobId createdAt))
      as (Hviews & Hjobs & Hstored & Hother); [done|].
    split_and!.
    - eapply Forall_impl; [exact Hviews|]. intros v (r & Hr & Hwf & Hid) r'.
      rewrite Hr. intros [= <-]. split; [done|]. by exists jobId, createdAt.
    - by rewrite Hstored.
    - intros b Hb. rewrite Hother by lia. by apply created_lookup_lt.
    - apply Forall_app in Hviews as [_ Hlast].
      apply Forall_singleton in Hlast as (r & Hr & Hwf & Hid).
      exists r. by rewrite Hjobs. }
  intros [p0 Hp0|p0 p1 now createdAt a m1 Hp0 Hp1
         |p0 p1 evs' now createdAt mf u tok o a jobId m1 Hp0 Hp1 Hsync Htr
         |p0 p1 evs' now createdAt mf u tok o a jobId m1 Hp0 Hp1 Hsync Htr]; cbn zeta.
  - split_and!; [done|done|by left|].
    apply Forall_app. split; [by eapply Hold|].
    apply Forall_singleton. intros r. by rewrite lookup_ge_None_2.
  - split_and!; [done|by intros b Hb; apply created_lookup_lt| |].
    + right. exists (new_jobId w now), createdAt, (fresh_job (new_jobId w now) createdAt).
      split_and!; [done|by apply created_lookup|done|done].
    + rewrite !views_app, <- !app_assoc. repeat (apply Forall_app; split).
      * by eapply Hold.
      * constructor.
      * by eapply Hnew.
      * apply Forall_singleton, Hfresh.
  - destruct (Htask _ _ _ _ _ _ _ Htr) as (Hviews & Hstored & Hother & r & Hjobs & Hr & Hwf & Hid).
    split_and!; [done|done| |].
    + right. by exists (new_jobId w now), createdAt, r.
    + rewrite !views_app, <- !app_assoc. repeat (apply Forall_app; split).
      * by eapply Hold.
      * constructor.
      * by eapply Hnew.
      * constructor.
      * by apply Forall_app in Hviews as [? _].
      * by apply Forall_app in Hviews as [_ ?].
  - destruct (Htask _ _ _ _ _ _ _ Htr) as (Hviews & Hstored & Hother & r & Hjobs & Hr & Hwf & Hid).
    split_and!; [done|done| |].
    + right. by exists (new_jobId w now), createdAt, r.
    + rewrite !views_app, <- !app_assoc. repeat (apply Forall_app; split).
      * by eapply Hold.
      * constructor.
      * by eapply Hnew.
      * by apply Forall_app in Hviews as [? _].
      * destruct o; constructor.
      * by apply Forall_app in Hviews as [_ ?].
Qed.

(** The three kinds of answer the handler gives, and what the store holds
    once the request has run. *)
Inductive answer_kind (m m' : store) (r : response) : Prop :=
| answer_error (e : string) (d : option string) :
    400 ≤ res_status r → res_json r = PFailure e d → answer_kind m m' r
| answer_accepted (jobId : string) (rec : job) :
    res_status r = 202 →
    res_json r = PAccepted jobId ("/job/" +:+ jobId) →
    truthy (sync req) = false →
    jobs m' = JobMap.set jobId (length (heap m)) (jobs m) →
    heap m' !! length (heap m) = Some rec →
    j_id rec = jobId →
    j_status rec ∈ [uploading; completed; failed] →
    answer_kind m m' r
| answer_final (rec : job) :
    res_json r = PJob rec →
    truthy (sync req) = true →
    jobs m' = JobMap.set (j_id rec) (length (heap m)) (jobs m) →
    heap m' !! length (heap m) = Some rec →
    (res_status r = 201 ∧ j_status rec = completed
     ∨ res_status r = 500 ∧ j_status rec = failed) →
    answer_kind m m' r.

Lemma request_answers (m : store) (evs : list event) (m' : store) (r : response) :
  request_trace w req m evs m' → EvRespond r ∈ evs → answer_kind m m' r.
Proof.
  assert (Htask : ∀ jobId createdAt u tok o evs' m',
            task_trace w (length (heap m)) jobId req u tok
              (created req m jobId createdAt) o evs' m' →
            ∃ rec, jobs m' = JobMap.set jobId (length (heap m)) (jobs m)
                   ∧ heap m' !! length (heap m) = Some rec
                   ∧ j_id rec = jobId
                   ∧ match o with
                     | Ok _ => j_status rec = completed ∨ j_status rec = failed
                     | _ => j_status rec = uploading
                     end).
  { intros jobId createdAt u tok o evs' m'' Htr.
    destruct (task_records _ _ _ _ _ _ _ _ _ Htr (created_lookup m jobId createdAt))
      as (Hviews & Hjobs & _ & _); [done|].
    apply Forall_app in Hviews as [_ Hlast].
    apply Forall_singleton in Hlast as (rec & Hrec & _ & Hid & _).
    destruct (task_outcome _ _ _ _ _ _ _ _ _ _ _ Htr (created_lookup m jobId createdAt))
      as (rec' & Hrec' & Hout).
    rewrite Hrec in Hrec'. injection Hrec' as <-.
    exists rec. split_and!; [by rewrite Hjobs|done|done|].
    destruct o as [[]| |]; [|by destruct Hout..].
    destruct Hout as [[? _]|[? _]]; [by left|by right]. }
  intros [p0 Hp0|p0 p1 now createdAt a m1 Hp0 Hp1
         |p0 p1 evs' now createdAt mf u tok o a jobId m1 Hp0 Hp1 Hsync Htr
         |p0 p1 evs' now createdAt mf u tok o a jobId m1 Hp0 Hp1 Hsync Htr] Hin.
  - destruct (auth_answers _ _ _ Hp0 Hin) as (? & e & d & ?). by eapply answer_error.
  - rewrite !elem_of_app, list_elem_of_singleton in Hin. destruct Hin as [Hin|[Hin|Hin]].
    + destruct (auth_answers _ _ _ Hp0 Hin) as (? & e & d & ?). by eapply answer_error.
    + done.
    + destruct (negotiation_answers _ _ _ Hp1 Hin) as (? & e & d & ?).
      by eapply answer_error.
  - rewrite !elem_of_app, !list_elem_of_singleton in Hin.
    destruct Hin as [Hin|[Hin|[Hin|[Hin|Hin]]]].
    + destruct (auth_answers _ _ _ Hp0 Hin) as (? & e & d & ?). by eapply answer_error.
    + done.
    + destruct (negotiation_answers _ _ _ Hp1 Hin) as (? & e & d & ?).
      by eapply answer_error.
    + injection Hin as ->.
      destruct (Htask _ _ _ _ _ _ _ Htr) as (rec & Hjobs & Hrec & Hid & Hst).
      eapply (answer_accepted _ _ _ jobId rec); try done.
      destruct o as [[]| |]; [destruct Hst as [-> | ->]|rewrite Hst..];
        repeat first [apply list_elem_of_here | apply list_elem_of_further].
    + by destruct (responses_none _ r (task_no_response w req _ _ _ _ _ _ _ _ Htr)).
  - rewrite !elem_of_app, !list_elem_of_singleton in Hin.
    destruct Hin as [Hin|[Hin|[Hin|[Hin|Hin]]]].
    + destruct (auth_answers _ _ _ Hp0 Hin) as (? & e & d & ?). by eapply answer_error.
    + done.
    + destruct (negotiation_answers _ _ _ Hp1 Hin) as (? & e & d & ?).
      by eapply answer_error.
    + by destruct (responses_none _ r (task_no_response w req _ _ _ _ _ _ _ _ Htr)).
    + destruct (Htask _ _ _ _ _ _ _ Htr) as (rec & Hjobs & Hrec & Hid & Hst).
      destruct o as [[]| |]; cbn [answer_after] in Hin;
        [|by apply elem_of_nil in Hin..].
      apply list_elem_of_singleton in Hin. unfold final_response in Hin.
      rewrite (list_lookup_total_correct _ _ _ Hrec) in Hin. injection Hin as ->.
      eapply (answer_final _ _ _ rec); cbn [res_json res_status]; try done.
      * by rewrite Hid.
      * destruct (decide (j_status rec = completed)) as [Hc|Hc]; [by left|].
        right. by destruct Hst.
Qed.

(** A job left [uploading] when a run is over is the mark of a run that
    ended the process. *)
Lemma left_uploading (s : state) :
  ∃ o s',
    post_upload w req s = (o, s')
    ∧ ∀ rec, heap (mem s') !! length (heap (mem s)) = Some rec →
             j_status rec = uploading → ∃ e, o = Abort e.
Proof.
  unfold post_upload. destruct (negb (truthy (videoUrl req))).
  { eexists _, _. split; [reflexivity|]. cbn. intros rec H.
    by rewrite lookup_ge_None_2 in H. }
  unfold mbind at 1. unfold M_bind at 1.
  destruct (tame_resolveAccessToken w req s) as (p0 & t0 & Hs0 & Hp0 & _).
  destruct (resolveAccessToken w req s) as [[[tok|]|e|e] s0]; cbn [fst snd] in *; subst s0.
  2-4: eexists _, _; (split; [reflexivity|]); cbn; intros rec H;
       by rewrite lookup_ge_None_2 in H.
  unfold mbind, M_bind, Date_now, new_object, jobs_set.
  cbn [mem log ticks heap jobs storedRefreshToken].
  set (jobId := new_jobId w (clock w t0)).
  set (m1 := Store _ _ _).
  destruct (tame_resolveUploadUrl w req tok
              (State m1 ((log s ++ p0) ++ [EvNew (length (heap (mem s)))]) (S (S t0))))
    as (p1 & t1 & Hs1 & Hp1 & _).
  cbn [mem log ticks] in *.
  assert (Hfresh : heap m1 !! length (heap (mem s))
                   = Some (fresh_job jobId (clock w (S t0)))).
  { apply (created_lookup (mem s) jobId (clock w (S t0))). }
  destruct (resolveUploadUrl w req tok _) as [[[u|]|e|e] s1]; cbn [fst snd] in *; subst s1.
  2-4: eexists _, _; (split; [reflexivity|]); cbn [mem]; intros rec;
       rewrite Hfresh; by intros [= <-].
  destruct (dispatch_runs w req (length (heap (mem s))) jobId u tok
              (State m1 (((log s ++ p0) ++ [EvNew (length (heap (mem s)))]) ++ p1) t1))
    as (o & evs & m' & t' & Htr & ->).
  eexists _, _. split; [reflexivity|]. cbn [mem]. intros rec Hrec Hst.
  destruct (task_outcome _ _ _ _ _ _ _ _ _ _ _ Htr Hfresh) as (r & Hr & Hout).
  rewrite Hrec in Hr. injection Hr as <-.
  destruct (task_trace_settles _ _ _ _ _ _ _ _ _ _ Htr) as [->|[e ->]]; [|by eexists].
  destruct Hout as [[? _]|[? _]]; congruence.
Qed.

End Records.

Lemma after_run_Some {A : Type} (r : outcome A * state) (m : store) :
  after_run r = Some m → m = mem r.2 ∧ ∀ e, r.1 ≠ Abort e.
Proof.
  unfold after_run. destruct r as [[a|th|e] s]; cbn; [|done..]. by intros [= <-].
Qed.

Lemma JobMap_get_set_other (id k : string) (a : nat) (m : JobMap.t) :
  JobMap.get id (JobMap.set k a m)
  = if String.eqb id k then Some a else JobMap.get id m.
Proof.
  induction m as [|[k' a'] m IH]; cbn; [done|].
  destruct (String.eqb k k') eqn:Hk; cbn.
  - apply String.eqb_eq in Hk as ->. by destruct (String.eqb id k').
  - rewrite IH. destruct (String.eqb id k') eqn:Hid; [|done].
    apply String.eqb_eq in Hid as ->. by rewrite String.eqb_sym, Hk.
Qed.

(** X7.  The identifier of a 202 answer can be polled.  When the handler
    answers 202, the request was asynchronous and the poll URL is
    [/job/<jobId>]; and when the run has not ended the process, a poll of
    that identifier afterwards answers 200 with the record of that job: the
    request's source URL, the status completed or failed, and well
    formed. *)
Theorem accepted_job_can_be_polled (w : World) (req : request) (m : store) (t : nat)
    (jobId pollUrl : string) :
  let run := post_upload w req (State m [] t) in
  EvRespond {| res_status := 202; res_json := PAccepted jobId pollUrl |} ∈ log run.2 →
  pollUrl = "/job/" +:+ jobId ∧ truthy (sync req) = false
  ∧ ∀ m', after_run run = Some m' →
      ∃ rec, get_job m' jobId = {| res_status := 200; res_json := PJob rec |}
             ∧ j_id rec = jobId ∧ j_videoUrl rec = videoUrl req
             ∧ j_status rec ∈ [completed; failed] ∧ well_formed rec.
Proof.
  cbn zeta.
  destruct (left_uploading w req (State m [] t)) as (o' & s' & Hrun' & Hleft).
  destruct (post_upload_runs w req (State m [] t)) as (o & evs & m' & t' & Hrun & Htr).
  rewrite Hrun in Hrun'. injection Hrun' as <- <-.
  rewrite Hrun. cbn [fst snd log mem app] in *. intros Hin.
  destruct (request_store w req m evs m' Htr) as (_ & _ & _ & Hviews).
  apply Forall_app in Hviews as [_ Hlast]. rewrite Forall_singleton in Hlast.
  destruct (request_answers w req m evs m' _ Htr Hin)
    as [e d Hst|id rec _ Hjson Hsync Hjobs Hrec Hid Hstatus|rec Hjson];
    cbn [res_status res_json] in *; [lia| |done].
  injection Hjson as -> ->. split_and!; [done|done|].
  intros m'' Hafter. apply after_run_Some in Hafter as [-> Hlive].
  cbn [fst snd mem] in *.
  exists rec. destruct (Hlast rec Hrec) as (Hwf & id' & createdAt & _ & _ & Hurl & _).
  split_and!; try done.
  - unfold get_job. by rewrite Hjobs, JobMap_get_set, (list_lookup_total_correct _ _ _ Hrec).
  - apply elem_of_cons in Hstatus as [Hup|Hstatus]; [|done].
    destruct (Hleft rec Hrec Hup) as [e He]. by destruct (Hlive e).
Qed.

(** X8.  The answer of the synchronous mode is the final record.  When the
    handler answers with a job record, the request was synchronous, the
    status is 201 for a completed job and 500 for a failed one, the record
    is well formed, and a later poll of its identifier returns the same
    record. *)
Theorem sync_answer_is_the_final_record (w : World) (req : request) (m : store)
    (t : nat) (status : Z) (rec : job) :
  let s' := (post_upload w req (State m [] t)).2 in
  EvRespond {| res_status := status; res_json := PJob rec |} ∈ log s' →
  truthy (sync req) = true
  ∧ (status = 201 ∧ j_status rec = completed ∨ status = 500 ∧ j_status rec = failed)
  ∧ well_formed rec
  ∧ get_job (mem s') (j_id rec) = {| res_status := 200; res_json := PJob rec |}.
Proof.
  cbn zeta.
  destruct (post_upload_runs w req (State m [] t)) as (o & evs & m' & t' & Hrun & Htr).
  rewrite Hrun. cbn [snd log mem app]. intros Hin.
  destruct (request_store w req m evs m' Htr) as (_ & _ & _ & Hviews).
  apply Forall_app in Hviews as [_ Hlast]. rewrite Forall_singleton in Hlast.
  destruct (request_answers w req m evs m' _ Htr Hin)
    as [e d _ Hjson|id rec' _ Hjson|rec' Hjson Hsync Hjobs Hrec Hstatus];
    cbn [res_status res_json] in *; [done|done|].
  injection Hjson as <-. destruct (Hlast rec Hrec) as (Hwf & _).
  split_and!; try done.
  unfold get_job. by rewrite Hjobs, JobMap_get_set, (list_lookup_total_correct _ _ _ Hrec).
Qed.

(** X9.  A poll never sees a half-written record.  At every suspension of a
    request and its task, and at the end, the job the request created is
    either absent or well formed, with the source URL and the metadata of
    the request. *)
Theorem polled_record_is_well_formed (w : World) (req : request) (m : store) (t : nat) :
  let s' := (post_upload w req (State m [] t)).2 in
  Forall (λ v, ∀ rec, heap v !! length (heap m) = Some rec →
                      well_formed rec
                      ∧ j_videoUrl rec = videoUrl req
                      ∧ j_videoMetadata rec = or_else (videoMetadata req) VNull)
         (views (log s') ++ [mem s']).
Proof.
  cbn zeta.
  destruct (post_upload_runs w req (State m [] t)) as (o & evs & m' & t' & Hrun & Htr).
  rewrite Hrun. cbn [snd log mem app].
  destruct (request_store w req m evs m' Htr) as (_ & _ & _ & Hviews).
  eapply Forall_impl; [exact Hviews|]. cbn beta.
  intros v Hv rec Hrec. destruct (Hv rec Hrec) as (Hwf & id & createdAt & _ & _ & ? & ?).
  done.
Qed.

(** X10.  A request that does not end the process touches its own job
    only: the stored refresh token, the records of the jobs that existed
    and their registry entries are afterwards as before, except that an
    entry whose identifier the new job takes now leads to the new job. *)
Theorem request_touches_its_own_job_only (w : World) (req : request) (m : store)
    (t : nat) (m' : store) :
  after_run (post_upload w req (State m [] t)) = Some m' →
  storedRefreshToken m' = storedRefreshToken m
  ∧ (∀ b, (b < length (heap m))%nat → heap m' !! b = heap m !! b)
  ∧ (∀ id, JobMap.get id (jobs m') = JobMap.get id (jobs m)
           ∨ JobMap.get id (jobs m') = Some (length (heap m))).
Proof.
  intros Hafter. apply after_run_Some in Hafter as [-> _].
  destruct (post_upload_runs w req (State m [] t)) as (o & evs & m' & t' & Hrun & Htr).
  rewrite Hrun. cbn [snd log mem app].
  destruct (request_store w req m evs m' Htr)
    as (Hstored & Hother & [[Hjobs _]|(jobId & createdAt & r & Hjobs & _)] & _).
  - split_and!; [done|done|]. intros id. left. by rewrite Hjobs.
  - split_and!; [done|done|]. intros id. rewrite Hjobs, JobMap_get_set_other.
    destruct (String.eqb id jobId); [by right|by left].
Qed.

(** ** Failures that end a request *)

(** X11.  A source that answers an attempt with a status of 400 or more ends the
    transfer there, whatever the status: the error of line 473 has neither
    [statusCode] nor [code], so that a 503 of the source is not retried
    where a 503 of the destination is. *)
Theorem source_failure_is_not_retried (w : World) (d : descriptor) (s : state) (g : Z) :
  src (relay w (attempts (log s))) = SrcResponse g → 400 ≤ g →
  streamVideoToYouTube w d s
  = (Throw (TErr (new_Error ("Failed to download video: HTTP " +:+ show g))),
     State (mem s) (log s ++ [EvIo (IoTransfer d) (mem s)]) (ticks s)).
Proof.
  intros Hsrc Hg. unfold streamVideoToYouTube. change (Z.to_nat maxRetries) with 3%nat.
  rewrite attempts_from_step. cbn zeta. unfold settle. rewrite Hsrc.
  destruct (400 <=? g) eqn:Hcmp; [reflexivity|lia].
Qed.

(** X12.  When the body's refresh credentials are used and the exchange fails,
    the request ends with the 400 of lines 186-189: the stored refresh
    token is not tried, no job is created and the store is as it was. *)
Theorem failed_body_refresh_ends_the_request (w : World) (req : request) (s : state)
    (e : js_error) :
  truthy (videoUrl req) = true →
  truthy (tokenFromRequest req) = false →
  truthy (clientId req) = true → truthy (clientSecret req) = true →
  truthy (refreshToken req) = true →
  (getAccessTokenFromRefresh w (clientId req) (clientSecret req) (refreshToken req) s).1
  = Throw (TErr e) →
  post_upload w req s
  = (Ok (),
     State (mem s)
       (log s ++ [EvIo (IoToken (clientId req) (clientSecret req) (refreshToken req)) (mem s);
                  EvRespond {| res_status := 400;
                               res_json := PFailure
                                 "Failed to get access token from refresh token"
                                 (Some (message e)) |}])
       (ticks s)).
Proof.
  intros Hv Htok Hid Hsecret Hrefresh Hfail.
  destruct (getAccessTokenFromRefresh_run w (clientId req) (clientSecret req)
              (refreshToken req) s) as (o & Hrun & _).
  rewrite Hrun in Hfail. cbn [fst] in Hfail. subst o.
  unfold post_upload, resolveAccessToken, tokenFromBodyRefresh.
  rewrite Hv, Htok, Hid, Hsecret, Hrefresh. cbn [negb andb].
  unfold mbind, M_bind, try_catch. rewrite Hrun.
  unfold prop_message, respond, emit, mret, M_ret. cbn [mem log ticks].
  by rewrite <- app_assoc.
Qed.

(** ** The bearer header *)

Lemma trimStart_idemp (s : string) : trimStart (trimStart s) = trimStart s.
Proof.
  induction s as [|c s IH]; [done|]. cbn. destruct (is_space c) eqn:Hc; [done|].
  cbn. by rewrite Hc.
Qed.

Lemma substring_all (s : string) : substring 0 (String.length s) s = s.
Proof. induction s as [|c s IH]; [done|]. cbn. by rewrite IH. Qed.

(** The scheme is read without regard to case, the white space after it
    is skipped, and the rest is the text that follows. *)
Lemma after_bearer_scheme (scheme rest : string) (sep : ascii) :
  lowercase scheme = "bearer" → is_space sep = true →
  after_bearer (scheme +:+ String sep rest) = Some (trimStart rest).
Proof.
  intros Hscheme Hsep.
  destruct scheme as [|c1 [|c2 [|c3 [|c4 [|c5 [|c6 [|c7 scheme]]]]]]]; try done.
  unfold after_bearer.
  change (substring 0 6 _) with (String c1 (String c2 (String c3 (String c4 (String c5
            (String c6 "")))))).
  rewrite Hscheme. cbn [String.eqb Ascii.eqb Bool.eqb].
  change (String.length _) with (6 + String.length (String sep rest))%nat.
  rewrite Nat.add_comm, Nat.add_sub.
  change (substring 6 ?n _) with (substring 0 n (String sep rest)).
  by rewrite substring_all, Hsep.
Qed.

(** X13.  A bearer header is read back.  When the body carries no token, the
    token of the header [<scheme><space><token>], the scheme being Bearer
    in any letter case, is the text after the separating white space,
    trimmed. *)
Theorem bearer_token_is_read_back (req : request) (scheme token : string) (sep : ascii) :
  truthy (oauthToken req) = false →
  lowercase scheme = "bearer" → is_space sep = true →
  authorization req = Some (scheme +:+ String sep token) →
  tokenFromRequest req = VStr (trim token).
Proof.
  intros Hbody Hscheme Hsep Hauth. unfold tokenFromRequest. rewrite Hauth, Hbody.
  rewrite after_bearer_scheme by done.
  assert (truthy (VStr (scheme +:+ String sep token)) = true) as ->.
  { destruct scheme; [done|]. reflexivity. }
  cbn [negb andb]. unfold trim. by rewrite trimStart_idemp.
Qed.

(** * The API-key gate and the OAuth pages *)

(** ** The gate [requireApiKey] (lines 36-41) *)

(** The headers the gate reads besides [authorization]. *)
Record key_headers : Type := {
  x_api_key : option string;
  api_key : option string
}.

Inductive gate : Type :=
| Next
| Unauthorized.

(** [s.replace(/^Bearer\s+/i, '')]: the text after the match, or [s] itself
    when there is no match. *)
Definition strip_bearer (s : string) : string := default s (after_bearer s).

(** Line 38: the first truthy one of [x-api-key], [api-key] and the
    stripped and trimmed [authorization]. *)
Definition presented_key (keys : key_headers) (authorization : option string) : value :=
  or_else (or_else (header (x_api_key keys)) (header (api_key keys)))
          (from_option (λ a, VStr (trim (strip_bearer a))) VUndefined authorization).

(** [key === API_KEY], [API_KEY] being a string. *)
Definition is_string (v : value) (s : string) : bool :=
  match v with VStr k => String.eqb k s | _ => false end.

(** [API_KEY] is the environment variable, unset or a string. *)
Definition requireApiKey (API_KEY : option string) (keys : key_headers)
    (authorization : option string) : gate :=
  match API_KEY with
  | None => Next
  | Some expected =>
      if negb (truthy (VStr expected)) then Next
      else
        let key := presented_key keys authorization in
        if truthy key && is_string key expected then Next else Unauthorized
  end.

(** A route behind the gate: [app.post('/upload', requireApiKey, ...)]. *)
Definition guarded (API_KEY : option string) (keys : key_headers)
    (authorization : option string) (handler : M unit) : M unit :=
  match requireApiKey API_KEY keys authorization with
  | Next => handler
  | Unauthorized =>
      respond 401 (PFailure "Invalid or missing API key"
                     (Some "Add X-API-Key header with your API_KEY value"))
  end.

(** ** [GET /auth/status] (lines 127-129) *)

(** The [connected] field of the answer. *)
Definition auth_status (m : store) : bool := truthy (storedRefreshToken m).

(** ** [GET /auth/youtube/callback] (lines 68-122) *)

(** The query of the callback: a missing parameter is [undefined]. *)
Record query : Type := {
  q_code : value;
  q_error : value
}.

(** The form posted to the token endpoint (lines 77-83). *)
Record exchange : Type := {
  x_client_id : value;
  x_client_secret : value;
  x_code : value;
  x_grant_type : string;
  x_redirect_uri : string
}.

(** An HTML answer. *)
Record page : Type := Page {
  page_status : Z;
  page_html : string
}.

(** [s.replace(/\/$/, '')]: [s] without one final slash. *)
Definition strip_slash (s : string) : string :=
  match String.rev s with
  | String "/" rest => String.rev rest
  | _ => s
  end.

Section OAuth.

(** [PORT] and [BASE_URL] are the environment variables; the exchange of
    the code is the token endpoint's answer; [JSON_stringify] is the
    runtime's [JSON.stringify]. *)
Context (w : World) (PORT BASE_URL : option string).
Context (code_endpoint : exchange → token_reply) (JSON_stringify : value → string).

(** Lines 20-21: [process.env.PORT || 3000] in a template literal, and
    [process.env.BASE_URL || `http://localhost:${PORT}`]. *)
Definition port : string := to_string (or_else (header PORT) (VNum 3000)).

Definition base_url : string :=
  to_string (or_else (header BASE_URL) (VStr ("http://localhost:" +:+ port))).

Definition redirectUri : string := strip_slash base_url +:+ "/auth/youtube/callback".

(** What the callback does: the form it posts, if it gets that far, its
    answer, and the store afterwards. *)
Record callback_run : Type := {
  asked : option exchange;
  answered : page;
  store_after : store
}.

Definition oauth_callback (q : query) (m : store) : callback_run :=
  if truthy (q_error q)
  then {| asked := None;
          answered := Page 400 ("<h1>OAuth Error</h1><p>" +:+ to_string (q_error q) +:+ "</p>");
          store_after := m |}
  else if negb (truthy (q_code q)) || negb (truthy (header (YOUTUBE_CLIENT_ID w)))
          || negb (truthy (header (YOUTUBE_CLIENT_SECRET w)))
  then {| asked := None;
          answered := Page 400 "<h1>Missing code or credentials</h1>";
          store_after := m |}
  else
    let form := {| x_client_id := header (YOUTUBE_CLIENT_ID w);
                   x_client_secret := header (YOUTUBE_CLIENT_SECRET w);
                   x_code := q_code q;
                   x_grant_type := "authorization_code";
                   x_redirect_uri := redirectUri |} in
    let failed (text : string) :=
      {| asked := Some form;
         answered := Page 500 ("<h1>Error</h1><p>" +:+ text +:+ "</p>");
         store_after := m |} in
    match code_endpoint form with
    | TokenError err => failed (message err)
    | TokenReply data =>
        match JSON_parse w data with
        | None => failed data
        | Some json =>
            match get_prop json "refresh_token" with
            | None => failed data
            | Some refresh_token =>
                if truthy refresh_token
                then {| asked := Some form;
                        answered := Page 200
                          "<h1>Success</h1><p>YouTube is now connected. You can close this page and use the API from n8n. No tokens needed in requests.</p>";
                        store_after := Store (heap m) (jobs m) refresh_token |}
                else
                  let description := default VUndefined (get_prop json "error_description") in
                  {| asked := Some form;
                     answered := Page 400
                       ("<h1>No refresh token</h1><p>"
                        +:+ to_string (or_else description (VStr (JSON_stringify json)))
                        +:+ "</p>");
                     store_after := m |}
            end
        end
    end.

End OAuth.

(** ** Properties of the gate *)

Lemma truthy_string (s : string) : s ≠ "" → truthy (VStr s) = true.
Proof. intros Hs. cbn. by destruct s. Qed.

Lemma api_key_gate_cases (key : string) (keys : key_headers)
    (authorization : option string) :
  key ≠ "" →
  let verdict := requireApiKey (Some key) keys authorization in
  (x_api_key keys = Some key → verdict = Next)
  ∧ (∀ other, x_api_key keys = Some other → other ≠ "" → other ≠ key →
              verdict = Unauthorized)
  ∧ (x_api_key keys = None → api_key keys = None →
     ∀ scheme sep token,
       lowercase scheme = "bearer" → is_space sep = true → trim token = key →
       authorization = Some (scheme +:+ String sep token) → verdict = Next)
  ∧ (x_api_key keys = None ∨ x_api_key keys = Some "" →
     api_key keys = Some key → verdict = Next)
  ∧ (x_api_key keys = None → api_key keys = None → authorization = None →
     verdict = Unauthorized).
Proof.
  intros Hkey. cbn zeta. unfold requireApiKey, presented_key.
  rewrite (truthy_string key Hkey). cbn [negb].
  split_and!.
  - intros ->. cbn [header from_option]. unfold or_else.
    repeat (rewrite (truthy_string key Hkey); cbn iota).
    cbn [is_string andb]. by rewrite String.eqb_refl.
  - intros other -> Hother Hne. cbn [header from_option]. unfold or_else.
    repeat (rewrite (truthy_string other Hother); cbn iota).
    cbn [is_string andb]. by apply String.eqb_neq in Hne as ->.
  - intros -> -> scheme sep token Hscheme Hsep Htrim ->.
    cbn [header from_option]. unfold or_else.
    repeat (progress change (truthy VUndefined) with false; cbn iota).
    unfold strip_bearer. rewrite after_bearer_scheme by done.
    change (default _ (Some (trimStart token))) with (trimStart token).
    assert (trim (trimStart token) = key) as ->.
    { rewrite <- Htrim. unfold trim. by rewrite trimStart_idemp. }
    repeat (rewrite (truthy_string key Hkey); cbn iota).
    cbn [is_string andb]. by rewrite String.eqb_refl.
  - intros [-> | ->] ->; cbn [header from_option]; unfold or_else;
      repeat (progress change (truthy VUndefined) with false; cbn iota);
      repeat (progress change (truthy (VStr "")) with false; cbn iota);
      repeat (rewrite (truthy_string key Hkey); cbn iota);
      cbn [is_string andb]; by rewrite String.eqb_refl.
  - by intros -> -> ->.
Qed.

(** X14.  The gate is open when no key is configured, the empty key included.
    With a key configured, the first non-empty one of X-API-Key, Api-Key
    and the stripped Authorization header decides alone: the right
    X-API-Key passes whatever else is sent, a wrong one is refused even
    beside a right Api-Key or Authorization, and a request with none of the
    three is refused. *)
Theorem api_key_gate (key : string) (keys : key_headers) (authorization : option string) :
  key ≠ "" →
  let verdict := requireApiKey (Some key) keys authorization in
  requireApiKey None keys authorization = Next
  ∧ requireApiKey (Some "") keys authorization = Next
  ∧ (x_api_key keys = Some key → verdict = Next)
  ∧ (∀ other, x_api_key keys = Some other → other ≠ "" → other ≠ key →
              verdict = Unauthorized)
  ∧ (x_api_key keys = None ∨ x_api_key keys = Some "" →
     api_key keys = Some key → verdict = Next)
  ∧ (x_api_key keys = None → api_key keys = None →
     ∀ scheme sep token,
       lowercase scheme = "bearer" → is_space sep = true → trim token = key →
       authorization = Some (scheme +:+ String sep token) → verdict = Next)
  ∧ (x_api_key keys = None → api_key keys = None → authorization = None →
     verdict = Unauthorized).
Proof.
  intros Hkey. cbn zeta.
  destruct (api_key_gate_cases key keys authorization Hkey) as (H1 & H2 & H3 & H4 & H5).
  split_and!; done.
Qed.

Lemma api_key_gate_witness :
  let keys := {| x_api_key := Some "stale"; api_key := Some "s3cret" |} in
  let header := "bearer" +:+ String nbsp " s3cret " in
  requireApiKey (Some "s3cret") keys (Some "Bearer s3cret") = Unauthorized
  ∧ requireApiKey (Some "s3cret") {| x_api_key := None; api_key := None |} (Some header)
    = Next.
Proof.
  cbn zeta.
  destruct (api_key_gate "s3cret" {| x_api_key := Some "stale"; api_key := Some "s3cret" |}
              (Some "Bearer s3cret") ltac:(done)) as (_ & _ & _ & Hwrong & _).
  destruct (api_key_gate "s3cret" {| x_api_key := None; api_key := None |}
              (Some ("bearer" +:+ String nbsp " s3cret ")) ltac:(done))
    as (_ & _ & _ & _ & _ & Hbearer & _).
  split.
  - by apply (Hwrong "stale").
  - by apply (Hbearer eq_refl eq_refl "bearer" nbsp " s3cret ").
Defined.

(** X15.  The API key becomes the upload token.  A caller that passes the gate
    with the key in a bearer Authorization header, and whose body brings no
    token, has that header read again by the handler (line 178): the API key
    is taken as the access token, no exchange is tried, and every attempt
    carries the key as its bearer token to the upload destination. *)
Theorem api_key_is_forwarded_as_token (w : World) (req : request) (key : string)
    (keys : key_headers) (m : store) (t : nat) :
  key ≠ "" → trim key = key →
  x_api_key keys = None → api_key keys = None →
  authorization req = Some ("Bearer " +:+ key) →
  truthy (oauthToken req) = false →
  let run := guarded (Some key) keys (authorization req) (post_upload w req) in
  requireApiKey (Some key) keys (authorization req) = Next
  ∧ tokenFromRequest req = VStr key
  ∧ token_exchange w req m = None
  ∧ ∀ d, IoTransfer d ∈ io_ops (log (run (State m [] t)).2) → d_oauthToken d = VStr key.
Proof.
  intros Hkey Htrim Hx Ha Hauth Hbody. cbn zeta.
  assert (Hgate : requireApiKey (Some key) keys (authorization req) = Next).
  { destruct (api_key_gate_cases key keys (authorization req) Hkey) as (_ & _ & Hbearer & _).
    by apply (Hbearer Hx Ha "Bearer" " "%char key). }
  assert (Htoken : tokenFromRequest req = VStr key).
  { unfold tokenFromRequest. rewrite Hauth, Hbody.
    change ("Bearer " +:+ key) with ("Bearer" +:+ String " " key).
    rewrite after_bearer_scheme by done. cbn [truthy String.eqb negb andb].
    unfold trim in *. by rewrite trimStart_idemp, Htrim. }
  assert (Hnone : token_exchange w req m = None).
  { unfold token_exchange. cbn zeta. rewrite Htoken, (truthy_string key Hkey). done. }
  split_and!; try done.
  intros d Hin. unfold guarded in Hin. rewrite Hgate in Hin.
  destruct (request_attempt w req m t d Hin)
    as (tok & u & size & n & _ & _ & _ & Hsame & _ & _ & -> & _).
  cbn [descriptor_of d_oauthToken]. by rewrite (Hsame Hnone).
Qed.

(** ** Properties of the OAuth callback *)

Section OAuthProperties.

Context (w : World) (PORT BASE_URL : option string).
Context (code_endpoint : exchange → token_reply) (JSON_stringify : value → string).

Local Abbreviation callback := (oauth_callback w PORT BASE_URL code_endpoint JSON_stringify).

(** The form the callback posts for the query [q]. *)
Definition callback_form (q : query) : exchange :=
  {| x_client_id := header (YOUTUBE_CLIENT_ID w);
     x_client_secret := header (YOUTUBE_CLIENT_SECRET w);
     x_code := q_code q;
     x_grant_type := "authorization_code";
     x_redirect_uri := redirectUri PORT BASE_URL |}.

(** The callback succeeded: the endpoint answered the form with a JSON text
    whose refresh token [rt] is truthy. *)
Definition granted (q : query) (rt : value) : Prop :=
  truthy (q_error q) = false ∧ truthy (q_code q) = true
  ∧ truthy (header (YOUTUBE_CLIENT_ID w)) = true
  ∧ truthy (header (YOUTUBE_CLIENT_SECRET w)) = true
  ∧ truthy rt = true
  ∧ ∃ data json,
      code_endpoint (callback_form q) = TokenReply data
      ∧ JSON_parse w data = Some json
      ∧ get_prop json "refresh_token" = Some rt.

Lemma oauth_callback_cases (q : query) (m : store) :
  (∃ rt, granted q rt
         ∧ callback q m
           = {| asked := Some (callback_form q);
                answered := Page 200
                  "<h1>Success</h1><p>YouTube is now connected. You can close this page and use the API from n8n. No tokens needed in requests.</p>";
                store_after := Store (heap m) (jobs m) rt |})
  ∨ (store_after (callback q m) = m
     ∧ (page_status (answered (callback q m)) = 400
        ∨ page_status (answered (callback q m)) = 500)
     ∧ (asked (callback q m) = None ∨ asked (callback q m) = Some (callback_form q))
     ∧ ∀ rt, ¬ granted q rt).
Proof.
  unfold oauth_callback, granted. cbn zeta. fold (callback_form q).
  destruct (truthy (q_error q)) eqn:Herr.
  { right. cbn. split_and!; try done; auto. by intros rt (? & _). }
  destruct (truthy (q_code q)) eqn:Hcode; cbn [negb orb]; last first.
  { right. cbn. split_and!; try done; auto. by intros rt (_ & ? & _). }
  destruct (truthy (header (YOUTUBE_CLIENT_ID w))) eqn:Hid; cbn [negb orb]; last first.
  { right. cbn. split_and!; try done; auto. by intros rt (_ & _ & ? & _). }
  destruct (truthy (header (YOUTUBE_CLIENT_SECRET w))) eqn:Hsecret; cbn [negb orb]; last first.
  { right. cbn. split_and!; try done; auto. by intros rt (_ & _ & _ & ? & _). }
  destruct (code_endpoint (callback_form q)) as [err|data] eqn:Hreply.
  { right. cbn. split_and!; try done; auto.
    by intros rt (_ & _ & _ & _ & _ & ? & ? & ? & _). }
  destruct (JSON_parse w data) as [json|] eqn:Hparse; last first.
  { right. cbn. split_and!; try done; auto.
    intros rt (_ & _ & _ & _ & _ & data' & json' & [= <-] & ? & _). congruence. }
  destruct (get_prop json "refresh_token") as [rt|] eqn:Hprop; last first.
  { right. cbn. split_and!; try done; auto.
    intros rt (_ & _ & _ & _ & _ & data' & json' & [= <-] & ? & ?). congruence. }
  destruct (truthy rt) eqn:Hrt.
  - left. exists rt. split; [|done]. split_and!; try done. by exists data, json.
  - right. cbn. split_and!; try done; auto.
    intros rt' (_ & _ & _ & _ & Htrue & data' & json' & [= <-] & ? & ?). congruence.
Qed.

(** X16.  The callback stores a refresh token on success only.  It answers 200
    exactly when the endpoint grants a truthy refresh token, which is then
    the stored one; in every other case it answers 400 or 500 and leaves
    the store as it was, so that a failed or repeated authorization never
    disconnects the service; the jobs are never touched. *)
Theorem oauth_callback_stores_on_success_only (q : query) (m : store) :
  let run := callback q m in
  heap (store_after run) = heap m ∧ jobs (store_after run) = jobs m
  ∧ page_status (answered run) ∈ [200; 400; 500]
  ∧ (page_status (answered run) = 200 ↔ ∃ rt, granted q rt)
  ∧ (∀ rt, granted q rt → storedRefreshToken (store_after run) = rt ∧ auth_status (store_after run) = true)
  ∧ (page_status (answered run) ≠ 200 → store_after run = m)
  ∧ (auth_status m = true → auth_status (store_after run) = true).
Proof.
  cbn zeta.
  assert (Hfun : ∀ rt rt', granted q rt → granted q rt' → rt = rt').
  { intros rt rt' (_ & _ & _ & _ & _ & d & j & Hd & Hj & Hrt)
      (_ & _ & _ & _ & _ & d' & j' & Hd' & Hj' & Hrt'). congruence. }
  destruct (oauth_callback_cases q m) as [(rt & Hgranted & ->)|(Hleft & Hst & _ & Hnot)];
    cbn [store_after answered page_status heap jobs storedRefreshToken].
  - pose proof Hgranted as (_ & _ & _ & _ & Hrt & _).
    split_and!; try done.
    + apply list_elem_of_here.
    + split; [by exists rt|done].
    + intros rt' Hrt'. by rewrite (Hfun rt' rt Hrt' Hgranted).
  - rewrite Hleft. split_and!; try done.
    + destruct Hst as [-> | ->];
        repeat first [apply list_elem_of_here | apply list_elem_of_further].
    + split; [intros H200; destruct Hst; congruence|intros [rt Hrt]; by destruct (Hnot rt)].
    + intros rt Hrt. by destruct (Hnot rt).
Qed.

(** X17.  Once the callback has succeeded, a request without credentials of its
    own is served with the stored token: the service reports itself
    connected, and the one exchange the request makes is for the refresh
    token the callback stored, under the configured client. *)
Theorem stored_token_serves_later_uploads (q : query) (m : store) (req : request)
    (rt : value) (s : state) :
  granted q rt →
  mem s = store_after (callback q m) →
  truthy (tokenFromRequest req) = false →
  truthy (clientId req) && truthy (clientSecret req) && truthy (refreshToken req) = false →
  auth_status (mem s) = true
  ∧ ∃ o evs,
      resolveAccessToken w req s = (Ok o, State (mem s) (log s ++ evs) (ticks s))
      ∧ io_ops evs = [IoToken (header (YOUTUBE_CLIENT_ID w))
                              (header (YOUTUBE_CLIENT_SECRET w)) rt].
Proof.
  intros Hgranted Hmem Htok Hbody.
  assert (Hstored : storedRefreshToken (mem s) = rt).
  { rewrite Hmem.
    destruct (oauth_callback_cases q m) as [(rt' & Hrt' & ->)|(_ & _ & _ & Hnot)];
      [|by destruct (Hnot rt)].
    cbn. destruct Hgranted as (_ & _ & _ & _ & _ & d & j & Hd & Hj & Hrt).
    destruct Hrt' as (_ & _ & _ & _ & _ & d' & j' & Hd' & Hj' & Hrt''). congruence. }
  destruct Hgranted as (_ & _ & Hid & Hsecret & Hrt & _).
  split; [unfold auth_status; by rewrite Hstored|].
  destruct (resolveAccessToken_run w req s) as (o & evs & Hrun & Hio & _).
  exists o, evs. split; [done|]. rewrite Hio. unfold token_exchange. cbn zeta.
  rewrite Htok, Hstored, Hid, Hsecret, Hrt. cbn [negb andb].
  destruct (truthy (clientId req)), (truthy (clientSecret req)), (truthy (refreshToken req));
    done.
Qed.

End OAuthProperties.

(** ** The sweep and the state of the jobs *)

Lemma insert_by_ext {A : Type} (f g : A → A → Z) (x : A) (l : list A) :
  (∀ a b, f a b = g a b) → insert_by f x l = insert_by g x l.
Proof. intros Hfg. induction l as [|y l IH]; [done|]. cbn. by rewrite Hfg, IH. Qed.

Lemma Array_sort_ext {A : Type} (f g : A → A → Z) (l : list A) :
  (∀ a b, f a b = g a b) → Array_sort f l = Array_sort g l.
Proof.
  intros Hfg. induction l as [|x l IH]; [done|]. cbn.
  by rewrite IH, (insert_by_ext f g).
Qed.

(** X18.  The sweep looks at creation times only.  Two stores with the same
    registry whose jobs were created at the same times are swept alike,
    whatever the statuses, results and errors: a job that is still pending,
    downloading or uploading is evicted like a finished one. *)
Theorem sweep_looks_at_creation_times_only (m1 m2 : store) :
  jobs m1 = jobs m2 →
  (∀ a, j_createdAt (heap m1 !!! a) = j_createdAt (heap m2 !!! a)) →
  jobs (sweep m1) = jobs (sweep m2).
Proof.
  intros Hjobs Htimes. unfold sweep. rewrite Hjobs.
  destruct (retained <? JobMap.size (jobs m2)); [|done]. cbn [jobs].
  rewrite (Array_sort_ext (byCreatedAt (heap m1)) (byCreatedAt (heap m2))); [done|].
  intros x y. unfold byCreatedAt. by rewrite !Htimes.
Qed.

(** ** The redirect URI *)

Lemma rev_app_append (s1 s2 acc : string) :
  String.rev_app (s1 +:+ s2) acc = String.rev_app s2 (String.rev_app s1 acc).
Proof. revert acc. induction s1 as [|c s1 IH]; intros acc; [done|]. cbn. apply IH. Qed.

Lemma rev_app_rev_app (s a b : string) :
  String.rev_app (String.rev_app s a) b = String.rev_app a (s +:+ b).
Proof. revert a b. induction s as [|c s IH]; intros a b; [done|]. cbn. by rewrite IH. Qed.

(** Exactly one final slash is removed. *)
Lemma strip_slash_slash (s : string) : strip_slash (s +:+ "/") = s.
Proof.
  unfold strip_slash, String.rev. rewrite rev_app_append.
  change (String.rev_app "/" ?a) with (String "/" a). cbn iota.
  rewrite rev_app_rev_app. apply append_empty_r.
Qed.

(** X19.  The redirect URI posted with the code is [BASE_URL] without one final
    slash, followed by the callback path; with neither [BASE_URL] nor [PORT]
    configured it is that of port 3000 on localhost. *)
Theorem redirect_uri_drops_one_slash (w : World) (PORT : option string) (q : query)
    (base : string) :
  x_redirect_uri (callback_form w PORT (Some (base +:+ "/")) q)
  = base +:+ "/auth/youtube/callback"
  ∧ x_redirect_uri (callback_form w None None q)
    = "http://localhost:3000/auth/youtube/callback".
Proof.
  split; [|reflexivity].
  cbn [callback_form x_redirect_uri]. unfold redirectUri, base_url, or_else.
  cbn [header from_option].
  assert (truthy (VStr (base +:+ "/")) = true) as ->.
  { apply truthy_string. by destruct base. }
  cbn [to_string]. by rewrite strip_slash_slash.
Qed.

(** ** Job identifiers *)

Lemma append_inj_l (p s1 s2 : string) : p +:+ s1 = p +:+ s2 → s1 = s2.
Proof.
  induction p as [|c p IH]; [done|]. rewrite !append_cons. intros [= H]. by apply IH.
Qed.

(** X20.  Two job identifiers are equal exactly when they were drawn at the same
    clock reading with the same random suffix (line 214); the clock reading
    can be read back from the identifier. *)
Theorem job_ids_tell_requests_apart (w1 w2 : World) (now1 now2 : Z) :
  (new_jobId w1 now1 = new_jobId w2 now2
   ↔ now1 = now2 ∧ random_suffix w1 = random_suffix w2)
  ∧ parseInt (substring 4 (String.length (new_jobId w1 now1) - 4) (new_jobId w1 now1))
    = VNum now1.
Proof.
  assert (Hread : ∀ w now, parseInt (show now +:+ "_" +:+ random_suffix w) = VNum now).
  { intros w now. by apply parseInt_show. }
  split.
  - split; [|intros [-> Hs]; unfold new_jobId; by rewrite Hs].
    unfold new_jobId. intros Heq.
    apply (append_inj_l "job_") in Heq.
    assert (now1 = now2) as ->.
    { pose proof (Hread w1 now1) as H1. rewrite Heq, Hread in H1. by injection H1. }
    split; [done|]. apply append_inj_l in Heq. by apply (append_inj_l "_") in Heq.
  - unfold new_jobId.
    change (String.length ("job_" +:+ ?s)) with (4 + String.length s)%nat.
    rewrite Nat.add_comm, Nat.add_sub.
    change (substring 4 ?n ("job_" +:+ ?s)) with (substring 0 n s).
    rewrite substring_all. apply Hread.
Qed.

(** * The further properties on sample runs *)

Module Gallery.

Import Sample.

(** A request with metadata, a body token, the given upload URL and no
    length. *)
Definition described (uploadUrl : value) (sync : value) : request :=
  {| authorization := None;
     videoUrl := source;
     uploadUrl := uploadUrl;
     oauthToken := VStr "ya29.body";
     clientId := VUndefined;
     clientSecret := VUndefined;
     refreshToken := VUndefined;
     videoMetadata := VObj [("snippet", VObj [("title", VStr "clip")])];
     contentLength := VUndefined;
     contentType_field := VUndefined;
     sync_field := sync |}.

(** A source that announces 100 bytes to the first probe and 200 bytes
    afterwards. *)
Definition resized : nat → value → head_reply :=
  λ k _, HeadReply 200 (Some (match k with O => "100" | _ => "200" end)) None.

(** A source that answers every download with 503. *)
Definition unavailable (k : nat) : attempt_net :=
  {| src := SrcResponse 503; dst := DstResponse 200 (body_with_id video) |}.

(** A request that brings refresh credentials and no token. *)
Definition refreshing : request :=
  {| authorization := None;
     videoUrl := source;
     uploadUrl := session;
     oauthToken := VUndefined;
     clientId := VStr "client.apps.example";
     clientSecret := VStr "hunter2";
     refreshToken := VStr "1//body";
     videoMetadata := VUndefined;
     contentLength := VNum 1048576;
     contentType_field := VUndefined;
     sync_field := VUndefined |}.

(** A request whose only credential is the given [authorization] header. *)
Definition bearing (authorization : option string) : request :=
  {| authorization := authorization;
     videoUrl := source;
     uploadUrl := session;
     oauthToken := VUndefined;
     clientId := VUndefined;
     clientSecret := VUndefined;
     refreshToken := VUndefined;
     videoMetadata := VUndefined;
     contentLength := VNum 1048576;
     contentType_field := VUndefined;
     sync_field := VUndefined |}.

(** The token endpoint's body [{"refresh_token":"1//stored"}]. *)
Definition grant : string :=
  "{" +:+ quote +:+ "refresh_token" +:+ quote +:+ ":" +:+ quote +:+ "1//stored" +:+ quote
  +:+ "}".

(** A configured service. *)
Definition configured : World :=
  {| JSON_parse := λ data,
       if String.eqb data grant then Some (VObj [("refresh_token", VStr "1//stored")])
       else parse data;
     upload_request_throws := request_error;
     YOUTUBE_CLIENT_ID := Some "client.apps.example";
     YOUTUBE_CLIENT_SECRET := Some "hunter2";
     clock := λ n, 1709123456789 + Z.of_nat n;
     random_suffix := "k3x9q2a";
     token_endpoint := λ _ _ _, TokenError (new_Error "unreachable");
     source_head := unsized;
     session_endpoint := λ _ _ _ _, SessionReply 200 (Some "https://upload.example/session/2") "";
     relay := destination [] |}.

(** The token endpoint grants every code. *)
Definition granting (form : exchange) : token_reply := TokenReply grant.

Definition consent : query := {| q_code := VStr "4/0AbCd"; q_error := VUndefined |}.

(** The jobs of [crowd], all still uploading. *)
Definition busy_crowd : store :=
  Store (map (set_status uploading) (heap crowd)) (jobs crowd) VNull.

End Gallery.

Lemma negotiated_transfer_probes_twice_witness :
  let w := Sample.world Gallery.resized (Sample.destination [503]) in
  let req := Gallery.described VUndefined VUndefined in
  let d := descriptor_of req (VStr "https://upload.example/session/2") (VStr "ya29.body")
             (VNum 200) in
  truthy (uploadUrl req) = false
  ∧ nullish (contentLength req) = true
  ∧ IoTransfer d ∈ io_ops (log (post_upload w req Sample.start).2)
  ∧ ∃ tok status location data size1 size2 n,
      length_of (source_head w 0 (videoUrl req)) = Ok size1
      ∧ length_of (source_head w 1 (videoUrl req)) = Ok size2
      ∧ session_endpoint w tok (videoMetadata req) (contentType req) size1
        = SessionReply status (Some location) data
      ∧ d = descriptor_of req (VStr location) tok size2
      ∧ io_ops (log (post_upload w req Sample.start).2)
        = option_list (token_exchange w req Sample.empty)
          ++ [IoHead (videoUrl req);
              IoSession tok (videoMetadata req) (contentType req) size1;
              IoHead (videoUrl req)]
          ++ schedule d n.
Proof.
  cbn zeta.
  assert (Hin : IoTransfer (descriptor_of (Gallery.described VUndefined VUndefined)
                              (VStr "https://upload.example/session/2") (VStr "ya29.body")
                              (VNum 200))
                ∈ io_ops (log (post_upload
                                 (Sample.world Gallery.resized (Sample.destination [503]))
                                 (Gallery.described VUndefined VUndefined) Sample.start).2)).
  { assert (Hops : io_ops (log (post_upload
                                  (Sample.world Gallery.resized (Sample.destination [503]))
                                  (Gallery.described VUndefined VUndefined) Sample.start).2)
                   = [IoHead Sample.source;
                      IoSession (VStr "ya29.body")
                        (VObj [("snippet", VObj [("title", VStr "clip")])])
                        (VStr "video/webm") (VNum 100);
                      IoHead Sample.source;
                      IoTransfer (descriptor_of (Gallery.described VUndefined VUndefined)
                                    (VStr "https://upload.example/session/2")
                                    (VStr "ya29.body") (VNum 200));
                      IoTimer 2000;
                      IoTransfer (descriptor_of (Gallery.described VUndefined VUndefined)
                                    (VStr "https://upload.example/session/2")
                                    (VStr "ya29.body") (VNum 200))])
      by (vm_compute; reflexivity).
    rewrite Hops. in_list. }
  split_and!; [reflexivity|reflexivity|exact Hin|].
  exact (negotiated_transfer_probes_twice
           (Sample.world Gallery.resized (Sample.destination [503]))
           (Gallery.described VUndefined VUndefined) Sample.empty 0 _ eq_refl eq_refl Hin).
Defined.

Lemma supplied_upload_url_is_used_witness :
  let w := Sample.world Gallery.resized (Sample.destination [503]) in
  let req := Gallery.described Sample.session VUndefined in
  let ops := io_ops (log (post_upload w req Sample.start).2) in
  truthy (uploadUrl req) = true
  ∧ tally is_negotiation ops = 0%nat
  ∧ (tally is_probe ops ≤ 1)%nat
  ∧ ∀ d, IoTransfer d ∈ ops → d_uploadUrl d = uploadUrl req.
Proof.
  cbn zeta. split; [reflexivity|].
  exact (supplied_upload_url_is_used
           (Sample.world Gallery.resized (Sample.destination [503]))
           (Gallery.described Sample.session VUndefined) Sample.empty 0 eq_refl).
Defined.

Lemma attempts_repeat_one_transfer_witness :
  let w := Sample.world Sample.unsized (Sample.destination [503; 503]) in
  let req := Sample.direct Runs.megabyte VUndefined in
  let d := Sample.transfer Runs.megabyte in
  IoTransfer d ∈ io_ops (log (post_upload w req Sample.start).2)
  ∧ d_videoUrl d = videoUrl req ∧ d_contentType d = contentType req
  ∧ truthy (d_videoUrl d) = true ∧ truthy (d_oauthToken d) = true
  ∧ truthy (d_uploadUrl d) = true.
Proof.
  cbn zeta.
  assert (Hin : IoTransfer (Sample.transfer Runs.megabyte)
                ∈ io_ops (log (post_upload
                                 (Sample.world Sample.unsized (Sample.destination [503; 503]))
                                 (Sample.direct Runs.megabyte VUndefined) Sample.start).2)).
  { assert (Hops : io_ops (log (post_upload
                                  (Sample.world Sample.unsized (Sample.destination [503; 503]))
                                  (Sample.direct Runs.megabyte VUndefined) Sample.start).2)
                   = [IoTransfer (Sample.transfer Runs.megabyte); IoTimer 2000;
                      IoTransfer (Sample.transfer Runs.megabyte); IoTimer 4000;
                      IoTransfer (Sample.transfer Runs.megabyte)])
      by (vm_compute; reflexivity).
    rewrite Hops. in_list. }
  split; [exact Hin|].
  exact (proj2 (attempts_repeat_one_transfer
                  (Sample.world Sample.unsized (Sample.destination [503; 503]))
                  (Sample.direct Runs.megabyte VUndefined) Sample.empty 0
                  (Sample.transfer Runs.megabyte) (Sample.transfer Runs.megabyte) Hin Hin)).
Defined.

Lemma accepted_job_can_be_polled_witness :
  let w := Sample.world Sample.unsized (Sample.destination [503; 503]) in
  let req := Sample.direct Runs.megabyte VUndefined in
  let run := post_upload w req Sample.start in
  let jobId := "job_1709123456789_k3x9q2a" in
  let pollUrl := "/job/job_1709123456789_k3x9q2a" in
  EvRespond {| res_status := 202; res_json := PAccepted jobId pollUrl |} ∈ log run.2
  ∧ after_run run = Some (mem run.2)
  ∧ pollUrl = "/job/" +:+ jobId ∧ truthy (sync req) = false
  ∧ ∃ rec, get_job (mem run.2) jobId = {| res_status := 200; res_json := PJob rec |}
           ∧ j_id rec = jobId ∧ j_videoUrl rec = videoUrl req
           ∧ j_status rec ∈ [completed; failed] ∧ well_formed rec.
Proof.
  cbn zeta.
  assert (Hin : EvRespond {| res_status := 202;
                             res_json := PAccepted "job_1709123456789_k3x9q2a"
                                           "/job/job_1709123456789_k3x9q2a" |}
                ∈ log (post_upload
                         (Sample.world Sample.unsized (Sample.destination [503; 503]))
                         (Sample.direct Runs.megabyte VUndefined) Sample.start).2).
  { assert (Htake : take 2 (log (post_upload
                                   (Sample.world Sample.unsized (Sample.destination [503; 503]))
                                   (Sample.direct Runs.megabyte VUndefined) Sample.start).2)
                    = [EvNew 0;
                       EvRespond {| res_status := 202;
                                    res_json := PAccepted "job_1709123456789_k3x9q2a"
                                                  "/job/job_1709123456789_k3x9q2a" |}])
      by (vm_compute; reflexivity).
    rewrite <- (take_drop 2 (log _)), Htake. apply elem_of_app. left. in_list. }
  assert (Hafter : after_run (post_upload
                                (Sample.world Sample.unsized (Sample.destination [503; 503]))
                                (Sample.direct Runs.megabyte VUndefined) Sample.start)
                   = Some (mem (post_upload
                                  (Sample.world Sample.unsized (Sample.destination [503; 503]))
                                  (Sample.direct Runs.megabyte VUndefined) Sample.start).2))
    by (vm_compute; reflexivity).
  destruct (accepted_job_can_be_polled
              (Sample.world Sample.unsized (Sample.destination [503; 503]))
              (Sample.direct Runs.megabyte VUndefined) Sample.empty 0
              "job_1709123456789_k3x9q2a" "/job/job_1709123456789_k3x9q2a" Hin)
    as (Hurl & Hsync & Hpoll).
  split_and!; [exact Hin|exact Hafter|exact Hurl|exact Hsync|exact (Hpoll _ Hafter)].
Defined.

(** The record a synchronous request is answered with when the destination
    accepts the first attempt. *)
Definition done_job : job :=
  Job "job_1709123456789_k3x9q2a" completed 1709123456790 (Some 1709123456791)
      Sample.source VNull
      (Some {| r_statusCode := 200; r_videoId := VStr Sample.video;
               r_rawResponse := Some (Sample.body_with_id Sample.video) |})
      None.

Lemma sync_answer_is_the_final_record_witness :
  let w := Sample.world Sample.unsized (Sample.destination []) in
  let req := Sample.direct Runs.megabyte (VBool true) in
  let s' := (post_upload w req Sample.start).2 in
  EvRespond {| res_status := 201; res_json := PJob done_job |} ∈ log s'
  ∧ truthy (sync req) = true
  ∧ (201 = 201 ∧ j_status done_job = completed ∨ 201 = 500 ∧ j_status done_job = failed)
  ∧ well_formed done_job
  ∧ get_job (mem s') (j_id done_job) = {| res_status := 200; res_json := PJob done_job |}.
Proof.
  cbn zeta.
  assert (Hin : EvRespond {| res_status := 201; res_json := PJob done_job |}
                ∈ log (post_upload (Sample.world Sample.unsized (Sample.destination []))
                         (Sample.direct Runs.megabyte (VBool true)) Sample.start).2).
  { rewrite Runs.sync_completes. in_list. }
  split; [exact Hin|].
  exact (sync_answer_is_the_final_record
           (Sample.world Sample.unsized (Sample.destination []))
           (Sample.direct Runs.megabyte (VBool true)) Sample.empty 0 201 done_job Hin).
Defined.

Lemma source_failure_is_not_retried_witness :
  let w := Sample.world Sample.unsized Gallery.unavailable in
  let d := Sample.transfer Runs.megabyte in
  src (relay w (attempts (log Sample.start))) = SrcResponse 503
  ∧ 400 ≤ 503
  ∧ streamVideoToYouTube w d Sample.start
    = (Throw (TErr (new_Error ("Failed to download video: HTTP " +:+ show 503))),
       State Sample.empty [EvIo (IoTransfer d) Sample.empty] 0).
Proof.
  cbn zeta. split_and!; [reflexivity|lia|].
  apply (source_failure_is_not_retried (Sample.world Sample.unsized Gallery.unavailable)
           (Sample.transfer Runs.megabyte) Sample.start 503); [reflexivity|lia].
Defined.

Lemma failed_body_refresh_ends_the_request_witness :
  let w := Sample.world Sample.unsized (Sample.destination []) in
  let req := Gallery.refreshing in
  truthy (videoUrl req) = true
  ∧ truthy (tokenFromRequest req) = false
  ∧ truthy (clientId req) = true ∧ truthy (clientSecret req) = true
  ∧ truthy (refreshToken req) = true
  ∧ (getAccessTokenFromRefresh w (clientId req) (clientSecret req) (refreshToken req)
       Sample.start).1
    = Throw (TErr (new_Error "unreachable"))
  ∧ post_upload w req Sample.start
    = (Ok (),
       State Sample.empty
         [EvIo (IoToken (clientId req) (clientSecret req) (refreshToken req)) Sample.empty;
          EvRespond {| res_status := 400;
                       res_json := PFailure
                         "Failed to get access token from refresh token"
                         (Some "unreachable") |}]
         0).
Proof.
  cbn zeta. split_and!; [reflexivity..|].
  apply (failed_body_refresh_ends_the_request
           (Sample.world Sample.unsized (Sample.destination [])) Gallery.refreshing
           Sample.start (new_Error "unreachable")); reflexivity.
Defined.

Lemma bearer_token_is_read_back_witness :
  let padded := String nbsp ("ya29.header" +:+ String nbsp " ") in
  let req := Gallery.bearing (Some ("BEARER " +:+ padded)) in
  truthy (oauthToken req) = false
  ∧ lowercase "BEARER" = "bearer" ∧ is_space " " = true
  ∧ authorization req = Some ("BEARER" +:+ String " " padded)
  ∧ tokenFromRequest req = VStr "ya29.header".
Proof.
  cbn zeta. split_and!; [reflexivity..|].
  apply (bearer_token_is_read_back
           (Gallery.bearing
              (Some ("BEARER " +:+ String nbsp ("ya29.header" +:+ String nbsp " "))))
           "BEARER" (String nbsp ("ya29.header" +:+ String nbsp " ")) " "); reflexivity.
Defined.

Lemma api_key_is_forwarded_as_token_witness :
  let w := Sample.world Sample.unsized (Sample.destination []) in
  let req := Gallery.bearing (Some "Bearer s3cret") in
  let keys := {| x_api_key := None; api_key := None |} in
  let run := guarded (Some "s3cret") keys (authorization req) (post_upload w req) in
  "s3cret" ≠ "" ∧ trim "s3cret" = "s3cret"
  ∧ authorization req = Some ("Bearer " +:+ "s3cret")
  ∧ truthy (oauthToken req) = false
  ∧ requireApiKey (Some "s3cret") keys (authorization req) = Next
  ∧ tokenFromRequest req = VStr "s3cret"
  ∧ token_exchange w req Sample.empty = None
  ∧ ∀ d, IoTransfer d ∈ io_ops (log (run Sample.start).2) → d_oauthToken d = VStr "s3cret".
Proof.
  cbn zeta. split_and!; [done|reflexivity|reflexivity|reflexivity|..];
    apply (api_key_is_forwarded_as_token
             (Sample.world Sample.unsized (Sample.destination []))
             (Gallery.bearing (Some "Bearer s3cret")) "s3cret"
             {| x_api_key := None; api_key := None |} Sample.empty 0);
    done.
Defined.

Lemma granted_consent :
  granted Gallery.configured None (Some "https://relay.example/") Gallery.granting
    Gallery.consent (VStr "1//stored").
Proof.
  unfold granted. split_and!; [reflexivity..|].
  exists Gallery.grant, (VObj [("refresh_token", VStr "1//stored")]).
  split_and!; reflexivity.
Defined.

Lemma oauth_callback_stores_on_success_only_witness :
  let run := oauth_callback Gallery.configured None (Some "https://relay.example/")
               Gallery.granting (λ _, "{}") Gallery.consent Runs.one_job in
  page_status (answered run) = 200
  ∧ store_after run = Store [Runs.fresh] [("job_1709123456789_k3x9q2a", 0%nat)] (VStr "1//stored")
  ∧ auth_status (store_after run) = true.
Proof.
  cbn zeta.
  destruct (oauth_callback_stores_on_success_only Gallery.configured None
              (Some "https://relay.example/") Gallery.granting (λ _, "{}")
              Gallery.consent Runs.one_job)
    as (Hheap & Hjobs & _ & H200 & Hstored & _).
  destruct (Hstored _ granted_consent) as [Htoken Hstatus].
  split_and!; [apply H200; eexists; exact granted_consent| |exact Hstatus].
  destruct (store_after _) as [h j r]. cbn in Hheap, Hjobs, Htoken. by subst.
Defined.

Lemma stored_token_serves_later_uploads_witness :
  let w := Gallery.configured in
  let m := store_after (oauth_callback w None (Some "https://relay.example/") Gallery.granting
                   (λ _, "{}") Gallery.consent Sample.empty) in
  let req := Gallery.bearing None in
  granted w None (Some "https://relay.example/") Gallery.granting Gallery.consent
    (VStr "1//stored")
  ∧ truthy (tokenFromRequest req) = false
  ∧ truthy (clientId req) && truthy (clientSecret req) && truthy (refreshToken req) = false
  ∧ auth_status m = true
  ∧ ∃ o evs,
      resolveAccessToken w req (State m [] 0) = (Ok o, State m ([] ++ evs) 0)
      ∧ io_ops evs = [IoToken (VStr "client.apps.example") (VStr "hunter2")
                        (VStr "1//stored")].
Proof.
  cbn zeta. split_and!; [exact granted_consent|reflexivity|reflexivity|..];
    apply (stored_token_serves_later_uploads Gallery.configured None
             (Some "https://relay.example/") Gallery.granting (λ _, "{}")
             Gallery.consent Sample.empty (Gallery.bearing None) (VStr "1//stored")
             (State (store_after (oauth_callback Gallery.configured None
                             (Some "https://relay.example/") Gallery.granting (λ _, "{}")
                             Gallery.consent Sample.empty)) [] 0)
             granted_consent eq_refl eq_refl eq_refl).
Defined.

Lemma sweep_looks_at_creation_times_only_witness :
  jobs crowd = jobs Gallery.busy_crowd
  ∧ (∀ a, j_createdAt (heap crowd !!! a) = j_createdAt (heap Gallery.busy_crowd !!! a))
  ∧ jobs (sweep crowd) = jobs (sweep Gallery.busy_crowd).
Proof.
  assert (Htimes : ∀ a, j_createdAt (heap crowd !!! a)
                        = j_createdAt (heap Gallery.busy_crowd !!! a)).
  { intros a. unfold Gallery.busy_crowd. cbn [heap].
    rewrite !list_lookup_total_alt, list_lookup_fmap.
    by destruct (heap crowd !! a). }
  split_and!; [reflexivity|exact Htimes|].
  apply (sweep_looks_at_creation_times_only crowd Gallery.busy_crowd eq_refl Htimes).
Defined.

Lemma polled_record_is_well_formed_witness :
  let w := Sample.world Sample.unsized (Sample.destination [403]) in
  let req := Sample.direct Runs.megabyte VUndefined in
  ∃ rec, heap (mem (post_upload w req Sample.start).2) !! 0%nat = Some rec
         ∧ j_status rec = failed
         ∧ well_formed rec ∧ j_videoUrl rec = videoUrl req.
Proof.
  cbn zeta.
  pose proof (polled_record_is_well_formed
                (Sample.world Sample.unsized (Sample.destination [403]))
                (Sample.direct Runs.megabyte VUndefined) Sample.empty 0) as Hall.
  cbn zeta in Hall. apply Forall_app in Hall as [_ Hlast].
  rewrite Forall_singleton in Hlast.
  eexists. split; [vm_compute; reflexivity|]. split; [reflexivity|].
  edestruct Hlast as (Hwf & Hurl & _); [vm_compute; reflexivity|].
  split; [exact Hwf|exact Hurl].
Defined.

Lemma request_touches_its_own_job_only_witness :
  let w := Sample.world Sample.unsized (Sample.destination []) in
  let req := Sample.direct Runs.megabyte VUndefined in
  let run := post_upload w req (State Runs.one_job [] 2) in
  after_run run = Some (mem run.2)
  ∧ storedRefreshToken (mem run.2) = VNull
  ∧ heap (mem run.2) !! 0%nat = Some Runs.fresh.
Proof.
  cbn zeta.
  assert (Hafter : after_run (post_upload
                                (Sample.world Sample.unsized (Sample.destination []))
                                (Sample.direct Runs.megabyte VUndefined)
                                (State Runs.one_job [] 2))
                   = Some (mem (post_upload
                                  (Sample.world Sample.unsized (Sample.destination []))
                                  (Sample.direct Runs.megabyte VUndefined)
                                  (State Runs.one_job [] 2)).2))
    by (vm_compute; reflexivity).
  destruct (request_touches_its_own_job_only
              (Sample.world Sample.unsized (Sample.destination []))
              (Sample.direct Runs.megabyte VUndefined) Runs.one_job 2 _ Hafter)
    as (Hstored & Hheap & _).
  split_and!; [exact Hafter|exact Hstored|]. apply (Hheap 0%nat). cbn. lia.
Defined.
